(** * The select IR of the engine and the RQL query dispatcher

    A shallow embedding of [Hasura.RQL.IR.Select] (the tree of select types,
    its derived [Functor]/[Foldable] instances and its hand-written
    [Bifoldable] instances) and of [Hasura.Server.API.V2Query] (the
    [RQLQuery] type, [queryModifiesSchema], [queryModifiesUserDB] and the
    dispatch of [runQueryM]).

    Conventions.
    - A Haskell type [T b r v] becomes [T r v] over an ambient [Backend]
      instance [b]; the type families of the [Backend] class are the fields
      of that class.
    - The higher-kinded parameter [f] of [AnnSelectG b f v] is applied in the
      source only as [f v]; the embedding takes the type [fld := f v] of one
      field and, for the instances, the action of [f] on it.
    - [deriving stock (Functor, Foldable)] is written out the way GHC
      generates it: every constructor argument whose type mentions the last
      type parameter is mapped (folded), in declaration order, the folds
      combined with a right-nested [mappend].
    - [Int] is a 64-bit two's complement integer, embedded in [Z] with its
      wrap-around written out. *)

From Stdlib Require Import ZArith List Lia.
From stdpp Require Import base option list gmap strings fin_maps.

Set Warnings "-register-all".
Set Implicit Arguments.
Unset Strict Implicit.
Local Open Scope Z_scope.

(** ** Monoids *)

Class Monoid (M : Type) := {
  mempty : M;
  mappend : M -> M -> M
}.

Declare Scope monoid_scope.
Infix "<+>" := mappend (at level 60, right associativity) : monoid_scope.
Local Open Scope monoid_scope.

Class MonoidLaws (M : Type) `{Monoid M} : Prop := {
  mappend_mempty_l : forall x : M, mempty <+> x = x;
  mappend_mempty_r : forall x : M, x <+> mempty = x;
  mappend_assoc : forall x y z : M, x <+> (y <+> z) = (x <+> y) <+> z
}.
Arguments MonoidLaws M {_}.

(** The free monoid: what a collecting fold accumulates in. *)
#[export] Instance listMonoid (A : Type) : Monoid (list A) :=
  {| mempty := []; mappend := @app A |}.

(** [Sum Int] restricted to counts. *)
#[export] Instance sumMonoid : Monoid nat :=
  {| mempty := 0%nat; mappend := Nat.add |}.

(** ** Folds and maps of the Prelude containers *)

Section PreludeFolds.
Context {M : Type} `{Monoid M}.

(** [foldMap] of lists: [foldr (mappend . f) mempty]. *)
Definition foldMapList {A : Type} (f : A -> M) : list A -> M :=
  fix go (l : list A) : M :=
    match l with
    | [] => mempty
    | x :: xs => f x <+> go xs
    end.

Definition foldMapMaybe {A : Type} (f : A -> M) (o : option A) : M :=
  match o with
  | None => mempty
  | Some x => f x
  end.

(** [foldMap] of [(,) k]: only the second component is an element. *)
Definition foldMapPair {K A : Type} (f : A -> M) (p : K * A) : M :=
  match p with
  | (_, x) => f x
  end.
End PreludeFolds.

Definition fmapPair {K A B : Type} (f : A -> B) (p : K * A) : K * B :=
  match p with
  | (k, x) => (k, f x)
  end.

Definition fmapMaybe {A B : Type} (f : A -> B) (o : option A) : option B :=
  match o with
  | None => None
  | Some x => Some (f x)
  end.

(** [Data.List.NonEmpty]: a head and a tail. *)
Record NonEmpty (A : Type) : Type := NECons {
  neHead : A;
  neTail : list A
}.

Definition fmapNonEmpty {A B : Type} (f : A -> B) (ne : NonEmpty A) : NonEmpty B :=
  NECons (f (neHead ne)) (List.map f (neTail ne)).

Definition foldMapNonEmpty {M : Type} `{Monoid M} {A : Type}
    (f : A -> M) (ne : NonEmpty A) : M :=
  f (neHead ne) <+> foldMapList f (neTail ne).

Definition neToList {A : Type} (ne : NonEmpty A) : list A :=
  neHead ne :: neTail ne.

(** [Text] and the newtypes over it. *)
Definition Text : Type := string.

(** [Data.HashMap.Strict.HashMap Text]: a finite map; its [Foldable]
    instance enumerates the values in the map's internal key order. *)
Abbreviation HashMapText := (gmap string).

Definition foldMapHashMap {M : Type} `{Monoid M} {A : Type}
    (f : A -> M) (m : HashMapText A) : M :=
  foldMapList f (snd <$> map_to_list m).

(** ** Imported functors

    The IR module imports several type constructors from modules that are
    not part of the sources at hand ([Hasura.RQL.IR.BoolExp],
    [Hasura.RQL.IR.OrderBy], [Hasura.NativeQuery.IR]); the module uses them
    only through their [Functor] and [Foldable] instances.  Such a
    constructor is taken as a parameter: a type constructor with its
    [fmap] and the enumeration [toList] of its elements, [foldMap] being
    [foldMap f = foldMap f . toList] as for every lawful [Foldable]. *)

Class Container (F : Type -> Type) := {
  cmap : forall {A B : Type}, (A -> B) -> F A -> F B;
  toList : forall {A : Type}, F A -> list A
}.

Definition foldMapC {F : Type -> Type} `{Container F} {M : Type} `{Monoid M}
    {A : Type} (f : A -> M) (t : F A) : M :=
  foldMapList f (toList t).

(** The functor laws of an imported constructor, stated up to pointwise
    equality of the mapped functions. *)
Class ContainerLaws (F : Type -> Type) `{Container F} : Prop := {
  cmap_id : forall (A : Type) (h : A -> A) (t : F A),
    (forall x, h x = x) -> cmap h t = t;
  cmap_comp : forall (A B C : Type) (f : A -> B) (g : B -> C) (h : A -> C) (t : F A),
    (forall x, h x = g (f x)) -> cmap g (cmap f t) = cmap h t
}.
Arguments ContainerLaws F {_}.

(** ** The [Backend] class and the imported IR types *)

(** The type families of [class Backend (b :: BackendType)] that the select
    IR mentions.  [Column b] is hashable (it keys the column mapping of a
    relationship); [FunctionArgumentExp b] is a functor and foldable. *)
Class Backend : Type := {
  TableName : Type;
  FunctionName : Type;
  Column : Type;
  ScalarType : Type;
  CountType : Type;
  XComputedField : Type;
  XRelay : Type;
  XNodesAgg : Type;
  XStreamingSubscription : Type;
  ScalarSelectionArguments : Type;
  FunctionArgumentExp : Type -> Type;
  Column_eq_dec :: EqDecision Column;
  Column_countable :: Countable Column;
  FunctionArgumentExp_container :: Container FunctionArgumentExp
}.

(** The types the module imports from the rest of the IR.  [AnnBoolExp b v]
    is [GBoolExp b (AnnBoolExpFld b v)] and [AnnColumnCaseBoolExp b v] is
    [GBoolExp b (AnnColumnCaseBoolExpField b v)]: the source folds them with
    [foldMap (foldMap g)]. *)
Class Imports (b : Backend) : Type := {
  FieldName : Type;
  FieldName_eq_dec :: EqDecision FieldName;
  FieldName_countable :: Countable FieldName;
  RelName : Type;
  ComputedFieldName : Type;
  SourceName : Type;
  JsonAggSelect : Type;
  StringifyNumbers : Type;
  NamingCase : Type;
  CursorOrdering : Type;
  ColumnType : Type;
  ColumnInfo : Type;
  ColumnValue : Type;
  RelInfo : Type;
  PrimaryKeyColumns : Type;
  DBJoinField : Type;
  GBoolExp : Type -> Type;
  AnnBoolExpFld : Type -> Type;
  AnnColumnCaseBoolExpField : Type -> Type;
  OrderByItemG : Type -> Type;
  NativeQuery : Type -> Type;
  GBoolExp_container :: Container GBoolExp;
  AnnBoolExpFld_container :: Container AnnBoolExpFld;
  AnnColumnCaseBoolExpField_container :: Container AnnColumnCaseBoolExpField;
  OrderByItemG_container :: Container OrderByItemG;
  NativeQuery_container :: Container NativeQuery;
  (** [annBoolExpTrue]: the always-true boolean expression. *)
  annBoolExpTrue : forall v : Type, GBoolExp (AnnBoolExpFld v)
}.
Arguments annBoolExpTrue {b _ v}.

(** The functor laws of every imported constructor. *)
Class LawfulImports (b : Backend) (ir : Imports b) : Prop := {
  FunctionArgumentExp_laws :: ContainerLaws FunctionArgumentExp;
  GBoolExp_laws :: ContainerLaws GBoolExp;
  AnnBoolExpFld_laws :: ContainerLaws AnnBoolExpFld;
  AnnColumnCaseBoolExpField_laws :: ContainerLaws AnnColumnCaseBoolExpField;
  OrderByItemG_laws :: ContainerLaws OrderByItemG;
  NativeQuery_laws :: ContainerLaws NativeQuery
}.

(** Modelled from the spec: [Fields] (declared in [Hasura.RQL.Types.Common],
    which is not among the sources at hand) is the mapping from output field
    names to fields, kept as the list of its entries in iteration order; the
    source folds it with two nested [foldMap]s, one over the entries and one
    over the pair that an entry is. *)
Definition Fields {b : Backend} {ir : Imports b} (a : Type) : Type :=
  list (FieldName * a).

Definition fmapFields {b : Backend} {ir : Imports b} {A B : Type}
    (f : A -> B) (l : Fields A) : Fields B :=
  List.map (fmapPair f) l.

Definition foldMapFields {b : Backend} {ir : Imports b} {M : Type} `{Monoid M}
    {A : Type} (f : A -> M) (l : Fields A) : M :=
  foldMapList (foldMapPair f) l.

(** ** Boolean expressions, function arguments *)

Section Leaves.
Context {b : Backend} {ir : Imports b}.

Definition AnnBoolExp (v : Type) : Type := GBoolExp (AnnBoolExpFld v).

Definition AnnColumnCaseBoolExp (v : Type) : Type :=
  GBoolExp (AnnColumnCaseBoolExpField v).

Definition fmapAnnBoolExp {v w : Type} (g : v -> w) (e : AnnBoolExp v) : AnnBoolExp w :=
  cmap (F:=GBoolExp) (cmap (F:=AnnBoolExpFld) g) e.

Definition fmapAnnColumnCaseBoolExp {v w : Type} (g : v -> w)
    (e : AnnColumnCaseBoolExp v) : AnnColumnCaseBoolExp w :=
  cmap (F:=GBoolExp) (cmap (F:=AnnColumnCaseBoolExpField) g) e.

(** [data FunctionArgsExpG a = FunctionArgsExp [a] (HashMap Text a)]: the
    declaration is imported; its shape is the one [insertFunctionArg] takes
    apart and rebuilds, and its [Functor] and [Foldable] instances are taken
    to be the derived ones. *)
Record FunctionArgsExpG (a : Type) : Type := FunctionArgsExp {
  _faePositional : list a;
  _faeNamed : HashMapText a
}.

Definition fmapFunctionArgsExpG {A B : Type} (f : A -> B)
    (e : FunctionArgsExpG A) : FunctionArgsExpG B :=
  FunctionArgsExp (List.map f (_faePositional e)) (f <$> _faeNamed e).

(** [type FunctionArgsExp b v = FunctionArgsExpG (FunctionArgumentExp b v)];
    the synonym is renamed, its name being the constructor's. *)
Definition FunctionArgsExpOf (v : Type) : Type :=
  FunctionArgsExpG (FunctionArgumentExp v).

Definition fmapFunctionArgsExp {v w : Type} (g : v -> w)
    (e : FunctionArgsExpOf v) : FunctionArgsExpOf w :=
  fmapFunctionArgsExpG (cmap (F:=FunctionArgumentExp) g) e.

Section LeafFolds.
Context {M : Type} `{Monoid M}.

Definition foldMapAnnBoolExp {v : Type} (g : v -> M) (e : AnnBoolExp v) : M :=
  foldMapC (F:=GBoolExp) (foldMapC (F:=AnnBoolExpFld) g) e.

Definition foldMapAnnColumnCaseBoolExp {v : Type} (g : v -> M)
    (e : AnnColumnCaseBoolExp v) : M :=
  foldMapC (F:=GBoolExp) (foldMapC (F:=AnnColumnCaseBoolExpField) g) e.

Definition foldMapFunctionArgsExpG {A : Type} (f : A -> M)
    (e : FunctionArgsExpG A) : M :=
  foldMapList f (_faePositional e) <+> foldMapHashMap f (_faeNamed e).

Definition foldMapFunctionArgsExp {v : Type} (g : v -> M)
    (e : FunctionArgsExpOf v) : M :=
  foldMapFunctionArgsExpG (foldMapC (F:=FunctionArgumentExp) g) e.
End LeafFolds.
End Leaves.

(** ** Order by, permissions, from-clauses and arguments *)

Section Clauses.
Context {b : Backend} {ir : Imports b}.

Inductive AnnotatedAggregateOrderBy : Type :=
| AAOCount
| AAOOp (op : Text) (ty : ColumnType) (col : ColumnInfo).

Inductive ComputedFieldOrderByElement (v : Type) : Type :=
| CFOBEScalar (ty : ScalarType)
| CFOBETableAggregation (tbl : TableName) (perm : AnnBoolExp v)
    (agg : AnnotatedAggregateOrderBy).
Arguments CFOBEScalar {v}.

Record ComputedFieldOrderBy (v : Type) : Type := mkComputedFieldOrderBy {
  _cfobXField : XComputedField;
  _cfobName : ComputedFieldName;
  _cfobFunction : FunctionName;
  _cfobFunctionArgsExp : FunctionArgsExpOf v;
  _cfobOrderByElement : ComputedFieldOrderByElement v
}.

Inductive AnnotatedOrderByElement (v : Type) : Type :=
| AOCColumn (col : ColumnInfo)
| AOCObjectRelation (rel : RelInfo) (perm : AnnBoolExp v)
    (el : AnnotatedOrderByElement v)
| AOCArrayAggregation (rel : RelInfo) (perm : AnnBoolExp v)
    (agg : AnnotatedAggregateOrderBy)
| AOCComputedField (cf : ComputedFieldOrderBy v).
Arguments AOCColumn {v}.

Definition AnnotatedOrderByItemG (v : Type) : Type :=
  OrderByItemG (AnnotatedOrderByElement v).

Record StreamCursorItem : Type := mkStreamCursorItem {
  _sciOrdering : CursorOrdering;
  _sciColInfo : ColumnInfo;
  _sciInitialValue : ColumnValue
}.

Record TablePermG (v : Type) : Type := TablePerm {
  _tpFilter : AnnBoolExp v;
  _tpLimit : option Z
}.

Record FIIdentifier : Type := mkFIIdentifier { unFIIdentifier : Text }.

Inductive SelectFromG (v : Type) : Type :=
| FromTable (tbl : TableName)
| FromIdentifier (ident : FIIdentifier)
| FromFunction (fn : FunctionName) (args : FunctionArgsExpOf v)
    (defs : option (list (Column * ScalarType)))
| FromNativeQuery (nq : NativeQuery v).
Arguments FromTable {v}.
Arguments FromIdentifier {v}.

Record SelectStreamArgsG (v : Type) : Type := mkSelectStreamArgsG {
  _ssaWhere : option (AnnBoolExp v);
  _ssaBatchSize : Z;
  _ssaCursorArg : StreamCursorItem
}.

Record SelectArgsG (v : Type) : Type := SelectArgs {
  _saWhere : option (AnnBoolExp v);
  _saOrderBy : option (NonEmpty (AnnotatedOrderByItemG v));
  _saLimit : option Z;
  _saOffset : option Z;
  _saDistinct : option (NonEmpty Column)
}.

Definition noSelectArgs {v : Type} : SelectArgsG v :=
  SelectArgs None None None None None.

Inductive ConnectionSplitKind : Type := CSKBefore | CSKAfter.

Inductive ConnectionSlice : Type :=
| SliceFirst (n : Z)
| SliceLast (n : Z).

Record ConnectionSplit (v : Type) : Type := mkConnectionSplit {
  _csKind : ConnectionSplitKind;
  _csValue : v;
  _csOrderBy : OrderByItemG (AnnotatedOrderByElement v)
}.

(** *** The derived [Functor] instances *)

Definition fmapComputedFieldOrderByElement {v w : Type} (g : v -> w)
    (e : ComputedFieldOrderByElement v) : ComputedFieldOrderByElement w :=
  match e with
  | CFOBEScalar ty => CFOBEScalar ty
  | CFOBETableAggregation tbl perm agg =>
      CFOBETableAggregation tbl (fmapAnnBoolExp g perm) agg
  end.

Definition fmapComputedFieldOrderBy {v w : Type} (g : v -> w)
    (c : ComputedFieldOrderBy v) : ComputedFieldOrderBy w :=
  mkComputedFieldOrderBy (_cfobXField c) (_cfobName c) (_cfobFunction c)
    (fmapFunctionArgsExp g (_cfobFunctionArgsExp c))
    (fmapComputedFieldOrderByElement g (_cfobOrderByElement c)).

Fixpoint fmapAnnotatedOrderByElement {v w : Type} (g : v -> w)
    (e : AnnotatedOrderByElement v) : AnnotatedOrderByElement w :=
  match e with
  | AOCColumn col => AOCColumn col
  | AOCObjectRelation rel perm el =>
      AOCObjectRelation rel (fmapAnnBoolExp g perm)
        (fmapAnnotatedOrderByElement g el)
  | AOCArrayAggregation rel perm agg =>
      AOCArrayAggregation rel (fmapAnnBoolExp g perm) agg
  | AOCComputedField cf => AOCComputedField (fmapComputedFieldOrderBy g cf)
  end.

Definition fmapAnnotatedOrderByItemG {v w : Type} (g : v -> w)
    (i : AnnotatedOrderByItemG v) : AnnotatedOrderByItemG w :=
  cmap (F:=OrderByItemG) (fmapAnnotatedOrderByElement g) i.

Definition fmapTablePermG {v w : Type} (g : v -> w) (p : TablePermG v) : TablePermG w :=
  TablePerm (fmapAnnBoolExp g (_tpFilter p)) (_tpLimit p).

Definition fmapSelectFromG {v w : Type} (g : v -> w) (s : SelectFromG v) : SelectFromG w :=
  match s with
  | FromTable tbl => FromTable tbl
  | FromIdentifier ident => FromIdentifier ident
  | FromFunction fn args defs => FromFunction fn (fmapFunctionArgsExp g args) defs
  | FromNativeQuery nq => FromNativeQuery (cmap (F:=NativeQuery) g nq)
  end.

Definition fmapSelectStreamArgsG {v w : Type} (g : v -> w)
    (a : SelectStreamArgsG v) : SelectStreamArgsG w :=
  mkSelectStreamArgsG (fmapMaybe (fmapAnnBoolExp g) (_ssaWhere a))
    (_ssaBatchSize a) (_ssaCursorArg a).

Definition fmapSelectArgsG {v w : Type} (g : v -> w) (a : SelectArgsG v) : SelectArgsG w :=
  SelectArgs (fmapMaybe (fmapAnnBoolExp g) (_saWhere a))
    (fmapMaybe (fmapNonEmpty (fmapAnnotatedOrderByItemG g)) (_saOrderBy a))
    (_saLimit a) (_saOffset a) (_saDistinct a).

Definition fmapConnectionSplit {v w : Type} (g : v -> w)
    (s : ConnectionSplit v) : ConnectionSplit w :=
  mkConnectionSplit (_csKind s) (g (_csValue s))
    (fmapAnnotatedOrderByItemG g (_csOrderBy s)).

(** *** The derived [Foldable] instances *)

Section ClauseFolds.
Context {M : Type} `{Monoid M}.

Definition foldMapComputedFieldOrderByElement {v : Type} (g : v -> M)
    (e : ComputedFieldOrderByElement v) : M :=
  match e with
  | CFOBEScalar _ => mempty
  | CFOBETableAggregation _ perm _ => foldMapAnnBoolExp g perm
  end.

Definition foldMapComputedFieldOrderBy {v : Type} (g : v -> M)
    (c : ComputedFieldOrderBy v) : M :=
  foldMapFunctionArgsExp g (_cfobFunctionArgsExp c)
    <+> foldMapComputedFieldOrderByElement g (_cfobOrderByElement c).

Fixpoint foldMapAnnotatedOrderByElement {v : Type} (g : v -> M)
    (e : AnnotatedOrderByElement v) : M :=
  match e with
  | AOCColumn _ => mempty
  | AOCObjectRelation _ perm el =>
      foldMapAnnBoolExp g perm <+> foldMapAnnotatedOrderByElement g el
  | AOCArrayAggregation _ perm _ => foldMapAnnBoolExp g perm
  | AOCComputedField cf => foldMapComputedFieldOrderBy g cf
  end.

Definition foldMapAnnotatedOrderByItemG {v : Type} (g : v -> M)
    (i : AnnotatedOrderByItemG v) : M :=
  foldMapC (F:=OrderByItemG) (foldMapAnnotatedOrderByElement g) i.

Definition foldMapTablePermG {v : Type} (g : v -> M) (p : TablePermG v) : M :=
  foldMapAnnBoolExp g (_tpFilter p).

Definition foldMapSelectFromG {v : Type} (g : v -> M) (s : SelectFromG v) : M :=
  match s with
  | FromTable _ => mempty
  | FromIdentifier _ => mempty
  | FromFunction _ args _ => foldMapFunctionArgsExp g args
  | FromNativeQuery nq => foldMapC (F:=NativeQuery) g nq
  end.

Definition foldMapSelectStreamArgsG {v : Type} (g : v -> M)
    (a : SelectStreamArgsG v) : M :=
  foldMapMaybe (foldMapAnnBoolExp g) (_ssaWhere a).

Definition foldMapSelectArgsG {v : Type} (g : v -> M) (a : SelectArgsG v) : M :=
  foldMapMaybe (foldMapAnnBoolExp g) (_saWhere a)
    <+> foldMapMaybe (foldMapNonEmpty (foldMapAnnotatedOrderByItemG g)) (_saOrderBy a).

Definition foldMapConnectionSplit {v : Type} (g : v -> M)
    (s : ConnectionSplit v) : M :=
  g (_csValue s) <+> foldMapAnnotatedOrderByItemG g (_csOrderBy s).
End ClauseFolds.

(** [noTablePermissions = TablePerm annBoolExpTrue Nothing] *)
Definition noTablePermissions {v : Type} : TablePermG v :=
  TablePerm annBoolExpTrue None.
End Clauses.
Arguments CFOBEScalar {b ir v}.
Arguments AOCColumn {b ir v}.
Arguments FromTable {b ir v}.
Arguments FromIdentifier {b ir v}.

(** ** Selects, relationships and fields *)

Section Selects.
Context {b : Backend} {ir : Imports b}.

(** [AnnSelectG b f v]; [fld] stands for [f v]. *)
Record AnnSelectG (fld v : Type) : Type := mkAnnSelectG {
  _asnFields : Fields fld;
  _asnFrom : SelectFromG v;
  _asnPerm : TablePermG v;
  _asnArgs : SelectArgsG v;
  _asnStrfyNum : StringifyNumbers;
  _asnNamingConvention : option NamingCase
}.

(** IR type representing nodes for streaming subscriptions. *)
Record AnnSelectStreamG (fld v : Type) : Type := mkAnnSelectStreamG {
  _assnXStreamingSubscription : XStreamingSubscription;
  _assnFields : Fields fld;
  _assnFrom : SelectFromG v;
  _assnPerm : TablePermG v;
  _assnArgs : SelectStreamArgsG v;
  _assnStrfyNum : StringifyNumbers
}.

(** Captures a remote relationship's selection and the necessary context. *)
Record RemoteRelationshipSelect (r : Type) : Type := mkRemoteRelationshipSelect {
  _rrsLHSJoinFields : gmap FieldName DBJoinField;
  _rrsRelationship : r
}.

Record AnnColumnField (v : Type) : Type := BuildAnnColumnField {
  _acfColumn : Column;
  _acfType : ColumnType;
  _acfAsText : bool;
  _acfArguments : option ScalarSelectionArguments;
  _acfCaseBoolExpression : option (AnnColumnCaseBoolExp v)
}.

Record ComputedFieldScalarSelect (v : Type) : Type := mkComputedFieldScalarSelect {
  _cfssFunction : FunctionName;
  _cfssArguments : FunctionArgsExpOf v;
  _cfssType : ScalarType;
  _cfssScalarArguments : option ScalarSelectionArguments
}.

Record AnnRelationSelectG (a : Type) : Type := mkAnnRelationSelectG {
  _aarRelationshipName : RelName;
  _aarColumnMapping : gmap Column Column;
  _aarAnnSelect : a
}.

Inductive ColFld : Type :=
| CFCol (col : Column) (ty : ColumnType)
| CFExp (t : Text).

Definition ColumnFields : Type := Fields ColFld.

Record AggregateOp : Type := mkAggregateOp {
  _aoOp : Text;
  _aoFields : ColumnFields
}.

Inductive AggregateField : Type :=
| AFCount (c : CountType)
| AFOp (op : AggregateOp)
| AFExp (t : Text).

Definition AggregateFields : Type := Fields AggregateField.

Inductive PageInfoField : Type :=
| PageInfoTypename (t : Text)
| PageInfoHasNextPage
| PageInfoHasPreviousPage
| PageInfoStartCursor
| PageInfoEndCursor.

Definition PageInfoFields : Type := Fields PageInfoField.

(** The tree of fields.  The eight types are mutually recursive through
    [Fields], [AnnSelectG] and [AnnRelationSelectG]. *)
Inductive AnnFieldG (r v : Type) : Type :=
| AFColumn (col : AnnColumnField v)
| AFObjectRelation (objRel : AnnRelationSelectG (AnnObjectSelectG r v))
| AFArrayRelation (arrRel : ArraySelectG r v)
| AFComputedField (x : XComputedField) (name : ComputedFieldName)
    (cf : ComputedFieldSelect r v)
| AFRemote (rs : RemoteRelationshipSelect r)
| AFNodeId (x : XRelay) (src : SourceName) (tbl : TableName)
    (pk : PrimaryKeyColumns)
| AFExpression (t : Text)

with AnnObjectSelectG (r v : Type) : Type :=
| mkAnnObjectSelectG (_aosFields : Fields (AnnFieldG r v))
    (_aosTableFrom : TableName) (_aosTableFilter : AnnBoolExp v)

with ArraySelectG (r v : Type) : Type :=
| ASSimple (s : AnnRelationSelectG (AnnSelectG (AnnFieldG r v) v))
| ASAggregate (s : AnnRelationSelectG (AnnSelectG (TableAggregateFieldG r v) v))
| ASConnection (s : AnnRelationSelectG (ConnectionSelect r v))

with ComputedFieldSelect (r v : Type) : Type :=
| CFSScalar (sel : ComputedFieldScalarSelect v)
    (caseBoolExp : option (AnnColumnCaseBoolExp v))
| CFSTable (agg : JsonAggSelect) (sel : AnnSelectG (AnnFieldG r v) v)

with TableAggregateFieldG (r v : Type) : Type :=
| TAFAgg (aggs : AggregateFields)
| TAFNodes (x : XNodesAgg) (fields : Fields (AnnFieldG r v))
| TAFExp (t : Text)

with ConnectionSelect (r v : Type) : Type :=
| mkConnectionSelect (_csXRelay : XRelay)
    (_csPrimaryKeyColumns : PrimaryKeyColumns)
    (_csSplit : option (NonEmpty (ConnectionSplit v)))
    (_csSlice : option ConnectionSlice)
    (_csSelect : AnnSelectG (ConnectionField r v) v)

with ConnectionField (r v : Type) : Type :=
| ConnectionTypename (t : Text)
| ConnectionPageInfo (fields : PageInfoFields)
| ConnectionEdges (edges : Fields (EdgeField r v))

with EdgeField (r v : Type) : Type :=
| EdgeTypename (t : Text)
| EdgeCursor
| EdgeNode (fields : Fields (AnnFieldG r v)).
End Selects.
Arguments AFColumn {b ir r v}.
Arguments AFObjectRelation {b ir r v}.
Arguments AFArrayRelation {b ir r v}.
Arguments AFComputedField {b ir r v}.
Arguments AFRemote {b ir r v}.
Arguments AFNodeId {b ir r v}.
Arguments AFExpression {b ir r v}.
Arguments mkAnnObjectSelectG {b ir r v}.
Arguments ASSimple {b ir r v}.
Arguments ASAggregate {b ir r v}.
Arguments ASConnection {b ir r v}.
Arguments CFSScalar {b ir r v}.
Arguments CFSTable {b ir r v}.
Arguments TAFAgg {b ir r v}.
Arguments TAFNodes {b ir r v}.
Arguments TAFExp {b ir r v}.
Arguments mkConnectionSelect {b ir r v}.
Arguments ConnectionTypename {b ir r v}.
Arguments ConnectionPageInfo {b ir r v}.
Arguments ConnectionEdges {b ir r v}.
Arguments EdgeTypename {b ir r v}.
Arguments EdgeCursor {b ir r v}.
Arguments EdgeNode {b ir r v}.

Section Synonyms.
Context {b : Backend} {ir : Imports b}.

Definition AnnFieldsG (r v : Type) : Type := Fields (AnnFieldG r v).
Definition TableAggregateFieldsG (r v : Type) : Type :=
  Fields (TableAggregateFieldG r v).
Definition ConnectionFields (r v : Type) : Type := Fields (ConnectionField r v).
Definition EdgeFields (r v : Type) : Type := Fields (EdgeField r v).

Definition AnnSimpleSelectG (r v : Type) : Type := AnnSelectG (AnnFieldG r v) v.
Definition AnnAggregateSelectG (r v : Type) : Type :=
  AnnSelectG (TableAggregateFieldG r v) v.
Definition AnnSimpleStreamSelectG (r v : Type) : Type :=
  AnnSelectStreamG (AnnFieldG r v) v.

Definition ObjectRelationSelectG (r v : Type) : Type :=
  AnnRelationSelectG (AnnObjectSelectG r v).
Definition ArrayRelationSelectG (r v : Type) : Type :=
  AnnRelationSelectG (AnnSimpleSelectG r v).
Definition ArrayAggregateSelectG (r v : Type) : Type :=
  AnnRelationSelectG (AnnAggregateSelectG r v).
Definition ArrayConnectionSelect (r v : Type) : Type :=
  AnnRelationSelectG (ConnectionSelect r v).

(** The record fields of [AnnObjectSelectG] and [ConnectionSelect]. *)
Definition _aosFields {r v : Type} (s : AnnObjectSelectG r v) : AnnFieldsG r v :=
  match s with mkAnnObjectSelectG fields _ _ => fields end.
Definition _aosTableFrom {r v : Type} (s : AnnObjectSelectG r v) : TableName :=
  match s with mkAnnObjectSelectG _ from _ => from end.
Definition _aosTableFilter {r v : Type} (s : AnnObjectSelectG r v) : AnnBoolExp v :=
  match s with mkAnnObjectSelectG _ _ filter => filter end.

Definition _csXRelay {r v : Type} (s : ConnectionSelect r v) : XRelay :=
  match s with mkConnectionSelect x _ _ _ _ => x end.
Definition _csPrimaryKeyColumns {r v : Type} (s : ConnectionSelect r v)
    : PrimaryKeyColumns :=
  match s with mkConnectionSelect _ pk _ _ _ => pk end.
Definition _csSplit {r v : Type} (s : ConnectionSelect r v)
    : option (NonEmpty (ConnectionSplit v)) :=
  match s with mkConnectionSelect _ _ split _ _ => split end.
Definition _csSlice {r v : Type} (s : ConnectionSelect r v) : option ConnectionSlice :=
  match s with mkConnectionSelect _ _ _ slice _ => slice end.
Definition _csSelect {r v : Type} (s : ConnectionSelect r v)
    : AnnSelectG (ConnectionField r v) v :=
  match s with mkConnectionSelect _ _ _ _ sel => sel end.

(** Root selection. *)
Inductive QueryDB (r v : Type) : Type :=
| QDBMultipleRows (annSel : AnnSimpleSelectG r v)
| QDBSingleRow (annSel : AnnSimpleSelectG r v)
| QDBAggregation (annSel : AnnAggregateSelectG r v)
| QDBConnection (connSel : ConnectionSelect r v)
| QDBStreamMultipleRows (annSel : AnnSimpleStreamSelectG r v).

Definition mkAnnColumnField {r v : Type} (col : Column) (typ : ColumnType)
    (caseBoolExp : option (AnnColumnCaseBoolExp v))
    (colOpM : option ScalarSelectionArguments) : AnnFieldG r v :=
  AFColumn (BuildAnnColumnField col typ false colOpM caseBoolExp).
End Synonyms.
Arguments QDBMultipleRows {b ir r v}.
Arguments QDBSingleRow {b ir r v}.
Arguments QDBAggregation {b ir r v}.
Arguments QDBConnection {b ir r v}.
Arguments QDBStreamMultipleRows {b ir r v}.

(** ** The derived [Functor] instances of the field tree *)

Section FieldFunctor.
Context {b : Backend} {ir : Imports b}.

Definition fmapAnnSelectG {fld fld' v w : Type} (ff : fld -> fld') (g : v -> w)
    (s : AnnSelectG fld v) : AnnSelectG fld' w :=
  mkAnnSelectG (fmapFields ff (_asnFields s))
    (fmapSelectFromG g (_asnFrom s))
    (fmapTablePermG g (_asnPerm s))
    (fmapSelectArgsG g (_asnArgs s))
    (_asnStrfyNum s) (_asnNamingConvention s).

Definition fmapAnnSelectStreamG {fld fld' v w : Type} (ff : fld -> fld')
    (g : v -> w) (s : AnnSelectStreamG fld v) : AnnSelectStreamG fld' w :=
  mkAnnSelectStreamG (_assnXStreamingSubscription s)
    (fmapFields ff (_assnFields s))
    (fmapSelectFromG g (_assnFrom s))
    (fmapTablePermG g (_assnPerm s))
    (fmapSelectStreamArgsG g (_assnArgs s))
    (_assnStrfyNum s).

Definition fmapAnnRelationSelectG {A B : Type} (f : A -> B)
    (s : AnnRelationSelectG A) : AnnRelationSelectG B :=
  mkAnnRelationSelectG (_aarRelationshipName s) (_aarColumnMapping s)
    (f (_aarAnnSelect s)).

Definition fmapAnnColumnField {v w : Type} (g : v -> w)
    (c : AnnColumnField v) : AnnColumnField w :=
  BuildAnnColumnField (_acfColumn c) (_acfType c) (_acfAsText c) (_acfArguments c)
    (fmapMaybe (fmapAnnColumnCaseBoolExp g) (_acfCaseBoolExpression c)).

Definition fmapComputedFieldScalarSelect {v w : Type} (g : v -> w)
    (c : ComputedFieldScalarSelect v) : ComputedFieldScalarSelect w :=
  mkComputedFieldScalarSelect (_cfssFunction c)
    (fmapFunctionArgsExp g (_cfssArguments c))
    (_cfssType c) (_cfssScalarArguments c).

Section Tree.
Context {r v w : Type} (g : v -> w).

Fixpoint fmapAnnFieldG (fld : AnnFieldG r v) : AnnFieldG r w :=
  match fld with
  | AFColumn col => AFColumn (fmapAnnColumnField g col)
  | AFObjectRelation objRel =>
      AFObjectRelation (fmapAnnRelationSelectG fmapAnnObjectSelectG objRel)
  | AFArrayRelation arrRel => AFArrayRelation (fmapArraySelectG arrRel)
  | AFComputedField x name cf =>
      AFComputedField x name (fmapComputedFieldSelect cf)
  | AFRemote rs => AFRemote rs
  | AFNodeId x src tbl pk => AFNodeId x src tbl pk
  | AFExpression t => AFExpression t
  end

with fmapAnnObjectSelectG (s : AnnObjectSelectG r v) : AnnObjectSelectG r w :=
  match s with
  | mkAnnObjectSelectG fields from filter =>
      mkAnnObjectSelectG (fmapFields fmapAnnFieldG fields) from
        (fmapAnnBoolExp g filter)
  end

with fmapArraySelectG (s : ArraySelectG r v) : ArraySelectG r w :=
  match s with
  | ASSimple sel =>
      ASSimple (fmapAnnRelationSelectG (fmapAnnSelectG fmapAnnFieldG g) sel)
  | ASAggregate sel =>
      ASAggregate
        (fmapAnnRelationSelectG (fmapAnnSelectG fmapTableAggregateFieldG g) sel)
  | ASConnection sel =>
      ASConnection (fmapAnnRelationSelectG fmapConnectionSelect sel)
  end

with fmapComputedFieldSelect (s : ComputedFieldSelect r v)
    : ComputedFieldSelect r w :=
  match s with
  | CFSScalar sel caseBoolExp =>
      CFSScalar (fmapComputedFieldScalarSelect g sel)
        (fmapMaybe (fmapAnnColumnCaseBoolExp g) caseBoolExp)
  | CFSTable agg sel => CFSTable agg (fmapAnnSelectG fmapAnnFieldG g sel)
  end

with fmapTableAggregateFieldG (s : TableAggregateFieldG r v)
    : TableAggregateFieldG r w :=
  match s with
  | TAFAgg aggs => TAFAgg aggs
  | TAFNodes x fields => TAFNodes x (fmapFields fmapAnnFieldG fields)
  | TAFExp t => TAFExp t
  end

with fmapConnectionSelect (s : ConnectionSelect r v) : ConnectionSelect r w :=
  match s with
  | mkConnectionSelect x pk split slice sel =>
      mkConnectionSelect x pk
        (fmapMaybe (fmapNonEmpty (fmapConnectionSplit g)) split) slice
        (fmapAnnSelectG fmapConnectionField g sel)
  end

with fmapConnectionField (s : ConnectionField r v) : ConnectionField r w :=
  match s with
  | ConnectionTypename t => ConnectionTypename t
  | ConnectionPageInfo fields => ConnectionPageInfo fields
  | ConnectionEdges edges => ConnectionEdges (fmapFields fmapEdgeField edges)
  end

with fmapEdgeField (s : EdgeField r v) : EdgeField r w :=
  match s with
  | EdgeTypename t => EdgeTypename t
  | EdgeCursor => EdgeCursor
  | EdgeNode fields => EdgeNode (fmapFields fmapAnnFieldG fields)
  end.

Definition fmapQueryDB (q : QueryDB r v) : QueryDB r w :=
  match q with
  | QDBMultipleRows annSel =>
      QDBMultipleRows (fmapAnnSelectG fmapAnnFieldG g annSel)
  | QDBSingleRow annSel => QDBSingleRow (fmapAnnSelectG fmapAnnFieldG g annSel)
  | QDBAggregation annSel =>
      QDBAggregation (fmapAnnSelectG fmapTableAggregateFieldG g annSel)
  | QDBConnection connSel => QDBConnection (fmapConnectionSelect connSel)
  | QDBStreamMultipleRows annSel =>
      QDBStreamMultipleRows (fmapAnnSelectStreamG fmapAnnFieldG g annSel)
  end.
End Tree.
End FieldFunctor.

(** ** The derived [Foldable] instances of the field tree *)

Section FieldFoldable.
Context {b : Backend} {ir : Imports b} {M : Type} `{Monoid M}.

Definition foldMapAnnSelectG {fld v : Type} (ff : fld -> M) (g : v -> M)
    (s : AnnSelectG fld v) : M :=
  foldMapFields ff (_asnFields s)
    <+> foldMapSelectFromG g (_asnFrom s)
    <+> foldMapTablePermG g (_asnPerm s)
    <+> foldMapSelectArgsG g (_asnArgs s).

Definition foldMapAnnSelectStreamG {fld v : Type} (ff : fld -> M) (g : v -> M)
    (s : AnnSelectStreamG fld v) : M :=
  foldMapFields ff (_assnFields s)
    <+> foldMapSelectFromG g (_assnFrom s)
    <+> foldMapTablePermG g (_assnPerm s)
    <+> foldMapSelectStreamArgsG g (_assnArgs s).

Definition foldMapAnnRelationSelectG {A : Type} (f : A -> M)
    (s : AnnRelationSelectG A) : M :=
  f (_aarAnnSelect s).

Definition foldMapRemoteRelationshipSelect {r : Type} (f : r -> M)
    (s : RemoteRelationshipSelect r) : M :=
  f (_rrsRelationship s).

Definition foldMapAnnColumnField {v : Type} (g : v -> M) (c : AnnColumnField v) : M :=
  foldMapMaybe (foldMapAnnColumnCaseBoolExp g) (_acfCaseBoolExpression c).

Definition foldMapComputedFieldScalarSelect {v : Type} (g : v -> M)
    (c : ComputedFieldScalarSelect v) : M :=
  foldMapFunctionArgsExp g (_cfssArguments c).

Section Tree.
Context {r v : Type} (g : v -> M).

Fixpoint foldMapAnnFieldG (fld : AnnFieldG r v) : M :=
  match fld with
  | AFColumn col => foldMapAnnColumnField g col
  | AFObjectRelation objRel =>
      foldMapAnnRelationSelectG foldMapAnnObjectSelectG objRel
  | AFArrayRelation arrRel => foldMapArraySelectG arrRel
  | AFComputedField _ _ cf => foldMapComputedFieldSelect cf
  | AFRemote _ => mempty
  | AFNodeId _ _ _ _ => mempty
  | AFExpression _ => mempty
  end

with foldMapAnnObjectSelectG (s : AnnObjectSelectG r v) : M :=
  match s with
  | mkAnnObjectSelectG fields _ filter =>
      foldMapFields foldMapAnnFieldG fields <+> foldMapAnnBoolExp g filter
  end

with foldMapArraySelectG (s : ArraySelectG r v) : M :=
  match s with
  | ASSimple sel =>
      foldMapAnnRelationSelectG (foldMapAnnSelectG foldMapAnnFieldG g) sel
  | ASAggregate sel =>
      foldMapAnnRelationSelectG
        (foldMapAnnSelectG foldMapTableAggregateFieldG g) sel
  | ASConnection sel => foldMapAnnRelationSelectG foldMapConnectionSelect sel
  end

with foldMapComputedFieldSelect (s : ComputedFieldSelect r v) : M :=
  match s with
  | CFSScalar sel caseBoolExp =>
      foldMapComputedFieldScalarSelect g sel
        <+> foldMapMaybe (foldMapAnnColumnCaseBoolExp g) caseBoolExp
  | CFSTable _ sel => foldMapAnnSelectG foldMapAnnFieldG g sel
  end

with foldMapTableAggregateFieldG (s : TableAggregateFieldG r v) : M :=
  match s with
  | TAFAgg _ => mempty
  | TAFNodes _ fields => foldMapFields foldMapAnnFieldG fields
  | TAFExp _ => mempty
  end

with foldMapConnectionSelect (s : ConnectionSelect r v) : M :=
  match s with
  | mkConnectionSelect _ _ split _ sel =>
      foldMapMaybe (foldMapNonEmpty (foldMapConnectionSplit g)) split
        <+> foldMapAnnSelectG foldMapConnectionField g sel
  end

with foldMapConnectionField (s : ConnectionField r v) : M :=
  match s with
  | ConnectionTypename _ => mempty
  | ConnectionPageInfo _ => mempty
  | ConnectionEdges edges => foldMapFields foldMapEdgeField edges
  end

with foldMapEdgeField (s : EdgeField r v) : M :=
  match s with
  | EdgeTypename _ => mempty
  | EdgeCursor => mempty
  | EdgeNode fields => foldMapFields foldMapAnnFieldG fields
  end.

Definition foldMapQueryDB (q : QueryDB r v) : M :=
  match q with
  | QDBMultipleRows annSel => foldMapAnnSelectG foldMapAnnFieldG g annSel
  | QDBSingleRow annSel => foldMapAnnSelectG foldMapAnnFieldG g annSel
  | QDBAggregation annSel =>
      foldMapAnnSelectG foldMapTableAggregateFieldG g annSel
  | QDBConnection connSel => foldMapConnectionSelect connSel
  | QDBStreamMultipleRows annSel =>
      foldMapAnnSelectStreamG foldMapAnnFieldG g annSel
  end.
End Tree.
End FieldFoldable.

(** ** The hand-written [Bifoldable] instances *)

Section FieldBifoldable.
Context {b : Backend} {ir : Imports b} {M : Type} `{Monoid M}.

(** We can't write a Bifoldable instance for AnnSelectG because the types
    don't line up.  Instead, we provide this function which can be used to
    help define Bifoldable instances of other types containing AnnSelectG
    values.  [bifoldMapField] is the [bifoldMap] of the [Bifoldable (f b)]
    dictionary. *)
Definition bifoldMapAnnSelectG {fld r v : Type}
    (bifoldMapField : (r -> M) -> (v -> M) -> fld -> M)
    (f : r -> M) (g : v -> M) (s : AnnSelectG fld v) : M :=
  foldMapList (foldMapPair (bifoldMapField f g)) (_asnFields s)
    <+> foldMapSelectFromG g (_asnFrom s)
    <+> foldMapTablePermG g (_asnPerm s)
    <+> foldMapSelectArgsG g (_asnArgs s).

Definition bifoldMapAnnSelectStreamG {fld r v : Type}
    (bifoldMapField : (r -> M) -> (v -> M) -> fld -> M)
    (f : r -> M) (g : v -> M) (s : AnnSelectStreamG fld v) : M :=
  foldMapList (foldMapPair (bifoldMapField f g)) (_assnFields s)
    <+> foldMapSelectFromG g (_assnFrom s)
    <+> foldMapTablePermG g (_assnPerm s)
    <+> foldMapSelectStreamArgsG g (_assnArgs s).

Fixpoint bifoldMapAnnFieldG {r v : Type} (f : r -> M) (g : v -> M)
    (fld : AnnFieldG r v) : M :=
  match fld with
  | AFColumn col => foldMapAnnColumnField g col
  | AFObjectRelation objRel =>
      foldMapAnnRelationSelectG (bifoldMapAnnObjectSelectG f g) objRel
  | AFArrayRelation arrRel => bifoldMapArraySelectG f g arrRel
  | AFComputedField _ _ cf => bifoldMapComputedFieldSelect f g cf
  | AFRemote rs => foldMapRemoteRelationshipSelect f rs
  | AFNodeId _ _ _ _ => mempty
  | AFExpression _ => mempty
  end

with bifoldMapAnnObjectSelectG {r v : Type} (f : r -> M) (g : v -> M)
    (s : AnnObjectSelectG r v) : M :=
  match s with
  | mkAnnObjectSelectG fields _ filter =>
      foldMapList (foldMapPair (bifoldMapAnnFieldG f g)) fields
        <+> foldMapC (F:=GBoolExp) (foldMapC (F:=AnnBoolExpFld) g) filter
  end

with bifoldMapArraySelectG {r v : Type} (f : r -> M) (g : v -> M)
    (s : ArraySelectG r v) : M :=
  match s with
  | ASSimple arrayRelationSelect =>
      foldMapAnnRelationSelectG
        (bifoldMapAnnSelectG bifoldMapAnnFieldG f g) arrayRelationSelect
  | ASAggregate arrayAggregateSelect =>
      foldMapAnnRelationSelectG
        (bifoldMapAnnSelectG bifoldMapTableAggregateFieldG f g)
        arrayAggregateSelect
  | ASConnection arrayConnectionSelect =>
      foldMapAnnRelationSelectG (bifoldMapConnectionSelect f g)
        arrayConnectionSelect
  end

with bifoldMapComputedFieldSelect {r v : Type} (f : r -> M) (g : v -> M)
    (s : ComputedFieldSelect r v) : M :=
  match s with
  | CFSScalar cfsSelect caseBoolExp =>
      foldMapComputedFieldScalarSelect g cfsSelect
        <+> foldMapMaybe
              (foldMapC (F:=GBoolExp)
                 (foldMapC (F:=AnnColumnCaseBoolExpField) g))
              caseBoolExp
  | CFSTable _ simpleSelect =>
      bifoldMapAnnSelectG bifoldMapAnnFieldG f g simpleSelect
  end

with bifoldMapTableAggregateFieldG {r v : Type} (f : r -> M) (g : v -> M)
    (s : TableAggregateFieldG r v) : M :=
  match s with
  | TAFAgg _ => mempty
  | TAFNodes _ fields =>
      foldMapList (foldMapPair (bifoldMapAnnFieldG f g)) fields
  | TAFExp _ => mempty
  end

with bifoldMapConnectionSelect {r v : Type} (f : r -> M) (g : v -> M)
    (s : ConnectionSelect r v) : M :=
  match s with
  | mkConnectionSelect _ _ split _ sel =>
      foldMapMaybe (foldMapNonEmpty (foldMapConnectionSplit g)) split
        <+> bifoldMapAnnSelectG bifoldMapConnectionField f g sel
  end

with bifoldMapConnectionField {r v : Type} (f : r -> M) (g : v -> M)
    (s : ConnectionField r v) : M :=
  match s with
  | ConnectionTypename _ => mempty
  | ConnectionPageInfo _ => mempty
  | ConnectionEdges edgeFields =>
      foldMapList (foldMapPair (bifoldMapEdgeField f g)) edgeFields
  end

with bifoldMapEdgeField {r v : Type} (f : r -> M) (g : v -> M)
    (s : EdgeField r v) : M :=
  match s with
  | EdgeTypename _ => mempty
  | EdgeCursor => mempty
  | EdgeNode annFields =>
      foldMapList (foldMapPair (bifoldMapAnnFieldG f g)) annFields
  end.

Definition bifoldMapQueryDB {r v : Type} (f : r -> M) (g : v -> M)
    (q : QueryDB r v) : M :=
  match q with
  | QDBMultipleRows annSel => bifoldMapAnnSelectG bifoldMapAnnFieldG f g annSel
  | QDBSingleRow annSel => bifoldMapAnnSelectG bifoldMapAnnFieldG f g annSel
  | QDBAggregation annSel =>
      bifoldMapAnnSelectG bifoldMapTableAggregateFieldG f g annSel
  | QDBConnection connSel => bifoldMapConnectionSelect f g connSel
  | QDBStreamMultipleRows annSel =>
      bifoldMapAnnSelectStreamG bifoldMapAnnFieldG f g annSel
  end.
End FieldBifoldable.

(** ** The occurrences of the remote marker

    The positions of the type parameter [r] in the data declarations: [r] is
    the type of [_rrsRelationship], and every other occurrence is inside a
    field tree.  [remotes] lists the values at those positions, in
    declaration order. *)

Section Remotes.
Context {b : Backend} {ir : Imports b}.

Definition remotesFields {A r : Type} (rf : A -> list r) (l : Fields A) : list r :=
  flat_map (fun p => rf (snd p)) l.

Definition remotesAnnSelectG {fld r v : Type} (rf : fld -> list r)
    (s : AnnSelectG fld v) : list r :=
  remotesFields rf (_asnFields s).

Definition remotesAnnSelectStreamG {fld r v : Type} (rf : fld -> list r)
    (s : AnnSelectStreamG fld v) : list r :=
  remotesFields rf (_assnFields s).

Fixpoint remotesAnnFieldG {r v : Type} (fld : AnnFieldG r v) : list r :=
  match fld with
  | AFColumn _ => []
  | AFObjectRelation objRel => remotesAnnObjectSelectG (_aarAnnSelect objRel)
  | AFArrayRelation arrRel => remotesArraySelectG arrRel
  | AFComputedField _ _ cf => remotesComputedFieldSelect cf
  | AFRemote rs => [_rrsRelationship rs]
  | AFNodeId _ _ _ _ => []
  | AFExpression _ => []
  end

with remotesAnnObjectSelectG {r v : Type} (s : AnnObjectSelectG r v) : list r :=
  match s with
  | mkAnnObjectSelectG fields _ _ => remotesFields remotesAnnFieldG fields
  end

with remotesArraySelectG {r v : Type} (s : ArraySelectG r v) : list r :=
  match s with
  | ASSimple sel => remotesAnnSelectG remotesAnnFieldG (_aarAnnSelect sel)
  | ASAggregate sel =>
      remotesAnnSelectG remotesTableAggregateFieldG (_aarAnnSelect sel)
  | ASConnection sel => remotesConnectionSelect (_aarAnnSelect sel)
  end

with remotesComputedFieldSelect {r v : Type} (s : ComputedFieldSelect r v)
    : list r :=
  match s with
  | CFSScalar _ _ => []
  | CFSTable _ sel => remotesAnnSelectG remotesAnnFieldG sel
  end

with remotesTableAggregateFieldG {r v : Type} (s : TableAggregateFieldG r v)
    : list r :=
  match s with
  | TAFAgg _ => []
  | TAFNodes _ fields => remotesFields remotesAnnFieldG fields
  | TAFExp _ => []
  end

with remotesConnectionSelect {r v : Type} (s : ConnectionSelect r v) : list r :=
  match s with
  | mkConnectionSelect _ _ _ _ sel => remotesAnnSelectG remotesConnectionField sel
  end

with remotesConnectionField {r v : Type} (s : ConnectionField r v) : list r :=
  match s with
  | ConnectionTypename _ => []
  | ConnectionPageInfo _ => []
  | ConnectionEdges edges => remotesFields remotesEdgeField edges
  end

with remotesEdgeField {r v : Type} (s : EdgeField r v) : list r :=
  match s with
  | EdgeTypename _ => []
  | EdgeCursor => []
  | EdgeNode fields => remotesFields remotesAnnFieldG fields
  end.

Definition remotesQueryDB {r v : Type} (q : QueryDB r v) : list r :=
  match q with
  | QDBMultipleRows annSel => remotesAnnSelectG remotesAnnFieldG annSel
  | QDBSingleRow annSel => remotesAnnSelectG remotesAnnFieldG annSel
  | QDBAggregation annSel => remotesAnnSelectG remotesTableAggregateFieldG annSel
  | QDBConnection connSel => remotesConnectionSelect connSel
  | QDBStreamMultipleRows annSel =>
      remotesAnnSelectStreamG remotesAnnFieldG annSel
  end.

(** The leaf values of a tree: what the derived [Foldable] enumerates. *)
Definition leavesQueryDB {r v : Type} (q : QueryDB r v) : list v :=
  foldMapQueryDB (fun x => [x]) q.
End Remotes.

(** ** [insertFunctionArg] *)

(** [Int]: 64-bit two's complement. *)
Definition intMin : Z := - 2 ^ 63.
Definition intMax : Z := 2 ^ 63 - 1.
Definition isInt (z : Z) : Prop := intMin <= z <= intMax.
Definition wrapInt (z : Z) : Z := (z + 2 ^ 63) mod 2 ^ 64 - 2 ^ 63.
Definition intAdd (x y : Z) : Z := wrapInt (x + y).

(** [length] at type [Int] (a list held in memory has fewer than [2^63]
    elements, so the count itself does not wrap). *)
Definition intLength {A : Type} (l : list A) : Z := Z.of_nat (length l).

(** [Data.Sequence.insertAt]: inserts at index [i], shifting the rest of the
    sequence over; an index out of range inserts at the front ([i <= 0]) or
    at the back. *)
Definition seqInsertAt {A : Type} (i : Z) (a : A) (s : list A) : list A :=
  if (0 <=? i) && (i <? intLength s)
  then take (Z.to_nat i) s ++ a :: drop (Z.to_nat i) s
  else if i <=? 0 then a :: s else s ++ [a].

Record FunctionArgName : Type := mkFunctionArgName { getFuncArgNameTxt : Text }.

(** If argument positional index is less than or equal to length of
    'positional' arguments then insert the value in 'positional' arguments
    else insert the value with argument name in 'named' arguments. *)
Definition insertFunctionArg {A : Type} (argName : FunctionArgName) (idx : Z)
    (value : A) (args : FunctionArgsExpG A) : FunctionArgsExpG A :=
  match args with
  | FunctionArgsExp positional named =>
      let insertAt i a l := seqInsertAt i a l in
      if intAdd idx 1 <=? intLength positional
      then FunctionArgsExp (insertAt idx value positional) named
      else FunctionArgsExp positional
             (<[getFuncArgNameTxt argName := value]> named)
  end.

(** ** The RQL query API ([/v2/query]) *)

(** The query payloads and the two schema predicates of the backends' run-SQL
    modules, which are imported by the API module. *)
Class QueryTypes : Type := {
  InsertQuery : Type;
  SelectQuery : Type;
  UpdateQuery : Type;
  DeleteQuery : Type;
  CountQuery : Type;
  PostgresRunSQL : Type;
  MSSQLRunSQL : Type;
  MySQLRunSQL : Type;
  BigQueryRunSQL : Type;
  DataConnectorName : Type;
  DataConnectorRunSQL : Type;
  Postgres_isSchemaCacheBuildRequiredRunSQL : PostgresRunSQL -> bool;
  MSSQL_isSchemaCacheBuildRequiredRunSQL : MSSQLRunSQL -> bool
}.

Section RQL.
Context {qt : QueryTypes}.

Inductive RQLQuery : Type :=
| RQInsert (q : InsertQuery)
| RQSelect (q : SelectQuery)
| RQUpdate (q : UpdateQuery)
| RQDelete (q : DeleteQuery)
| RQCount (q : CountQuery)
| RQRunSql (q : PostgresRunSQL)
| RQMssqlRunSql (q : MSSQLRunSQL)
| RQCitusRunSql (q : PostgresRunSQL)
| RQCockroachRunSql (q : PostgresRunSQL)
| RQMysqlRunSql (q : MySQLRunSQL)
| RQBigqueryRunSql (q : BigQueryRunSQL)
| RQDataConnectorRunSql (t : DataConnectorName) (q : DataConnectorRunSQL)
| RQBigqueryDatabaseInspection (q : BigQueryRunSQL)
| RQBulk (l : list RQLQuery)
  (** A variant of 'RQBulk' that runs a bulk of read-only queries
      concurrently.  Asserts that queries on this lists are not modifying
      the schema. *)
| RQConcurrentBulk (l : list RQLQuery).

(** [any p = or . map p] *)
Definition any {A : Type} (p : A -> bool) (l : list A) : bool := existsb p l.

Fixpoint queryModifiesSchema (rq : RQLQuery) : bool :=
  match rq with
  | RQInsert _ => false
  | RQSelect _ => false
  | RQUpdate _ => false
  | RQDelete _ => false
  | RQCount _ => false
  | RQRunSql q => Postgres_isSchemaCacheBuildRequiredRunSQL q
  | RQCitusRunSql q => Postgres_isSchemaCacheBuildRequiredRunSQL q
  | RQCockroachRunSql q => Postgres_isSchemaCacheBuildRequiredRunSQL q
  | RQMssqlRunSql q => MSSQL_isSchemaCacheBuildRequiredRunSQL q
  | RQMysqlRunSql _ => false
  | RQBigqueryRunSql _ => false
  | RQDataConnectorRunSql _ _ => false
  | RQBigqueryDatabaseInspection _ => false
  | RQBulk l => any queryModifiesSchema l
  | RQConcurrentBulk l => any queryModifiesSchema l
  end.

Fixpoint queryModifiesUserDB (rq : RQLQuery) : bool :=
  match rq with
  | RQInsert _ => true
  | RQSelect _ => false
  | RQUpdate _ => true
  | RQDelete _ => true
  | RQCount _ => false
  | RQRunSql _ => true
  | RQCitusRunSql _ => true
  | RQCockroachRunSql _ => true
  | RQMssqlRunSql _ => true
  | RQMysqlRunSql _ => true
  | RQBigqueryRunSql _ => true
  | RQDataConnectorRunSql _ _ => true
  | RQBigqueryDatabaseInspection _ => false
  | RQBulk q => any queryModifiesUserDB q
  | RQConcurrentBulk _ => false
  end.

(** [constrName]: the name of the constructor, the label of the trace. *)
Definition constrName (rq : RQLQuery) : Text :=
  match rq with
  | RQInsert _ => "RQInsert"
  | RQSelect _ => "RQSelect"
  | RQUpdate _ => "RQUpdate"
  | RQDelete _ => "RQDelete"
  | RQCount _ => "RQCount"
  | RQRunSql _ => "RQRunSql"
  | RQMssqlRunSql _ => "RQMssqlRunSql"
  | RQCitusRunSql _ => "RQCitusRunSql"
  | RQCockroachRunSql _ => "RQCockroachRunSql"
  | RQMysqlRunSql _ => "RQMysqlRunSql"
  | RQBigqueryRunSql _ => "RQBigqueryRunSql"
  | RQDataConnectorRunSql _ _ => "RQDataConnectorRunSql"
  | RQBigqueryDatabaseInspection _ => "RQBigqueryDatabaseInspection"
  | RQBulk _ => "RQBulk"
  | RQConcurrentBulk _ => "RQConcurrentBulk"
  end.

(** The monad the queries run in, with what the API module takes from its
    constraints: [MonadError QErr] through [throw400] and [throw500],
    [MonadTrace] through [trace], and the two ways a list of actions is
    run: [mapConcurrently f = runConcurrently . traverse (Concurrently . f)]
    and [indexedMapM], each given by its action on the list of the mapped
    actions. *)
Class QueryMonad (m : Type -> Type) : Type := {
  Code : Type;
  NotSupported : Code;
  ret : forall {A : Type}, A -> m A;
  bind : forall {A B : Type}, m A -> (A -> m B) -> m B;
  throw400 : forall {A : Type}, Code -> Text -> m A;
  throw500 : forall {A : Type}, Text -> m A;
  trace : forall {A : Type}, Text -> m A -> m A;
  runConcurrently : forall {A : Type}, list (m A) -> m (list A);
  runIndexed : forall {A : Type}, list (m A) -> m (list A)
}.

Class QueryMonadLaws (m : Type -> Type) `{QueryMonad m} : Prop := {
  bind_ret : forall (A B : Type) (a : A) (k : A -> m B), bind (ret a) k = k a;
  bind_throw500 : forall (A B : Type) (t : Text) (k : A -> m B),
    bind (throw500 t) k = throw500 t;
  bind_throw400 : forall (A B : Type) (c : Code) (t : Text) (k : A -> m B),
    bind (throw400 c t) k = throw400 c t
}.

(** The runners of the single queries, imported from the DML and run-SQL
    modules, and the JSON encoding of a list of results. *)
Class Runners (m : Type -> Type) : Type := {
  Environment : Type;
  EncJSON : Type;
  encJFromList : list EncJSON -> EncJSON;
  runInsert : InsertQuery -> m EncJSON;
  runSelect : SelectQuery -> m EncJSON;
  runUpdate : UpdateQuery -> m EncJSON;
  runDelete : DeleteQuery -> m EncJSON;
  runCount : CountQuery -> m EncJSON;
  Postgres_runRunSQL_Vanilla : PostgresRunSQL -> m EncJSON;
  Postgres_runRunSQL_Citus : PostgresRunSQL -> m EncJSON;
  Postgres_runRunSQL_Cockroach : PostgresRunSQL -> m EncJSON;
  MSSQL_runSQL : MSSQLRunSQL -> m EncJSON;
  MySQL_runSQL : MySQLRunSQL -> m EncJSON;
  BigQuery_runSQL : BigQueryRunSQL -> m EncJSON;
  DataConnector_runSQL : DataConnectorName -> DataConnectorRunSQL -> m EncJSON;
  BigQuery_runDatabaseInspection : BigQueryRunSQL -> m EncJSON
}.

Section Run.
Context {m : Type -> Type} {qm : QueryMonad m} {rn : Runners m}.

Definition when (c : bool) (a : m unit) : m unit :=
  if c then a else ret tt.

Definition fmapM {A B : Type} (f : A -> B) (x : m A) : m B :=
  bind x (fun a => ret (f a)).

Definition mapConcurrently {A B : Type} (f : A -> m B) (l : list A) : m (list B) :=
  runConcurrently (List.map f l).

Definition indexedMapM {A B : Type} (f : A -> m B) (l : list A) : m (list B) :=
  runIndexed (List.map f l).

Fixpoint runQueryM (env : Environment) (rq : RQLQuery) : m EncJSON :=
  trace (constrName rq)
    match rq with
    | RQInsert q => runInsert q
    | RQSelect q => runSelect q
    | RQUpdate q => runUpdate q
    | RQDelete q => runDelete q
    | RQCount q => runCount q
    | RQRunSql q => Postgres_runRunSQL_Vanilla q
    | RQMssqlRunSql q => MSSQL_runSQL q
    | RQMysqlRunSql q => MySQL_runSQL q
    | RQCitusRunSql q => Postgres_runRunSQL_Citus q
    | RQCockroachRunSql q => Postgres_runRunSQL_Cockroach q
    | RQBigqueryRunSql q => BigQuery_runSQL q
    | RQDataConnectorRunSql t q => DataConnector_runSQL t q
    | RQBigqueryDatabaseInspection q => BigQuery_runDatabaseInspection q
    | RQBulk l => fmapM encJFromList (indexedMapM (runQueryM env) l)
    | RQConcurrentBulk l =>
        bind
          (when (queryModifiesSchema rq)
             (throw500 "Only read-only queries are allowed in a concurrent_bulk"))
          (fun _ => fmapM encJFromList (mapConcurrently (runQueryM env) l))
    end.

(** [_sccReadOnlyMode] of the server configuration. *)
Inductive ReadOnlyMode : Type := ReadOnlyModeEnabled | ReadOnlyModeDisabled.

Definition ReadOnlyMode_eqb (x y : ReadOnlyMode) : bool :=
  match x, y with
  | ReadOnlyModeEnabled, ReadOnlyModeEnabled => true
  | ReadOnlyModeDisabled, ReadOnlyModeDisabled => true
  | _, _ => false
  end.

(** The first statement of [runQuery]: the read-only guard. *)
Definition readOnlyGuard (readOnlyMode : ReadOnlyMode) (rqlQuery : RQLQuery)
    : m unit :=
  when (ReadOnlyMode_eqb readOnlyMode ReadOnlyModeEnabled
        && queryModifiesUserDB rqlQuery)
    (throw400 NotSupported
       "Cannot run write queries when read-only mode is enabled").

(** [runQuery]: the guard, then the rest of the block (fetching the
    metadata, [runQueryM], the reload), which lives on collaborators
    that are not modelled and is taken as the continuation [body]. *)
Definition runQuery {R : Type} (readOnlyMode : ReadOnlyMode)
    (body : RQLQuery -> m R) (rqlQuery : RQLQuery) : m R :=
  bind (readOnlyGuard readOnlyMode rqlQuery) (fun _ => body rqlQuery).
End Run.
End RQL.


(** ** A concrete backend and a concrete query monad

    Instances at which the development is evaluated: a backend whose names
    are strings, with boolean expressions as lists of lists of leaves and the
    always-true expression the empty conjunction; a query monad whose actions
    are their outcomes. *)

Module Demo.

Definition listContainer : Container list :=
  {| cmap := @List.map; toList := fun (A : Type) (l : list A) => l |}.

(** The identity functor, for [FunctionArgumentExp] and [OrderByItemG]. *)
Definition Id (A : Type) : Type := A.

Definition idContainer : Container Id :=
  {| cmap := fun (A B : Type) (f : A -> B) (x : Id A) => f x : Id B;
     toList := fun (A : Type) (x : Id A) => [x] |}.

Definition backend : Backend :=
  {| TableName := string;
     FunctionName := string;
     Column := string;
     ScalarType := string;
     CountType := unit;
     XComputedField := unit;
     XRelay := unit;
     XNodesAgg := unit;
     XStreamingSubscription := unit;
     ScalarSelectionArguments := unit;
     FunctionArgumentExp := Id;
     FunctionArgumentExp_container := idContainer |}.

Definition imports : Imports backend :=
  {| FieldName := string;
     RelName := string;
     ComputedFieldName := string;
     SourceName := string;
     JsonAggSelect := bool;
     StringifyNumbers := bool;
     NamingCase := bool;
     CursorOrdering := bool;
     ColumnType := string;
     ColumnInfo := string;
     ColumnValue := Z;
     RelInfo := string;
     PrimaryKeyColumns := list string;
     DBJoinField := string;
     GBoolExp := list;
     AnnBoolExpFld := list;
     AnnColumnCaseBoolExpField := list;
     OrderByItemG := Id;
     NativeQuery := list;
     GBoolExp_container := listContainer;
     AnnBoolExpFld_container := listContainer;
     AnnColumnCaseBoolExpField_container := listContainer;
     OrderByItemG_container := idContainer;
     NativeQuery_container := listContainer;
     annBoolExpTrue := fun v : Type => [] |}.

(** The simple select of the scenario: fields [{"a": Column("col1","int")}],
    no permission filter, [FromTable "t"], no arguments. *)
Definition Field : Type := AnnFieldG (b:=backend) (ir:=imports) nat Z.

Definition columnField (col typ : string) : Field :=
  mkAnnColumnField (b:=backend) (ir:=imports) col typ None None.

Definition selectOf {fld : Type} (fields : list (string * fld))
    : AnnSelectG (b:=backend) (ir:=imports) fld Z :=
  mkAnnSelectG (b:=backend) (ir:=imports) fields (FromTable (b:=backend) "t")
    noTablePermissions noSelectArgs false None.

Definition simpleSelect : QueryDB (b:=backend) (ir:=imports) nat Z :=
  QDBMultipleRows (selectOf [("a", columnField "col1" "int")]).

(** A select with one field of each variant; the remote marker [7] sits in
    the remote relationship, the leaf marker [42] in a cursor split of the
    connection. *)
Definition relationOf {A : Type} (sel : A)
    : AnnRelationSelectG (b:=backend) (ir:=imports) A :=
  mkAnnRelationSelectG (b:=backend) (ir:=imports) "rel" (∅ : gmap string string) sel.

Definition markedSplit : ConnectionSplit (b:=backend) (ir:=imports) Z :=
  mkConnectionSplit (b:=backend) (ir:=imports) CSKAfter 42
    (AOCColumn (b:=backend) (ir:=imports) "id").

Definition markedConnection : ConnectionSelect (b:=backend) (ir:=imports) nat Z :=
  mkConnectionSelect (b:=backend) (ir:=imports) tt ["id"]
    (Some (NECons markedSplit [])) (Some (SliceFirst 10)) (selectOf []).

Definition markedFields : list (string * Field) :=
  [ ("column", columnField "col1" "int");
    ("object", AFObjectRelation
       (relationOf (mkAnnObjectSelectG (b:=backend) (ir:=imports) [] "t" [])));
    ("simple", AFArrayRelation (ASSimple (relationOf (selectOf []))));
    ("aggregate", AFArrayRelation (ASAggregate (relationOf (selectOf []))));
    ("connection", AFArrayRelation (ASConnection (relationOf markedConnection)));
    ("computed", AFComputedField (b:=backend) (ir:=imports) tt "cf"
       (CFSScalar
          (mkComputedFieldScalarSelect (b:=backend) (v:=Z)
             "fn" (FunctionArgsExp [] ∅) "int" None)
          None));
    ("remote", AFRemote
       (mkRemoteRelationshipSelect (b:=backend) (ir:=imports)
          (∅ : gmap string string) 7%nat));
    ("node", AFNodeId (b:=backend) (ir:=imports) tt "default" "t" ["id"]);
    ("expression", AFExpression "typename") ].

Definition markedSelect : QueryDB (b:=backend) (ir:=imports) nat Z :=
  QDBMultipleRows (selectOf markedFields).

(** The outcome of running a query action. *)
Inductive Outcome (A : Type) : Type :=
| Ok (a : A)
| Err400 (code : string) (msg : Text)
| Err500 (msg : Text).
Arguments Ok {A}.
Arguments Err400 {A}.
Arguments Err500 {A}.

Definition bindOutcome {A B : Type} (x : Outcome A) (k : A -> Outcome B) : Outcome B :=
  match x with
  | Ok a => k a
  | Err400 c t => Err400 c t
  | Err500 t => Err500 t
  end.

(** All the outcomes in order, or the first error. *)
Fixpoint sequenceOutcome {A : Type} (l : list (Outcome A)) : Outcome (list A) :=
  match l with
  | [] => Ok []
  | x :: xs =>
      bindOutcome x (fun a => bindOutcome (sequenceOutcome xs) (fun r => Ok (a :: r)))
  end.

Definition queryTypes : QueryTypes :=
  {| InsertQuery := nat;
     SelectQuery := nat;
     UpdateQuery := nat;
     DeleteQuery := nat;
     CountQuery := nat;
     PostgresRunSQL := bool;
     MSSQLRunSQL := bool;
     MySQLRunSQL := nat;
     BigQueryRunSQL := nat;
     DataConnectorName := string;
     DataConnectorRunSQL := nat;
     Postgres_isSchemaCacheBuildRequiredRunSQL := fun q : bool => q;
     MSSQL_isSchemaCacheBuildRequiredRunSQL := fun q : bool => q |}.

Definition queryMonad : QueryMonad Outcome :=
  {| Code := string;
     NotSupported := "not-supported";
     ret := @Ok;
     bind := @bindOutcome;
     throw400 := @Err400;
     throw500 := @Err500;
     trace := fun (A : Type) (_ : Text) (x : Outcome A) => x;
     runConcurrently := @sequenceOutcome;
     runIndexed := @sequenceOutcome |}.

(** Every query answers with its own number. *)
Definition answer (q : nat) : Outcome (list nat) := Ok [q].

Definition runners : Runners (qt:=queryTypes) Outcome :=
  @Build_Runners queryTypes Outcome unit (list nat) (@concat nat)
    answer answer answer answer answer
    (fun _ : bool => answer 0) (fun _ : bool => answer 0)
    (fun _ : bool => answer 0) (fun _ : bool => answer 0)
    answer answer (fun _ : string => answer) answer.

End Demo.

(** ** Definitions of the specification *)

(** A property of every field of a field list. *)
Definition ForallFields {b : Backend} {ir : Imports b} {A : Type}
    (P : A -> Prop) (l : Fields A) : Prop :=
  Forall (fun p => P (snd p)) l.

Definition ForallFields_all {b : Backend} {ir : Imports b} {A : Type}
    (P : A -> Prop) (F : forall x, P x)
    : forall l : Fields A, ForallFields P l :=
  fix go (l : Fields A) : ForallFields P l :=
    match l with
    | [] => List.Forall_nil (fun p => P (snd p))
    | p :: l' => @List.Forall_cons _ (fun p => P (snd p)) p l' (F (snd p)) (go l')
    end.

(** The occurrences a single bifold pass visits, in order, each tagged with
    its side; [lefts] and [rights] select one side. *)
Definition occurrencesQueryDB {b : Backend} {ir : Imports b} {r v : Type}
    (q : QueryDB r v) : list (r + v) :=
  bifoldMapQueryDB (fun x : r => [inl x]) (fun y : v => [inr y]) q.

Definition lefts {A B : Type} (l : list (A + B)) : list A :=
  flat_map (fun s => match s with inl x => [x] | inr _ => [] end) l.

Definition rights {A B : Type} (l : list (A + B)) : list B :=
  flat_map (fun s => match s with inl _ => [] | inr y => [y] end) l.

(** The cursor splits of a connection select and the leaves of one split:
    its bound value, then the values inside its order-by item. *)
Definition splitsOf {b : Backend} {ir : Imports b} {r v : Type}
    (cs : ConnectionSelect r v) : list (ConnectionSplit v) :=
  match _csSplit cs with
  | None => []
  | Some ne => neToList ne
  end.

Definition leavesConnectionSplit {b : Backend} {ir : Imports b} {v : Type}
    (s : ConnectionSplit v) : list v :=
  _csValue s :: foldMapAnnotatedOrderByItemG (fun x => [x]) (_csOrderBy s).

(** The two functor laws of a type constructor with its [fmap]. *)
Definition FunctorLaws (F : Type -> Type)
    (fmapF : forall A B : Type, (A -> B) -> F A -> F B) : Prop :=
  (forall (A : Type) (x : F A), fmapF A A (fun a => a) x = x)
  /\ (forall (A B C : Type) (f : A -> B) (g : B -> C) (x : F A),
        fmapF B C g (fmapF A B f x) = fmapF A C (fun a => g (f a)) x).
Arguments FunctorLaws F fmapF : clear implicits.

(** The seven variants of a field and the three shapes of an array relation. *)
Inductive FieldVariant : Type :=
| ColumnReference
| ObjectRelation
| ArrayRelation
| ComputedField
| RemoteRelationship
| RelayNodeId
| RawExpression.

Inductive ArrayShape : Type := SimpleShape | AggregateShape | ConnectionShape.

Definition isFieldVariant {b : Backend} {ir : Imports b} {r v : Type}
    (t : FieldVariant) (fld : AnnFieldG r v) : Prop :=
  match t with
  | ColumnReference => exists col, fld = AFColumn col
  | ObjectRelation => exists objRel, fld = AFObjectRelation objRel
  | ArrayRelation => exists arrRel, fld = AFArrayRelation arrRel
  | ComputedField => exists x name cf, fld = AFComputedField x name cf
  | RemoteRelationship => exists rs, fld = AFRemote rs
  | RelayNodeId => exists x src tbl pk, fld = AFNodeId x src tbl pk
  | RawExpression => exists t, fld = AFExpression t
  end.

Definition isArrayShape {b : Backend} {ir : Imports b} {r v : Type}
    (t : ArrayShape) (arr : ArraySelectG r v) : Prop :=
  match t with
  | SimpleShape => exists s, arr = ASSimple s
  | AggregateShape => exists s, arr = ASAggregate s
  | ConnectionShape => exists s, arr = ASConnection s
  end.

(** [p'] is [p] with [x] inserted at position [i]: the elements before [i]
    stay, [x] is at [i], the elements from [i] on are shifted right by one. *)
Definition insertedAt {A : Type} (i : nat) (x : A) (p p' : list A) : Prop :=
  length p' = S (length p)
  /\ (forall j : nat, (j < i)%nat -> p' !! j = p !! j)
  /\ p' !! i = Some x
  /\ (forall j : nat, (i <= j)%nat -> p' !! S j = p !! j).

(** The behaviour of [insertFunctionArg] as the documentation words it, at an
    index [idx], with [idx + 1] the mathematical successor. *)
Definition insertFunctionArg_spec {A : Type} (argName : FunctionArgName)
    (idx : Z) (value : A) (p : list A) (n : HashMapText A) : Prop :=
  (idx + 1 <= Z.of_nat (length p) ->
   exists p', insertFunctionArg argName idx value (FunctionArgsExp p n)
              = FunctionArgsExp p' n
              /\ insertedAt (Z.to_nat idx) value p p')
  /\ (~ idx + 1 <= Z.of_nat (length p) ->
      insertFunctionArg argName idx value (FunctionArgsExp p n)
      = FunctionArgsExp p (<[getFuncArgNameTxt argName := value]> n)).

(** ** The rest of the query API: parsing a query, and the reload *)

(** [Data.Text.stripSuffix]: the prefix of the second string if its suffix
    matches the entire first string. *)
Fixpoint stripSuffix (p t : Text) : option Text :=
  if String.eqb t p then Some ""
  else match t with
       | EmptyString => None
       | String c t' => option_map (String c) (stripSuffix p t')
       end.

(** aeson's [Parser]: a value or the message of the failure. *)
Definition Parser (A : Type) : Type := (string + A)%type.

Definition failParser {A : Type} (msg : string) : Parser A := inl msg.

Definition fmapParser {A B : Type} (f : A -> B) (x : Parser A) : Parser B :=
  match x with
  | inl msg => inl msg
  | inr a => inr (f a)
  end.

(** [preview _Right] *)
Definition previewRight {E A : Type} (x : E + A) : option A :=
  match x with
  | inl _ => None
  | inr a => Some a
  end.

Section ParseRQL.
Context {qt : QueryTypes}.

(** [GQL.mkName] and [mkDataConnectorName], which decide what the name of a
    data connector may be; both are imported. *)
Class NameValidators : Type := {
  GQLName : Type;
  mkName : Text -> option GQLName;
  mkDataConnectorName : GQLName -> string + DataConnectorName
}.

(** [args :: forall a. FromJSON a => Parser a], that is [o .: "args"]: the
    parse of the ["args"] field at each of the types the constructors take
    (for the two bulks: at the list of queries). *)
Record Args : Type := mkArgs {
  argsInsert : Parser InsertQuery;
  argsSelect : Parser SelectQuery;
  argsUpdate : Parser UpdateQuery;
  argsDelete : Parser DeleteQuery;
  argsCount : Parser CountQuery;
  argsPostgresRunSQL : Parser PostgresRunSQL;
  argsMSSQLRunSQL : Parser MSSQLRunSQL;
  argsMySQLRunSQL : Parser MySQLRunSQL;
  argsBigQueryRunSQL : Parser BigQueryRunSQL;
  argsDataConnectorRunSQL : Parser DataConnectorRunSQL;
  argsQueries : Parser (list RQLQuery)
}.

Context {nv : NameValidators}.

(** [dcNameFromRunSql =
      T.stripSuffix "_run_sql" >=> GQL.mkName >=> preview _Right . mkDataConnectorName] *)
Definition dcNameFromRunSql (t : Text) : option DataConnectorName :=
  match stripSuffix "_run_sql" t with
  | None => None
  | Some prefix =>
      match mkName prefix with
      | None => None
      | Some name => previewRight (mkDataConnectorName name)
      end
  end.

(** The body of [parseJSON] once the ["type"] field [t] is read: the [case t
    of], its alternatives tried in the order of the source.  This instance
    has been written by hand so that "wildcard" prefixes of _run_sql can be
    delegated to data connectors. *)
Definition parseRQLQuery (t : Text) (args : Args) : Parser RQLQuery :=
  if String.eqb t "insert" then fmapParser RQInsert (argsInsert args)
  else if String.eqb t "select" then fmapParser RQSelect (argsSelect args)
  else if String.eqb t "update" then fmapParser RQUpdate (argsUpdate args)
  else if String.eqb t "delete" then fmapParser RQDelete (argsDelete args)
  else if String.eqb t "count" then fmapParser RQCount (argsCount args)
  else if String.eqb t "run_sql" then fmapParser RQRunSql (argsPostgresRunSQL args)
  else if String.eqb t "pg_run_sql" then fmapParser RQRunSql (argsPostgresRunSQL args)
  else if String.eqb t "mssql_run_sql"
       then fmapParser RQMssqlRunSql (argsMSSQLRunSQL args)
  else if String.eqb t "citus_run_sql"
       then fmapParser RQCitusRunSql (argsPostgresRunSQL args)
  else if String.eqb t "cockroach_run_sql"
       then fmapParser RQCockroachRunSql (argsPostgresRunSQL args)
  else if String.eqb t "mysql_run_sql"
       then fmapParser RQMysqlRunSql (argsMySQLRunSQL args)
  else if String.eqb t "bigquery_run_sql"
       then fmapParser RQBigqueryRunSql (argsBigQueryRunSQL args)
  else match dcNameFromRunSql t with
       | Some t' =>
           fmapParser (RQDataConnectorRunSql t') (argsDataConnectorRunSQL args)
       | None =>
           if String.eqb t "bigquery_database_inspection"
           then fmapParser RQBigqueryDatabaseInspection (argsBigQueryRunSQL args)
           else if String.eqb t "bulk" then fmapParser RQBulk (argsQueries args)
           else if String.eqb t "concurrent_bulk"
                then fmapParser RQConcurrentBulk (argsQueries args)
           else failParser ("Unrecognised RQLQuery type: " +:+ t)
       end.
End ParseRQL.

Section Reload.
Context {qt : QueryTypes} {m : Type -> Type} {qm : QueryMonad m} {rn : Runners m}.

(** [_sccMaintenanceMode] of the server configuration. *)
Inductive MaintenanceMode : Type :=
| MaintenanceModeDisabled
| MaintenanceModeEnabled (u : unit).

(** What [runQuery] takes from its collaborators: the metadata storage
    ([fetchMetadata], [setMetadata], [notifySchemaCacheSync], each already
    under its [liftEitherM]) and the run of an action under the metadata and
    the schema cache ([runMetadataT], [runCacheRWT] and [peelRun] applied in
    turn), which yields the result with the updated metadata, the updated
    cache and the cache invalidations. *)
Class MetadataStorage : Type := {
  Metadata : Type;
  MetadataResourceVersion : Type;
  RebuildableSchemaCache : Type;
  CacheInvalidations : Type;
  InstanceId : Type;
  fetchMetadata : m (Metadata * MetadataResourceVersion);
  setMetadata : MetadataResourceVersion -> Metadata -> m MetadataResourceVersion;
  notifySchemaCacheSync :
    MetadataResourceVersion -> InstanceId -> CacheInvalidations -> m unit;
  peelRun : Metadata -> RebuildableSchemaCache -> m EncJSON ->
            m ((EncJSON * Metadata) * RebuildableSchemaCache * CacheInvalidations)
}.

Context {ms : MetadataStorage}.

(** [withReload] of [runQuery]. *)
Definition withReload (maintenanceMode : MaintenanceMode) (instanceId : InstanceId)
    (rqlQuery : RQLQuery) (currentResourceVersion : MetadataResourceVersion)
    (r : EncJSON * RebuildableSchemaCache * CacheInvalidations * Metadata)
    : m (EncJSON * RebuildableSchemaCache) :=
  match r with
  | (result, updatedCache, invalidations, updatedMetadata) =>
      bind
        (when (queryModifiesSchema rqlQuery)
           match maintenanceMode with
           | MaintenanceModeDisabled =>
               bind
                 (trace "setMetadata"
                    (setMetadata currentResourceVersion updatedMetadata))
                 (fun newResourceVersion =>
                    trace "notifySchemaCacheSync"
                      (notifySchemaCacheSync newResourceVersion instanceId
                         invalidations))
           | MaintenanceModeEnabled _ =>
               throw500 "metadata cannot be modified in maintenance mode"
           end)
        (fun _ => ret (result, updatedCache))
  end.

(** The block of [runQuery] after the read-only guard. *)
Definition runQueryBody (env : Environment) (instanceId : InstanceId)
    (schemaCache : RebuildableSchemaCache) (maintenanceMode : MaintenanceMode)
    (rqlQuery : RQLQuery) : m (EncJSON * RebuildableSchemaCache) :=
  bind (trace "fetchMetadata" fetchMetadata)
    (fun fetched =>
       match fetched with
       | (metadata, currentResourceVersion) =>
           bind
             (bind (peelRun metadata schemaCache (runQueryM env rqlQuery))
                (fun x =>
                   match x with
                   | ((js, meta), rsc, ci) => ret (js, rsc, ci, meta)
                   end))
             (fun result =>
                withReload maintenanceMode instanceId rqlQuery
                  currentResourceVersion result)
       end).
End Reload.

(** The queries a query is made of: a bulk of either kind stands for the
    queries of its list, at any depth. *)
Fixpoint bulkLeaves {qt : QueryTypes} (rq : RQLQuery) : list RQLQuery :=
  match rq with
  | RQBulk l => flat_map bulkLeaves l
  | RQConcurrentBulk l => flat_map bulkLeaves l
  | _ => [rq]
  end.

(** The same, a concurrent bulk counting as one query. *)
Fixpoint sequentialLeaves {qt : QueryTypes} (rq : RQLQuery) : list RQLQuery :=
  match rq with
  | RQBulk l => flat_map sequentialLeaves l
  | _ => [rq]
  end.

(** A statement that rebuilds the schema cache: a [run_sql] of the Postgres
    family or of MSSQL for which the backend says so. *)
Definition isSchemaStatement {qt : QueryTypes} (rq : RQLQuery) : bool :=
  match rq with
  | RQRunSql q => Postgres_isSchemaCacheBuildRequiredRunSQL q
  | RQCitusRunSql q => Postgres_isSchemaCacheBuildRequiredRunSQL q
  | RQCockroachRunSql q => Postgres_isSchemaCacheBuildRequiredRunSQL q
  | RQMssqlRunSql q => MSSQL_isSchemaCacheBuildRequiredRunSQL q
  | _ => false
  end.

(** A query that only reads: a select, a count, a BigQuery database
    inspection. *)
Definition isRead {qt : QueryTypes} (rq : RQLQuery) : bool :=
  match rq with
  | RQSelect _ => true
  | RQCount _ => true
  | RQBigqueryDatabaseInspection _ => true
  | _ => false
  end.

Definition isConcurrentBulk {qt : QueryTypes} (rq : RQLQuery) : bool :=
  match rq with
  | RQConcurrentBulk _ => true
  | _ => false
  end.

(** Whether a concurrent bulk occurs in a query (below bulks). *)
Fixpoint hasConcurrentBulk {qt : QueryTypes} (rq : RQLQuery) : bool :=
  match rq with
  | RQBulk l => existsb hasConcurrentBulk l
  | RQConcurrentBulk _ => true
  | _ => false
  end.

(** The request types whose parse does not go through the data-connector
    wildcard. *)
Definition runSqlTypes : list Text :=
  ["run_sql"; "pg_run_sql"; "mssql_run_sql"; "citus_run_sql";
   "cockroach_run_sql"; "mysql_run_sql"; "bigquery_run_sql"].

Definition dmlTypes : list Text := ["insert"; "select"; "update"; "delete"; "count"].

Definition lateTypes : list Text :=
  ["bigquery_database_inspection"; "bulk"; "concurrent_bulk"].

(** A metadata storage and name validators for the concrete query monad:
    the resource version counts the writes, every non-empty name is a data
    connector's. *)
Definition demoStorage
    : MetadataStorage (qt:=Demo.queryTypes) (m:=Demo.Outcome) (rn:=Demo.runners) :=
  @Build_MetadataStorage Demo.queryTypes Demo.Outcome Demo.runners
    nat nat nat unit unit
    (Demo.Ok (0%nat, 0%nat))
    (fun (rv : nat) (_ : nat) => Demo.Ok (S rv))
    (fun (_ : nat) (_ : unit) (_ : unit) => Demo.Ok tt)
    (fun (md : nat) (sc : nat) (act : Demo.Outcome (list nat)) =>
       Demo.bindOutcome act (fun js => Demo.Ok ((js, md), sc, tt))).

Definition demoValidators : NameValidators (qt:=Demo.queryTypes) :=
  @Build_NameValidators Demo.queryTypes string
    (fun t : Text => if String.eqb t "" then None else Some t)
    (fun n : string => inr n).

Definition demoArgs : Args (qt:=Demo.queryTypes) :=
  @mkArgs Demo.queryTypes (inr 1%nat) (inr 2%nat) (inr 3%nat) (inr 4%nat)
    (inr 5%nat) (inr true) (inr true) (inr 8%nat) (inr 9%nat) (inr 10%nat)
    (inr []).

(** The elements of a mapped container are the mapped elements: the law
    that ties the [Functor] and the [Foldable] instance of an imported
    constructor. *)
Class ContainerNatural (F : Type -> Type) `{Container F} : Prop := {
  toList_cmap : forall (A B : Type) (f : A -> B) (t : F A),
    toList (cmap f t) = List.map f (toList t)
}.
Arguments ContainerNatural F {_}.

Class NaturalImports (b : Backend) (ir : Imports b) : Prop := {
  FunctionArgumentExp_natural :: ContainerNatural FunctionArgumentExp;
  GBoolExp_natural :: ContainerNatural GBoolExp;
  AnnBoolExpFld_natural :: ContainerNatural AnnBoolExpFld;
  AnnColumnCaseBoolExpField_natural :: ContainerNatural AnnColumnCaseBoolExpField;
  OrderByItemG_natural :: ContainerNatural OrderByItemG;
  NativeQuery_natural :: ContainerNatural NativeQuery
}.

Class MonoidCommutative (M : Type) `{Monoid M} : Prop := {
  mappend_comm : forall x y : M, x <+> y = y <+> x
}.
Arguments MonoidCommutative M {_}.

(** [either f g] *)
Definition either {A B C : Type} (f : A -> C) (g : B -> C) (s : A + B) : C :=
  match s with
  | inl x => f x
  | inr y => g y
  end.

(** The number of arguments of a function call. *)
Definition argCount {A : Type} (args : FunctionArgsExpG A) : nat :=
  (length (_faePositional args) + size (_faeNamed args))%nat.

(** * Lemmas *)

#[export] Instance listMonoidLaws (A : Type) : MonoidLaws (list A).
Proof.
  split; simpl; intros.
  - reflexivity.
  - apply app_nil_r.
  - apply app_assoc.
Qed.

#[export] Instance sumMonoidLaws : MonoidLaws nat.
Proof. split; simpl; intros; lia. Qed.

(** ** Structural induction over the field tree *)

Section FieldTreeInduction.
Context {b : Backend} {ir : Imports b} {r v : Type}.

Variable PF : AnnFieldG r v -> Prop.
Variable PO : AnnObjectSelectG r v -> Prop.
Variable PA : ArraySelectG r v -> Prop.
Variable PC : ComputedFieldSelect r v -> Prop.
Variable PT : TableAggregateFieldG r v -> Prop.
Variable PS : ConnectionSelect r v -> Prop.
Variable PCF : ConnectionField r v -> Prop.
Variable PE : EdgeField r v -> Prop.

Hypothesis HF_column : forall col, PF (AFColumn col).
Hypothesis HF_object : forall objRel,
  PO (_aarAnnSelect objRel) -> PF (AFObjectRelation objRel).
Hypothesis HF_array : forall arrRel, PA arrRel -> PF (AFArrayRelation arrRel).
Hypothesis HF_computed : forall x name cf, PC cf -> PF (AFComputedField x name cf).
Hypothesis HF_remote : forall rs, PF (AFRemote rs).
Hypothesis HF_nodeId : forall x src tbl pk, PF (AFNodeId x src tbl pk).
Hypothesis HF_expression : forall t, PF (AFExpression t).
Hypothesis HO_select : forall fields from filter,
  ForallFields PF fields -> PO (mkAnnObjectSelectG fields from filter).
Hypothesis HA_simple : forall sel,
  ForallFields PF (_asnFields (_aarAnnSelect sel)) -> PA (ASSimple sel).
Hypothesis HA_aggregate : forall sel,
  ForallFields PT (_asnFields (_aarAnnSelect sel)) -> PA (ASAggregate sel).
Hypothesis HA_connection : forall sel,
  PS (_aarAnnSelect sel) -> PA (ASConnection sel).
Hypothesis HC_scalar : forall sel caseBoolExp, PC (CFSScalar sel caseBoolExp).
Hypothesis HC_table : forall agg sel,
  ForallFields PF (_asnFields sel) -> PC (CFSTable agg sel).
Hypothesis HT_agg : forall aggs, PT (TAFAgg aggs).
Hypothesis HT_nodes : forall x fields,
  ForallFields PF fields -> PT (TAFNodes x fields).
Hypothesis HT_exp : forall t, PT (TAFExp t).
Hypothesis HS_select : forall x pk split slice sel,
  ForallFields PCF (_asnFields sel) -> PS (mkConnectionSelect x pk split slice sel).
Hypothesis HCF_typename : forall t, PCF (ConnectionTypename t).
Hypothesis HCF_pageInfo : forall fields, PCF (ConnectionPageInfo fields).
Hypothesis HCF_edges : forall edges,
  ForallFields PE edges -> PCF (ConnectionEdges edges).
Hypothesis HE_typename : forall t, PE (EdgeTypename t).
Hypothesis HE_cursor : PE EdgeCursor.
Hypothesis HE_node : forall fields, ForallFields PF fields -> PE (EdgeNode fields).

Fixpoint AnnFieldG_tree_ind (fld : AnnFieldG r v) : PF fld :=
  match fld as fld0 return PF fld0 with
  | AFColumn col => HF_column col
  | AFObjectRelation objRel =>
      HF_object (AnnObjectSelectG_tree_ind (_aarAnnSelect objRel))
  | AFArrayRelation arrRel => HF_array (ArraySelectG_tree_ind arrRel)
  | AFComputedField x name cf =>
      HF_computed x name (ComputedFieldSelect_tree_ind cf)
  | AFRemote rs => HF_remote rs
  | AFNodeId x src tbl pk => HF_nodeId x src tbl pk
  | AFExpression t => HF_expression t
  end

with AnnObjectSelectG_tree_ind (s : AnnObjectSelectG r v) : PO s :=
  match s as s0 return PO s0 with
  | mkAnnObjectSelectG fields from filter =>
      HO_select from filter (ForallFields_all AnnFieldG_tree_ind fields)
  end

with ArraySelectG_tree_ind (s : ArraySelectG r v) : PA s :=
  match s as s0 return PA s0 with
  | ASSimple sel =>
      HA_simple
        (ForallFields_all AnnFieldG_tree_ind (_asnFields (_aarAnnSelect sel)))
  | ASAggregate sel =>
      HA_aggregate
        (ForallFields_all TableAggregateFieldG_tree_ind
           (_asnFields (_aarAnnSelect sel)))
  | ASConnection sel =>
      HA_connection (ConnectionSelect_tree_ind (_aarAnnSelect sel))
  end

with ComputedFieldSelect_tree_ind (s : ComputedFieldSelect r v) : PC s :=
  match s as s0 return PC s0 with
  | CFSScalar sel caseBoolExp => HC_scalar sel caseBoolExp
  | CFSTable agg sel =>
      HC_table agg (ForallFields_all AnnFieldG_tree_ind (_asnFields sel))
  end

with TableAggregateFieldG_tree_ind (s : TableAggregateFieldG r v) : PT s :=
  match s as s0 return PT s0 with
  | TAFAgg aggs => HT_agg aggs
  | TAFNodes x fields => HT_nodes x (ForallFields_all AnnFieldG_tree_ind fields)
  | TAFExp t => HT_exp t
  end

with ConnectionSelect_tree_ind (s : ConnectionSelect r v) : PS s :=
  match s as s0 return PS s0 with
  | mkConnectionSelect x pk split slice sel =>
      HS_select x pk split slice
        (ForallFields_all ConnectionField_tree_ind (_asnFields sel))
  end

with ConnectionField_tree_ind (s : ConnectionField r v) : PCF s :=
  match s as s0 return PCF s0 with
  | ConnectionTypename t => HCF_typename t
  | ConnectionPageInfo fields => HCF_pageInfo fields
  | ConnectionEdges edges =>
      HCF_edges (ForallFields_all EdgeField_tree_ind edges)
  end

with EdgeField_tree_ind (s : EdgeField r v) : PE s :=
  match s as s0 return PE s0 with
  | EdgeTypename t => HE_typename t
  | EdgeCursor => HE_cursor
  | EdgeNode fields => HE_node (ForallFields_all AnnFieldG_tree_ind fields)
  end.

Lemma field_tree_ind :
  (forall x, PF x) /\ (forall x, PO x) /\ (forall x, PA x) /\ (forall x, PC x)
  /\ (forall x, PT x) /\ (forall x, PS x) /\ (forall x, PCF x) /\ (forall x, PE x).
Proof using All.
  repeat split.
  - exact AnnFieldG_tree_ind.
  - exact AnnObjectSelectG_tree_ind.
  - exact ArraySelectG_tree_ind.
  - exact ComputedFieldSelect_tree_ind.
  - exact TableAggregateFieldG_tree_ind.
  - exact ConnectionSelect_tree_ind.
  - exact ConnectionField_tree_ind.
  - exact EdgeField_tree_ind.
Qed.
End FieldTreeInduction.

(** ** Lemmas on the folds *)

Section FoldLemmas.
Context {M : Type} `{MonoidLaws M}.

Lemma foldMapList_app {A : Type} (f : A -> M) (l1 l2 : list A) :
  foldMapList f (l1 ++ l2) = foldMapList f l1 <+> foldMapList f l2.
Proof.
  induction l1 as [|x l1 IH]; simpl.
  - now rewrite mappend_mempty_l.
  - now rewrite IH, mappend_assoc.
Qed.

Lemma foldMapList_mempty {A : Type} (h : A -> M) (l : list A) :
  (forall x, h x = mempty) -> foldMapList h l = mempty.
Proof.
  intros Hh. induction l as [|x l IH]; simpl; [reflexivity|].
  now rewrite Hh, IH, mappend_mempty_l.
Qed.

Lemma foldMapList_flat_map {A B : Type} (f : B -> M) (h : A -> list B) (l : list A) :
  foldMapList f (flat_map h l) = foldMapList (fun x => foldMapList f (h x)) l.
Proof.
  induction l as [|x l IH]; simpl; [reflexivity|].
  now rewrite foldMapList_app, IH.
Qed.

Lemma foldMapMaybe_mempty {A : Type} (h : A -> M) (o : option A) :
  (forall x, h x = mempty) -> foldMapMaybe h o = mempty.
Proof. intros Hh. destruct o; simpl; auto. Qed.

Lemma foldMapNonEmpty_mempty {A : Type} (h : A -> M) (ne : NonEmpty A) :
  (forall x, h x = mempty) -> foldMapNonEmpty h ne = mempty.
Proof.
  intros Hh. unfold foldMapNonEmpty.
  now rewrite Hh, foldMapList_mempty, mappend_mempty_l.
Qed.

Lemma foldMapC_mempty {F : Type -> Type} `{Container F} {A : Type}
    (h : A -> M) (t : F A) :
  (forall x, h x = mempty) -> foldMapC h t = mempty.
Proof. intros Hh. unfold foldMapC. now apply foldMapList_mempty. Qed.

Lemma foldMapHashMap_mempty {A : Type} (h : A -> M) (m : HashMapText A) :
  (forall x, h x = mempty) -> foldMapHashMap h m = mempty.
Proof. intros Hh. unfold foldMapHashMap. now apply foldMapList_mempty. Qed.
End FoldLemmas.

(** A fold is determined by the values of its function on the elements. *)
Lemma foldMapList_ext_Forall {M : Type} `{Monoid M} {A : Type} (f f' : A -> M)
    (l : list A) :
  Forall (fun x => f x = f' x) l -> foldMapList f l = foldMapList f' l.
Proof.
  induction 1 as [|x l Hx _ IH]; simpl; [reflexivity|].
  now rewrite Hx, IH.
Qed.

Lemma foldMapFields_ext {b : Backend} {ir : Imports b} {M : Type} `{Monoid M}
    {A : Type} (f f' : A -> M) (l : Fields A) :
  ForallFields (fun x => f x = f' x) l ->
  foldMapList (foldMapPair f) l = foldMapList (foldMapPair f') l.
Proof.
  intros Hl. apply foldMapList_ext_Forall.
  unfold ForallFields in Hl.
  induction Hl as [|[k x] l Hx _ IH]; constructor; auto.
Qed.

(** Folding a function that yields [mempty] everywhere over the leaves. *)
Section EmptyLeafFolds.
Context {b : Backend} {ir : Imports b} {M : Type} `{MonoidLaws M}.
Context {v : Type} (g : v -> M) (Hg : forall x, g x = mempty).

Lemma foldMapAnnBoolExp_mempty (e : AnnBoolExp v) :
  foldMapAnnBoolExp g e = mempty.
Proof using All.
  unfold foldMapAnnBoolExp. apply foldMapC_mempty.
  intros x. now apply foldMapC_mempty.
Qed.

Lemma foldMapAnnColumnCaseBoolExp_mempty (e : AnnColumnCaseBoolExp v) :
  foldMapAnnColumnCaseBoolExp g e = mempty.
Proof using All.
  unfold foldMapAnnColumnCaseBoolExp. apply foldMapC_mempty.
  intros x. now apply foldMapC_mempty.
Qed.

Lemma foldMapFunctionArgsExp_mempty (e : FunctionArgsExpOf v) :
  foldMapFunctionArgsExp g e = mempty.
Proof using All.
  unfold foldMapFunctionArgsExp, foldMapFunctionArgsExpG.
  rewrite foldMapList_mempty, foldMapHashMap_mempty.
  - apply mappend_mempty_l.
  - intros x. now apply foldMapC_mempty.
  - intros x. now apply foldMapC_mempty.
Qed.

Lemma foldMapAnnotatedOrderByElement_mempty (e : AnnotatedOrderByElement v) :
  foldMapAnnotatedOrderByElement g e = mempty.
Proof using All.
  induction e as [col|rel perm el IH|rel perm agg|cf]; simpl.
  - reflexivity.
  - now rewrite foldMapAnnBoolExp_mempty, IH, mappend_mempty_l.
  - apply foldMapAnnBoolExp_mempty.
  - unfold foldMapComputedFieldOrderBy.
    rewrite foldMapFunctionArgsExp_mempty, mappend_mempty_l.
    destruct (_cfobOrderByElement cf); simpl;
      [reflexivity | apply foldMapAnnBoolExp_mempty].
Qed.

Lemma foldMapAnnotatedOrderByItemG_mempty (i : AnnotatedOrderByItemG v) :
  foldMapAnnotatedOrderByItemG g i = mempty.
Proof using All.
  apply foldMapC_mempty, foldMapAnnotatedOrderByElement_mempty.
Qed.

Lemma foldMapTablePermG_mempty (p : TablePermG v) : foldMapTablePermG g p = mempty.
Proof using All. apply foldMapAnnBoolExp_mempty. Qed.

Lemma foldMapSelectFromG_mempty (s : SelectFromG v) : foldMapSelectFromG g s = mempty.
Proof using All.
  destruct s; simpl; try reflexivity.
  - apply foldMapFunctionArgsExp_mempty.
  - now apply foldMapC_mempty.
Qed.

Lemma foldMapSelectArgsG_mempty (a : SelectArgsG v) : foldMapSelectArgsG g a = mempty.
Proof using All.
  unfold foldMapSelectArgsG.
  rewrite !foldMapMaybe_mempty.
  - apply mappend_mempty_l.
  - intros ne. apply foldMapNonEmpty_mempty, foldMapAnnotatedOrderByItemG_mempty.
  - apply foldMapAnnBoolExp_mempty.
Qed.

Lemma foldMapSelectStreamArgsG_mempty (a : SelectStreamArgsG v) :
  foldMapSelectStreamArgsG g a = mempty.
Proof using All.
  apply foldMapMaybe_mempty, foldMapAnnBoolExp_mempty.
Qed.

Lemma foldMapConnectionSplit_mempty (s : ConnectionSplit v) :
  foldMapConnectionSplit g s = mempty.
Proof using All.
  unfold foldMapConnectionSplit.
  now rewrite Hg, foldMapAnnotatedOrderByItemG_mempty, mappend_mempty_l.
Qed.

Lemma foldMapAnnColumnField_mempty (c : AnnColumnField v) :
  foldMapAnnColumnField g c = mempty.
Proof using All.
  apply foldMapMaybe_mempty, foldMapAnnColumnCaseBoolExp_mempty.
Qed.
End EmptyLeafFolds.

(** ** The bifold against the derived fold and against the remote occurrences *)

Section BifoldLeaves.
Context {b : Backend} {ir : Imports b} {M : Type} `{Monoid M}.
Context {r v : Type} (g : v -> M).

Local Abbreviation f0 := (fun _ : r => mempty).

Lemma bifoldMapAnnSelectG_leaves {fld : Type}
    (bf : (r -> M) -> (v -> M) -> fld -> M) (ff : fld -> M)
    (s : AnnSelectG fld v) :
  ForallFields (fun x => bf f0 g x = ff x) (_asnFields s) ->
  bifoldMapAnnSelectG bf f0 g s = foldMapAnnSelectG ff g s.
Proof.
  intros Hs. unfold bifoldMapAnnSelectG, foldMapAnnSelectG, foldMapFields.
  now rewrite (foldMapFields_ext Hs).
Qed.

Lemma bifoldMapAnnSelectStreamG_leaves {fld : Type}
    (bf : (r -> M) -> (v -> M) -> fld -> M) (ff : fld -> M)
    (s : AnnSelectStreamG fld v) :
  ForallFields (fun x => bf f0 g x = ff x) (_assnFields s) ->
  bifoldMapAnnSelectStreamG bf f0 g s = foldMapAnnSelectStreamG ff g s.
Proof.
  intros Hs. unfold bifoldMapAnnSelectStreamG, foldMapAnnSelectStreamG, foldMapFields.
  now rewrite (foldMapFields_ext Hs).
Qed.

Lemma bifoldMap_leaves_tree :
  (forall x, bifoldMapAnnFieldG f0 g x = foldMapAnnFieldG g x)
  /\ (forall x, bifoldMapAnnObjectSelectG f0 g x = foldMapAnnObjectSelectG g x)
  /\ (forall x, bifoldMapArraySelectG f0 g x = foldMapArraySelectG g x)
  /\ (forall x, bifoldMapComputedFieldSelect f0 g x = foldMapComputedFieldSelect g x)
  /\ (forall x, bifoldMapTableAggregateFieldG f0 g x = foldMapTableAggregateFieldG g x)
  /\ (forall x, bifoldMapConnectionSelect f0 g x = foldMapConnectionSelect g x)
  /\ (forall x, bifoldMapConnectionField f0 g x = foldMapConnectionField g x)
  /\ (forall x, bifoldMapEdgeField f0 g x = foldMapEdgeField g x).
Proof.
  apply field_tree_ind; intros; simpl; try reflexivity.
  - assumption.
  - assumption.
  - assumption.
  - unfold foldMapFields. now rewrite (foldMapFields_ext H0).
  - now apply bifoldMapAnnSelectG_leaves.
  - now apply bifoldMapAnnSelectG_leaves.
  - assumption.
  - now apply bifoldMapAnnSelectG_leaves.
  - unfold foldMapFields. now rewrite (foldMapFields_ext H0).
  - f_equal. now apply bifoldMapAnnSelectG_leaves.
  - unfold foldMapFields. now rewrite (foldMapFields_ext H0).
  - unfold foldMapFields. now rewrite (foldMapFields_ext H0).
Qed.

Lemma bifoldMapQueryDB_leaves (q : QueryDB r v) :
  bifoldMapQueryDB f0 g q = foldMapQueryDB g q.
Proof.
  destruct bifoldMap_leaves_tree as (HF & _ & _ & _ & HT & HS & _ & _).
  destruct q; simpl.
  - apply bifoldMapAnnSelectG_leaves, ForallFields_all, HF.
  - apply bifoldMapAnnSelectG_leaves, ForallFields_all, HF.
  - apply bifoldMapAnnSelectG_leaves, ForallFields_all, HT.
  - apply HS.
  - apply bifoldMapAnnSelectStreamG_leaves, ForallFields_all, HF.
Qed.
End BifoldLeaves.

Section BifoldRemotes.
Context {b : Backend} {ir : Imports b} {M : Type} `{MonoidLaws M}.
Context {r v : Type} (f : r -> M).

Local Abbreviation g0 := (fun _ : v => mempty).

Lemma foldMapFields_remotes {A : Type} (bf : A -> M) (rf : A -> list r)
    (l : Fields A) :
  ForallFields (fun x => bf x = foldMapList f (rf x)) l ->
  foldMapList (foldMapPair bf) l = foldMapList f (remotesFields rf l).
Proof.
  intros Hl. unfold remotesFields. rewrite foldMapList_flat_map.
  apply foldMapList_ext_Forall. unfold ForallFields in Hl.
  induction Hl as [|[k x] l Hx _ IH]; constructor; auto.
Qed.

Lemma bifoldMapAnnSelectG_remotes {fld : Type}
    (bf : (r -> M) -> (v -> M) -> fld -> M) (rf : fld -> list r)
    (s : AnnSelectG fld v) :
  ForallFields (fun x => bf f g0 x = foldMapList f (rf x)) (_asnFields s) ->
  bifoldMapAnnSelectG bf f g0 s = foldMapList f (remotesAnnSelectG rf s).
Proof.
  intros Hs. unfold bifoldMapAnnSelectG, remotesAnnSelectG.
  rewrite (foldMapFields_remotes Hs).
  rewrite foldMapSelectFromG_mempty, foldMapTablePermG_mempty,
    foldMapSelectArgsG_mempty by reflexivity.
  now rewrite !mappend_mempty_r.
Qed.

Lemma bifoldMapAnnSelectStreamG_remotes {fld : Type}
    (bf : (r -> M) -> (v -> M) -> fld -> M) (rf : fld -> list r)
    (s : AnnSelectStreamG fld v) :
  ForallFields (fun x => bf f g0 x = foldMapList f (rf x)) (_assnFields s) ->
  bifoldMapAnnSelectStreamG bf f g0 s
  = foldMapList f (remotesAnnSelectStreamG rf s).
Proof.
  intros Hs. unfold bifoldMapAnnSelectStreamG, remotesAnnSelectStreamG.
  rewrite (foldMapFields_remotes Hs).
  rewrite foldMapSelectFromG_mempty, foldMapTablePermG_mempty,
    foldMapSelectStreamArgsG_mempty by reflexivity.
  now rewrite !mappend_mempty_r.
Qed.

Lemma bifoldMap_remotes_tree :
  (forall x, bifoldMapAnnFieldG f g0 x = foldMapList f (remotesAnnFieldG x))
  /\ (forall x, bifoldMapAnnObjectSelectG f g0 x
                = foldMapList f (remotesAnnObjectSelectG x))
  /\ (forall x, bifoldMapArraySelectG f g0 x = foldMapList f (remotesArraySelectG x))
  /\ (forall x, bifoldMapComputedFieldSelect f g0 x
                = foldMapList f (remotesComputedFieldSelect x))
  /\ (forall x, bifoldMapTableAggregateFieldG f g0 x
                = foldMapList f (remotesTableAggregateFieldG x))
  /\ (forall x, bifoldMapConnectionSelect f g0 x
                = foldMapList f (remotesConnectionSelect x))
  /\ (forall x, bifoldMapConnectionField f g0 x
                = foldMapList f (remotesConnectionField x))
  /\ (forall x, bifoldMapEdgeField f g0 x = foldMapList f (remotesEdgeField x)).
Proof.
  apply field_tree_ind; intros; simpl; try reflexivity.
  - now apply foldMapAnnColumnField_mempty.
  - assumption.
  - assumption.
  - assumption.
  - unfold foldMapRemoteRelationshipSelect. now rewrite mappend_mempty_r.
  - rewrite (foldMapFields_remotes H1).
    change (foldMapC (foldMapC g0) filter) with (foldMapAnnBoolExp g0 filter).
    rewrite foldMapAnnBoolExp_mempty by reflexivity.
    now rewrite mappend_mempty_r.
  - now apply bifoldMapAnnSelectG_remotes.
  - now apply bifoldMapAnnSelectG_remotes.
  - assumption.
  - unfold foldMapComputedFieldScalarSelect.
    rewrite foldMapFunctionArgsExp_mempty by reflexivity.
    rewrite foldMapMaybe_mempty; [apply mappend_mempty_l|].
    intros e. apply (foldMapAnnColumnCaseBoolExp_mempty (g:=g0)). reflexivity.
  - now apply bifoldMapAnnSelectG_remotes.
  - now apply foldMapFields_remotes.
  - rewrite foldMapMaybe_mempty.
    + rewrite mappend_mempty_l. now apply bifoldMapAnnSelectG_remotes.
    + intros ne. apply foldMapNonEmpty_mempty.
      intros s. now apply foldMapConnectionSplit_mempty.
  - now apply foldMapFields_remotes.
  - now apply foldMapFields_remotes.
Qed.

Lemma bifoldMapQueryDB_remotes (q : QueryDB r v) :
  bifoldMapQueryDB f g0 q = foldMapList f (remotesQueryDB q).
Proof.
  destruct bifoldMap_remotes_tree as (HF & _ & _ & _ & HT & HS & _ & _).
  destruct q; simpl.
  - apply bifoldMapAnnSelectG_remotes, ForallFields_all, HF.
  - apply bifoldMapAnnSelectG_remotes, ForallFields_all, HF.
  - apply bifoldMapAnnSelectG_remotes, ForallFields_all, HT.
  - apply HS.
  - apply bifoldMapAnnSelectStreamG_remotes, ForallFields_all, HF.
Qed.
End BifoldRemotes.

Lemma foldMapList_singleton {A : Type} (l : list A) :
  foldMapList (fun x => [x]) l = l.
Proof. induction l as [|x l IH]; simpl; [reflexivity | now rewrite IH]. Qed.

(** ** The functor laws *)

Section PreludeFunctorLaws.
Lemma map_id_ext {A : Type} (h : A -> A) (l : list A) :
  (forall x, h x = x) -> List.map h l = l.
Proof.
  intros Hh. induction l as [|x l IH]; simpl; [reflexivity|].
  now rewrite Hh, IH.
Qed.

Lemma map_comp_ext {A B C : Type} (f : A -> B) (g : B -> C) (h : A -> C)
    (l : list A) :
  (forall x, h x = g (f x)) -> List.map g (List.map f l) = List.map h l.
Proof.
  intros Hh. induction l as [|x l IH]; simpl; [reflexivity|].
  now rewrite Hh, IH.
Qed.

Lemma fmapMaybe_id_ext {A : Type} (h : A -> A) (o : option A) :
  (forall x, h x = x) -> fmapMaybe h o = o.
Proof. intros Hh. destruct o; simpl; [now rewrite Hh | reflexivity]. Qed.

Lemma fmapMaybe_comp_ext {A B C : Type} (f : A -> B) (g : B -> C) (h : A -> C)
    (o : option A) :
  (forall x, h x = g (f x)) -> fmapMaybe g (fmapMaybe f o) = fmapMaybe h o.
Proof. intros Hh. destruct o; simpl; [now rewrite Hh | reflexivity]. Qed.

Lemma fmapNonEmpty_id_ext {A : Type} (h : A -> A) (ne : NonEmpty A) :
  (forall x, h x = x) -> fmapNonEmpty h ne = ne.
Proof.
  intros Hh. destruct ne as [x l]. unfold fmapNonEmpty; simpl.
  now rewrite Hh, map_id_ext.
Qed.

Lemma fmapNonEmpty_comp_ext {A B C : Type} (f : A -> B) (g : B -> C)
    (h : A -> C) (ne : NonEmpty A) :
  (forall x, h x = g (f x)) ->
  fmapNonEmpty g (fmapNonEmpty f ne) = fmapNonEmpty h ne.
Proof.
  intros Hh. destruct ne as [x l]. unfold fmapNonEmpty; simpl.
  now rewrite Hh, (map_comp_ext (h:=h)).
Qed.

Lemma fmapHashMap_id_ext {A : Type} (h : A -> A) (m : HashMapText A) :
  (forall x, h x = x) -> h <$> m = m.
Proof.
  intros Hh. rewrite <- (map_fmap_id m) at 2.
  apply map_fmap_ext. intros i x _. apply Hh.
Qed.

Lemma fmapHashMap_comp_ext {A B C : Type} (f : A -> B) (g : B -> C)
    (h : A -> C) (m : HashMapText A) :
  (forall x, h x = g (f x)) -> g <$> (f <$> m) = h <$> m.
Proof.
  intros Hh. rewrite <- map_fmap_compose.
  apply map_fmap_ext. intros i x _. symmetry. apply Hh.
Qed.
End PreludeFunctorLaws.

Section LeafFunctorLaws.
Context {b : Backend} {ir : Imports b} {laws : LawfulImports ir}.

Section Identity.
Context {v : Type} (h : v -> v) (Hh : forall x, h x = x).

Lemma fmapAnnBoolExp_id (e : AnnBoolExp v) : fmapAnnBoolExp h e = e.
Proof using All.
  unfold fmapAnnBoolExp. apply (cmap_id (F:=GBoolExp)).
  intros x. now apply (cmap_id (F:=AnnBoolExpFld)).
Qed.

Lemma fmapAnnColumnCaseBoolExp_id (e : AnnColumnCaseBoolExp v) :
  fmapAnnColumnCaseBoolExp h e = e.
Proof using All.
  unfold fmapAnnColumnCaseBoolExp. apply (cmap_id (F:=GBoolExp)).
  intros x. now apply (cmap_id (F:=AnnColumnCaseBoolExpField)).
Qed.

Lemma fmapFunctionArgsExp_id (e : FunctionArgsExpOf v) :
  fmapFunctionArgsExp h e = e.
Proof using All.
  destruct e as [p n]. unfold fmapFunctionArgsExp, fmapFunctionArgsExpG; simpl.
  rewrite map_id_ext, fmapHashMap_id_ext; try reflexivity;
    intros x; now apply cmap_id.
Qed.

Lemma fmapComputedFieldOrderByElement_id (e : ComputedFieldOrderByElement v) :
  fmapComputedFieldOrderByElement h e = e.
Proof using All.
  destruct e; simpl; [reflexivity | now rewrite fmapAnnBoolExp_id].
Qed.

Lemma fmapComputedFieldOrderBy_id (c : ComputedFieldOrderBy v) :
  fmapComputedFieldOrderBy h c = c.
Proof using All.
  destruct c. unfold fmapComputedFieldOrderBy; simpl.
  now rewrite fmapFunctionArgsExp_id, fmapComputedFieldOrderByElement_id.
Qed.

Lemma fmapAnnotatedOrderByElement_id (e : AnnotatedOrderByElement v) :
  fmapAnnotatedOrderByElement h e = e.
Proof using All.
  induction e as [col|rel perm el IH|rel perm agg|cf]; simpl.
  - reflexivity.
  - now rewrite fmapAnnBoolExp_id, IH.
  - now rewrite fmapAnnBoolExp_id.
  - now rewrite fmapComputedFieldOrderBy_id.
Qed.

Lemma fmapAnnotatedOrderByItemG_id (i : AnnotatedOrderByItemG v) :
  fmapAnnotatedOrderByItemG h i = i.
Proof using All.
  apply (cmap_id (F:=OrderByItemG)), fmapAnnotatedOrderByElement_id.
Qed.

Lemma fmapTablePermG_id (p : TablePermG v) : fmapTablePermG h p = p.
Proof using All.
  destruct p. unfold fmapTablePermG; simpl. now rewrite fmapAnnBoolExp_id.
Qed.

Lemma fmapSelectFromG_id (s : SelectFromG v) : fmapSelectFromG h s = s.
Proof using All.
  destruct s; simpl; try reflexivity.
  - now rewrite fmapFunctionArgsExp_id.
  - f_equal. now apply cmap_id.
Qed.

Lemma fmapSelectArgsG_id (a : SelectArgsG v) : fmapSelectArgsG h a = a.
Proof using All.
  destruct a. unfold fmapSelectArgsG; simpl.
  rewrite !fmapMaybe_id_ext; try reflexivity.
  - intros ne. apply fmapNonEmpty_id_ext, fmapAnnotatedOrderByItemG_id.
  - apply fmapAnnBoolExp_id.
Qed.

Lemma fmapSelectStreamArgsG_id (a : SelectStreamArgsG v) :
  fmapSelectStreamArgsG h a = a.
Proof using All.
  destruct a. unfold fmapSelectStreamArgsG; simpl.
  rewrite fmapMaybe_id_ext; [reflexivity | apply fmapAnnBoolExp_id].
Qed.

Lemma fmapConnectionSplit_id (s : ConnectionSplit v) : fmapConnectionSplit h s = s.
Proof using All.
  destruct s. unfold fmapConnectionSplit; simpl.
  now rewrite Hh, fmapAnnotatedOrderByItemG_id.
Qed.

Lemma fmapAnnColumnField_id (c : AnnColumnField v) : fmapAnnColumnField h c = c.
Proof using All.
  destruct c. unfold fmapAnnColumnField; simpl.
  rewrite fmapMaybe_id_ext; [reflexivity | apply fmapAnnColumnCaseBoolExp_id].
Qed.

Lemma fmapComputedFieldScalarSelect_id (c : ComputedFieldScalarSelect v) :
  fmapComputedFieldScalarSelect h c = c.
Proof using All.
  destruct c. unfold fmapComputedFieldScalarSelect; simpl.
  now rewrite fmapFunctionArgsExp_id.
Qed.
End Identity.

Section Composition.
Context {u v w : Type} (f : u -> v) (g : v -> w) (h : u -> w).
Context (Hh : forall x, h x = g (f x)).

Lemma fmapAnnBoolExp_comp (e : AnnBoolExp u) :
  fmapAnnBoolExp g (fmapAnnBoolExp f e) = fmapAnnBoolExp h e.
Proof using All.
  unfold fmapAnnBoolExp. apply (cmap_comp (F:=GBoolExp)).
  intros x. symmetry. now apply (cmap_comp (F:=AnnBoolExpFld)).
Qed.

Lemma fmapAnnColumnCaseBoolExp_comp (e : AnnColumnCaseBoolExp u) :
  fmapAnnColumnCaseBoolExp g (fmapAnnColumnCaseBoolExp f e)
  = fmapAnnColumnCaseBoolExp h e.
Proof using All.
  unfold fmapAnnColumnCaseBoolExp. apply (cmap_comp (F:=GBoolExp)).
  intros x. symmetry. now apply (cmap_comp (F:=AnnColumnCaseBoolExpField)).
Qed.

Lemma fmapFunctionArgsExp_comp (e : FunctionArgsExpOf u) :
  fmapFunctionArgsExp g (fmapFunctionArgsExp f e) = fmapFunctionArgsExp h e.
Proof using All.
  destruct e as [p n]. unfold fmapFunctionArgsExp, fmapFunctionArgsExpG; simpl.
  rewrite (map_comp_ext (h:=cmap (F:=FunctionArgumentExp) h)),
    (fmapHashMap_comp_ext (h:=cmap (F:=FunctionArgumentExp) h));
    try reflexivity; intros x; symmetry; now apply cmap_comp.
Qed.

Lemma fmapComputedFieldOrderByElement_comp (e : ComputedFieldOrderByElement u) :
  fmapComputedFieldOrderByElement g (fmapComputedFieldOrderByElement f e)
  = fmapComputedFieldOrderByElement h e.
Proof using All.
  destruct e; simpl; [reflexivity | now rewrite fmapAnnBoolExp_comp].
Qed.

Lemma fmapComputedFieldOrderBy_comp (c : ComputedFieldOrderBy u) :
  fmapComputedFieldOrderBy g (fmapComputedFieldOrderBy f c)
  = fmapComputedFieldOrderBy h c.
Proof using All.
  destruct c. unfold fmapComputedFieldOrderBy; simpl.
  now rewrite fmapFunctionArgsExp_comp, fmapComputedFieldOrderByElement_comp.
Qed.

Lemma fmapAnnotatedOrderByElement_comp (e : AnnotatedOrderByElement u) :
  fmapAnnotatedOrderByElement g (fmapAnnotatedOrderByElement f e)
  = fmapAnnotatedOrderByElement h e.
Proof using All.
  induction e as [col|rel perm el IH|rel perm agg|cf]; simpl.
  - reflexivity.
  - now rewrite fmapAnnBoolExp_comp, IH.
  - now rewrite fmapAnnBoolExp_comp.
  - now rewrite fmapComputedFieldOrderBy_comp.
Qed.

Lemma fmapAnnotatedOrderByItemG_comp (i : AnnotatedOrderByItemG u) :
  fmapAnnotatedOrderByItemG g (fmapAnnotatedOrderByItemG f i)
  = fmapAnnotatedOrderByItemG h i.
Proof using All.
  apply (cmap_comp (F:=OrderByItemG)).
  intros x. symmetry. apply fmapAnnotatedOrderByElement_comp.
Qed.

Lemma fmapTablePermG_comp (p : TablePermG u) :
  fmapTablePermG g (fmapTablePermG f p) = fmapTablePermG h p.
Proof using All.
  destruct p. unfold fmapTablePermG; simpl. now rewrite fmapAnnBoolExp_comp.
Qed.

Lemma fmapSelectFromG_comp (s : SelectFromG u) :
  fmapSelectFromG g (fmapSelectFromG f s) = fmapSelectFromG h s.
Proof using All.
  destruct s; simpl; try reflexivity.
  - now rewrite fmapFunctionArgsExp_comp.
  - f_equal. now apply cmap_comp.
Qed.

Lemma fmapSelectArgsG_comp (a : SelectArgsG u) :
  fmapSelectArgsG g (fmapSelectArgsG f a) = fmapSelectArgsG h a.
Proof using All.
  destruct a. unfold fmapSelectArgsG; simpl.
  rewrite (fmapMaybe_comp_ext (h:=fmapAnnBoolExp h)),
    (fmapMaybe_comp_ext (h:=fmapNonEmpty (fmapAnnotatedOrderByItemG h)));
    try reflexivity.
  - intros ne. symmetry. apply fmapNonEmpty_comp_ext.
    intros i. symmetry. apply fmapAnnotatedOrderByItemG_comp.
  - intros e. symmetry. apply fmapAnnBoolExp_comp.
Qed.

Lemma fmapSelectStreamArgsG_comp (a : SelectStreamArgsG u) :
  fmapSelectStreamArgsG g (fmapSelectStreamArgsG f a) = fmapSelectStreamArgsG h a.
Proof using All.
  destruct a. unfold fmapSelectStreamArgsG; simpl.
  rewrite (fmapMaybe_comp_ext (h:=fmapAnnBoolExp h)); [reflexivity|].
  intros e. symmetry. apply fmapAnnBoolExp_comp.
Qed.

Lemma fmapConnectionSplit_comp (s : ConnectionSplit u) :
  fmapConnectionSplit g (fmapConnectionSplit f s) = fmapConnectionSplit h s.
Proof using All.
  destruct s. unfold fmapConnectionSplit; simpl.
  now rewrite Hh, fmapAnnotatedOrderByItemG_comp.
Qed.

Lemma fmapAnnColumnField_comp (c : AnnColumnField u) :
  fmapAnnColumnField g (fmapAnnColumnField f c) = fmapAnnColumnField h c.
Proof using All.
  destruct c. unfold fmapAnnColumnField; simpl.
  rewrite (fmapMaybe_comp_ext (h:=fmapAnnColumnCaseBoolExp h)); [reflexivity|].
  intros e. symmetry. apply fmapAnnColumnCaseBoolExp_comp.
Qed.

Lemma fmapComputedFieldScalarSelect_comp (c : ComputedFieldScalarSelect u) :
  fmapComputedFieldScalarSelect g (fmapComputedFieldScalarSelect f c)
  = fmapComputedFieldScalarSelect h c.
Proof using All.
  destruct c. unfold fmapComputedFieldScalarSelect; simpl.
  now rewrite fmapFunctionArgsExp_comp.
Qed.
End Composition.
End LeafFunctorLaws.

Section TreeFunctorLaws.
Context {b : Backend} {ir : Imports b} {laws : LawfulImports ir}.

Lemma fmapFields_id {A : Type} (ff : A -> A) (l : Fields A) :
  ForallFields (fun x => ff x = x) l -> fmapFields ff l = l.
Proof.
  unfold ForallFields, fmapFields.
  induction 1 as [|[k x] l Hx _ IH]; simpl in *; [reflexivity|].
  now rewrite Hx, IH.
Qed.

Lemma fmapFields_comp {A B C : Type} (ff : A -> B) (gg : B -> C) (hh : A -> C)
    (l : Fields A) :
  ForallFields (fun x => gg (ff x) = hh x) l ->
  fmapFields gg (fmapFields ff l) = fmapFields hh l.
Proof.
  unfold ForallFields, fmapFields.
  induction 1 as [|[k x] l Hx _ IH]; simpl in *; [reflexivity|].
  now rewrite Hx, IH.
Qed.

Lemma fmapAnnSelectG_id {fld v : Type} (ff : fld -> fld) (h : v -> v)
    (s : AnnSelectG fld v) :
  (forall x, h x = x) ->
  ForallFields (fun x => ff x = x) (_asnFields s) ->
  fmapAnnSelectG ff h s = s.
Proof.
  intros Hh Hs. destruct s; unfold fmapAnnSelectG; simpl in *.
  now rewrite fmapFields_id, fmapSelectFromG_id, fmapTablePermG_id,
    fmapSelectArgsG_id.
Qed.

Lemma fmapAnnSelectG_comp {fld fld' fld'' u v w : Type}
    (ff : fld -> fld') (gg : fld' -> fld'') (hh : fld -> fld'')
    (f : u -> v) (g : v -> w) (h : u -> w) (s : AnnSelectG fld u) :
  (forall x, h x = g (f x)) ->
  ForallFields (fun x => gg (ff x) = hh x) (_asnFields s) ->
  fmapAnnSelectG gg g (fmapAnnSelectG ff f s) = fmapAnnSelectG hh h s.
Proof.
  intros Hh Hs. destruct s; unfold fmapAnnSelectG; simpl in *.
  now rewrite (fmapFields_comp Hs), (fmapSelectFromG_comp Hh),
    (fmapTablePermG_comp Hh), (fmapSelectArgsG_comp Hh).
Qed.

Lemma fmapAnnSelectStreamG_id {fld v : Type} (ff : fld -> fld) (h : v -> v)
    (s : AnnSelectStreamG fld v) :
  (forall x, h x = x) ->
  ForallFields (fun x => ff x = x) (_assnFields s) ->
  fmapAnnSelectStreamG ff h s = s.
Proof.
  intros Hh Hs. destruct s; unfold fmapAnnSelectStreamG; simpl in *.
  now rewrite fmapFields_id, fmapSelectFromG_id, fmapTablePermG_id,
    fmapSelectStreamArgsG_id.
Qed.

Lemma fmapAnnSelectStreamG_comp {fld fld' fld'' u v w : Type}
    (ff : fld -> fld') (gg : fld' -> fld'') (hh : fld -> fld'')
    (f : u -> v) (g : v -> w) (h : u -> w) (s : AnnSelectStreamG fld u) :
  (forall x, h x = g (f x)) ->
  ForallFields (fun x => gg (ff x) = hh x) (_assnFields s) ->
  fmapAnnSelectStreamG gg g (fmapAnnSelectStreamG ff f s)
  = fmapAnnSelectStreamG hh h s.
Proof.
  intros Hh Hs. destruct s; unfold fmapAnnSelectStreamG; simpl in *.
  now rewrite (fmapFields_comp Hs), (fmapSelectFromG_comp Hh),
    (fmapTablePermG_comp Hh), (fmapSelectStreamArgsG_comp Hh).
Qed.

Lemma fmapAnnRelationSelectG_id {A : Type} (ff : A -> A)
    (s : AnnRelationSelectG A) :
  ff (_aarAnnSelect s) = _aarAnnSelect s -> fmapAnnRelationSelectG ff s = s.
Proof.
  destruct s; unfold fmapAnnRelationSelectG; simpl. now intros ->.
Qed.

Lemma fmapAnnRelationSelectG_comp {A B C : Type} (ff : A -> B) (gg : B -> C)
    (hh : A -> C) (s : AnnRelationSelectG A) :
  gg (ff (_aarAnnSelect s)) = hh (_aarAnnSelect s) ->
  fmapAnnRelationSelectG gg (fmapAnnRelationSelectG ff s)
  = fmapAnnRelationSelectG hh s.
Proof.
  destruct s; unfold fmapAnnRelationSelectG; simpl. now intros ->.
Qed.

Section Identity.
Context {r v : Type} (h : v -> v) (Hh : forall x, h x = x).

Lemma fmap_id_tree :
  (forall x : AnnFieldG r v, fmapAnnFieldG h x = x)
  /\ (forall x : AnnObjectSelectG r v, fmapAnnObjectSelectG h x = x)
  /\ (forall x : ArraySelectG r v, fmapArraySelectG h x = x)
  /\ (forall x : ComputedFieldSelect r v, fmapComputedFieldSelect h x = x)
  /\ (forall x : TableAggregateFieldG r v, fmapTableAggregateFieldG h x = x)
  /\ (forall x : ConnectionSelect r v, fmapConnectionSelect h x = x)
  /\ (forall x : ConnectionField r v, fmapConnectionField h x = x)
  /\ (forall x : EdgeField r v, fmapEdgeField h x = x).
Proof using All.
  apply field_tree_ind; intros; simpl; try reflexivity.
  - now rewrite fmapAnnColumnField_id.
  - now rewrite fmapAnnRelationSelectG_id.
  - now f_equal.
  - now f_equal.
  - now rewrite fmapFields_id, fmapAnnBoolExp_id.
  - now rewrite fmapAnnRelationSelectG_id by now apply fmapAnnSelectG_id.
  - now rewrite fmapAnnRelationSelectG_id by now apply fmapAnnSelectG_id.
  - now rewrite fmapAnnRelationSelectG_id.
  - rewrite fmapComputedFieldScalarSelect_id by assumption.
    rewrite fmapMaybe_id_ext; [reflexivity|].
    now apply fmapAnnColumnCaseBoolExp_id.
  - now rewrite fmapAnnSelectG_id.
  - now rewrite fmapFields_id.
  - rewrite fmapAnnSelectG_id by assumption.
    rewrite fmapMaybe_id_ext; [reflexivity|].
    intros ne. apply fmapNonEmpty_id_ext. now apply fmapConnectionSplit_id.
  - now rewrite fmapFields_id.
  - now rewrite fmapFields_id.
Qed.

Lemma fmapQueryDB_id (q : QueryDB r v) : fmapQueryDB h q = q.
Proof using All.
  destruct fmap_id_tree as (HF & _ & _ & _ & HT & HS & _ & _).
  destruct q; simpl; f_equal.
  - apply fmapAnnSelectG_id, ForallFields_all, HF; assumption.
  - apply fmapAnnSelectG_id, ForallFields_all, HF; assumption.
  - apply fmapAnnSelectG_id, ForallFields_all, HT; assumption.
  - apply HS.
  - apply fmapAnnSelectStreamG_id, ForallFields_all, HF; assumption.
Qed.
End Identity.

Section Composition.
Context {r u v w : Type} (f : u -> v) (g : v -> w) (h : u -> w).
Context (Hh : forall x, h x = g (f x)).

Lemma fmap_comp_tree :
  (forall x : AnnFieldG r u,
     fmapAnnFieldG g (fmapAnnFieldG f x) = fmapAnnFieldG h x)
  /\ (forall x : AnnObjectSelectG r u,
     fmapAnnObjectSelectG g (fmapAnnObjectSelectG f x) = fmapAnnObjectSelectG h x)
  /\ (forall x : ArraySelectG r u,
     fmapArraySelectG g (fmapArraySelectG f x) = fmapArraySelectG h x)
  /\ (forall x : ComputedFieldSelect r u,
     fmapComputedFieldSelect g (fmapComputedFieldSelect f x)
     = fmapComputedFieldSelect h x)
  /\ (forall x : TableAggregateFieldG r u,
     fmapTableAggregateFieldG g (fmapTableAggregateFieldG f x)
     = fmapTableAggregateFieldG h x)
  /\ (forall x : ConnectionSelect r u,
     fmapConnectionSelect g (fmapConnectionSelect f x) = fmapConnectionSelect h x)
  /\ (forall x : ConnectionField r u,
     fmapConnectionField g (fmapConnectionField f x) = fmapConnectionField h x)
  /\ (forall x : EdgeField r u,
     fmapEdgeField g (fmapEdgeField f x) = fmapEdgeField h x).
Proof using All.
  apply field_tree_ind; intros; simpl; try reflexivity.
  - now rewrite (fmapAnnColumnField_comp Hh).
  - now rewrite (fmapAnnRelationSelectG_comp (hh:=fmapAnnObjectSelectG h)).
  - now f_equal.
  - now f_equal.
  - now rewrite (fmapFields_comp H), (fmapAnnBoolExp_comp Hh).
  - f_equal. apply fmapAnnRelationSelectG_comp.
    now apply fmapAnnSelectG_comp.
  - f_equal. apply fmapAnnRelationSelectG_comp.
    now apply fmapAnnSelectG_comp.
  - f_equal. now apply fmapAnnRelationSelectG_comp.
  - rewrite (fmapComputedFieldScalarSelect_comp Hh).
    rewrite (fmapMaybe_comp_ext (h:=fmapAnnColumnCaseBoolExp h)); [reflexivity|].
    intros e. symmetry. now apply fmapAnnColumnCaseBoolExp_comp.
  - f_equal. now apply fmapAnnSelectG_comp.
  - now rewrite (fmapFields_comp H).
  - rewrite (fmapAnnSelectG_comp (hh:=fmapConnectionField h) Hh H).
    rewrite (fmapMaybe_comp_ext (h:=fmapNonEmpty (fmapConnectionSplit h)));
      [reflexivity|].
    intros ne. symmetry. apply fmapNonEmpty_comp_ext.
    intros s. symmetry. now apply fmapConnectionSplit_comp.
  - now rewrite (fmapFields_comp H).
  - now rewrite (fmapFields_comp H).
Qed.

Lemma fmapQueryDB_comp (q : QueryDB r u) :
  fmapQueryDB g (fmapQueryDB f q) = fmapQueryDB h q.
Proof using All.
  destruct fmap_comp_tree as (HF & _ & _ & _ & HT & HS & _ & _).
  destruct q; simpl; f_equal.
  - apply fmapAnnSelectG_comp, ForallFields_all, HF; assumption.
  - apply fmapAnnSelectG_comp, ForallFields_all, HF; assumption.
  - apply fmapAnnSelectG_comp, ForallFields_all, HT; assumption.
  - apply HS.
  - apply fmapAnnSelectStreamG_comp, ForallFields_all, HF; assumption.
Qed.
End Composition.
End TreeFunctorLaws.

(** ** Folds through the list of leaves *)

Section LeafLists.
Context {b : Backend} {ir : Imports b} {M : Type} `{MonoidLaws M}.
Context {v : Type} (g : v -> M).

Lemma foldMapList_foldMapList {A : Type} (h : A -> list v) (l : list A) :
  foldMapList g (foldMapList h l) = foldMapList (fun x => foldMapList g (h x)) l.
Proof.
  induction l as [|x l IH]; simpl; [reflexivity|].
  now rewrite foldMapList_app, IH.
Qed.

Lemma foldMapList_ext {A : Type} (h h' : A -> M) (l : list A) :
  (forall x, h x = h' x) -> foldMapList h l = foldMapList h' l.
Proof.
  intros Hh. induction l as [|x l IH]; simpl; [reflexivity|].
  now rewrite Hh, IH.
Qed.

Lemma foldMapC_leaves {F : Type -> Type} `{Container F} (t : F v) :
  foldMapC g t = foldMapList g (foldMapC (fun x => [x]) t).
Proof. unfold foldMapC. now rewrite foldMapList_singleton. Qed.

Lemma foldMapAnnBoolExp_leaves (e : AnnBoolExp v) :
  foldMapAnnBoolExp g e = foldMapList g (foldMapAnnBoolExp (fun x => [x]) e).
Proof using All.
  unfold foldMapAnnBoolExp, foldMapC at 1 3.
  rewrite foldMapList_foldMapList.
  apply foldMapList_ext. intros x. apply foldMapC_leaves.
Qed.

Lemma foldMapFunctionArgsExp_leaves (e : FunctionArgsExpOf v) :
  foldMapFunctionArgsExp g e
  = foldMapList g (foldMapFunctionArgsExp (fun x => [x]) e).
Proof using All.
  unfold foldMapFunctionArgsExp, foldMapFunctionArgsExpG, foldMapHashMap.
  change (@mappend (list v) _) with (@app v).
  rewrite foldMapList_app, !foldMapList_foldMapList.
  f_equal; apply foldMapList_ext; intros x; apply foldMapC_leaves.
Qed.

Lemma foldMapAnnotatedOrderByElement_leaves (e : AnnotatedOrderByElement v) :
  foldMapAnnotatedOrderByElement g e
  = foldMapList g (foldMapAnnotatedOrderByElement (fun x => [x]) e).
Proof using All.
  induction e as [col|rel perm el IH|rel perm agg|cf]; simpl.
  - reflexivity.
  - now rewrite foldMapList_app, <- foldMapAnnBoolExp_leaves, <- IH.
  - apply foldMapAnnBoolExp_leaves.
  - unfold foldMapComputedFieldOrderBy.
    change (@mappend (list v) _) with (@app v).
    rewrite foldMapList_app, (foldMapFunctionArgsExp_leaves (_cfobFunctionArgsExp cf)).
    apply (f_equal (mappend _)).
    destruct (_cfobOrderByElement cf); simpl;
      [reflexivity | apply foldMapAnnBoolExp_leaves].
Qed.
End LeafLists.

Lemma foldMapList_count {A : Type} (l : list A) :
  foldMapList (fun _ => 1%nat) l = length l.
Proof. induction l as [|x l IH]; simpl; [reflexivity | now rewrite IH]. Qed.

Lemma foldMapMaybe_NonEmpty_list {A B : Type} (h : A -> list B)
    (o : option (NonEmpty A)) :
  foldMapMaybe (foldMapNonEmpty h) o
  = flat_map h (match o with None => [] | Some ne => neToList ne end).
Proof.
  destruct o as [[x l]|]; reflexivity.
Qed.

(** ** Folds commute with monoid homomorphisms *)

Section MonoidHom.
Context {N M : Type} {monN : Monoid N} {monM : Monoid M} (phi : N -> M).
Context (phi_mempty : phi mempty = mempty).
Context (phi_mappend : forall x y, phi (x <+> y) = phi x <+> phi y).

Lemma hom_foldMapList {A : Type} (h : A -> N) (h' : A -> M) (l : list A) :
  (forall x, phi (h x) = h' x) -> phi (foldMapList h l) = foldMapList h' l.
Proof using All.
  intros Hh. induction l as [|x l IH]; simpl; [assumption|].
  now rewrite phi_mappend, Hh, IH.
Qed.

Lemma hom_foldMapMaybe {A : Type} (h : A -> N) (h' : A -> M) (o : option A) :
  (forall x, phi (h x) = h' x) -> phi (foldMapMaybe h o) = foldMapMaybe h' o.
Proof using All. intros Hh. destruct o; simpl; auto. Qed.

Lemma hom_foldMapNonEmpty {A : Type} (h : A -> N) (h' : A -> M) (ne : NonEmpty A) :
  (forall x, phi (h x) = h' x) -> phi (foldMapNonEmpty h ne) = foldMapNonEmpty h' ne.
Proof using All.
  intros Hh. unfold foldMapNonEmpty.
  now rewrite phi_mappend, Hh, (hom_foldMapList (h':=h')).
Qed.

Lemma hom_foldMapC {F : Type -> Type} `{Container F} {A : Type}
    (h : A -> N) (h' : A -> M) (t : F A) :
  (forall x, phi (h x) = h' x) -> phi (foldMapC h t) = foldMapC h' t.
Proof using All. intros Hh. unfold foldMapC. now apply hom_foldMapList. Qed.

Context {b : Backend} {ir : Imports b} {v : Type} (g : v -> N) (g' : v -> M).
Context (Hg : forall x, phi (g x) = g' x).

Lemma hom_foldMapAnnBoolExp (e : AnnBoolExp v) :
  phi (foldMapAnnBoolExp g e) = foldMapAnnBoolExp g' e.
Proof using All.
  unfold foldMapAnnBoolExp. apply hom_foldMapC. intros x. now apply hom_foldMapC.
Qed.

Lemma hom_foldMapAnnColumnCaseBoolExp (e : AnnColumnCaseBoolExp v) :
  phi (foldMapAnnColumnCaseBoolExp g e) = foldMapAnnColumnCaseBoolExp g' e.
Proof using All.
  unfold foldMapAnnColumnCaseBoolExp. apply hom_foldMapC.
  intros x. now apply hom_foldMapC.
Qed.

Lemma hom_foldMapFunctionArgsExp (e : FunctionArgsExpOf v) :
  phi (foldMapFunctionArgsExp g e) = foldMapFunctionArgsExp g' e.
Proof using All.
  unfold foldMapFunctionArgsExp, foldMapFunctionArgsExpG, foldMapHashMap.
  rewrite phi_mappend.
  rewrite (hom_foldMapList (h':=foldMapC (F:=FunctionArgumentExp) g'))
    by (intros x; now apply hom_foldMapC).
  now rewrite (hom_foldMapList (h':=foldMapC (F:=FunctionArgumentExp) g'))
    by (intros x; now apply hom_foldMapC).
Qed.

Lemma hom_foldMapAnnotatedOrderByElement (e : AnnotatedOrderByElement v) :
  phi (foldMapAnnotatedOrderByElement g e) = foldMapAnnotatedOrderByElement g' e.
Proof using All.
  induction e as [col|rel perm el IH|rel perm agg|cf]; simpl.
  - assumption.
  - now rewrite phi_mappend, hom_foldMapAnnBoolExp, IH.
  - apply hom_foldMapAnnBoolExp.
  - unfold foldMapComputedFieldOrderBy.
    rewrite phi_mappend, hom_foldMapFunctionArgsExp.
    apply (f_equal (mappend _)).
    destruct (_cfobOrderByElement cf); simpl;
      [assumption | apply hom_foldMapAnnBoolExp].
Qed.

Lemma hom_foldMapSelectFromG (s : SelectFromG v) :
  phi (foldMapSelectFromG g s) = foldMapSelectFromG g' s.
Proof using All.
  destruct s; simpl; try assumption.
  - apply hom_foldMapFunctionArgsExp.
  - now apply hom_foldMapC.
Qed.

Lemma hom_foldMapTablePermG (p : TablePermG v) :
  phi (foldMapTablePermG g p) = foldMapTablePermG g' p.
Proof using All. apply hom_foldMapAnnBoolExp. Qed.

Lemma hom_foldMapAnnotatedOrderByItemG (i : AnnotatedOrderByItemG v) :
  phi (foldMapAnnotatedOrderByItemG g i) = foldMapAnnotatedOrderByItemG g' i.
Proof using All.
  apply hom_foldMapC. intros x. apply hom_foldMapAnnotatedOrderByElement.
Qed.

Lemma hom_foldMapSelectArgsG (a : SelectArgsG v) :
  phi (foldMapSelectArgsG g a) = foldMapSelectArgsG g' a.
Proof using All.
  unfold foldMapSelectArgsG. rewrite phi_mappend.
  rewrite (hom_foldMapMaybe (h':=foldMapAnnBoolExp g'))
    by apply hom_foldMapAnnBoolExp.
  apply (f_equal (mappend _)).
  apply hom_foldMapMaybe. intros ne. apply hom_foldMapNonEmpty.
  apply hom_foldMapAnnotatedOrderByItemG.
Qed.

Lemma hom_foldMapSelectStreamArgsG (a : SelectStreamArgsG v) :
  phi (foldMapSelectStreamArgsG g a) = foldMapSelectStreamArgsG g' a.
Proof using All. apply hom_foldMapMaybe, hom_foldMapAnnBoolExp. Qed.

Lemma hom_foldMapConnectionSplit (s : ConnectionSplit v) :
  phi (foldMapConnectionSplit g s) = foldMapConnectionSplit g' s.
Proof using All.
  unfold foldMapConnectionSplit.
  now rewrite phi_mappend, Hg, hom_foldMapAnnotatedOrderByItemG.
Qed.

Lemma hom_foldMapAnnColumnField (c : AnnColumnField v) :
  phi (foldMapAnnColumnField g c) = foldMapAnnColumnField g' c.
Proof using All. apply hom_foldMapMaybe, hom_foldMapAnnColumnCaseBoolExp. Qed.

Context {r : Type} (f : r -> N) (f' : r -> M).
Context (Hf : forall x, phi (f x) = f' x).

Lemma hom_foldMapFields {A : Type} (bf : A -> N) (bf' : A -> M) (l : Fields A) :
  ForallFields (fun x => phi (bf x) = bf' x) l ->
  phi (foldMapList (foldMapPair bf) l) = foldMapList (foldMapPair bf') l.
Proof using phi_mempty phi_mappend.
  unfold ForallFields. induction 1 as [|[k x] l Hx _ IH]; simpl in *; [assumption|].
  now rewrite phi_mappend, Hx, IH.
Qed.

Lemma hom_bifoldMapAnnSelectG {fld : Type}
    (bf : (r -> N) -> (v -> N) -> fld -> N) (bf' : (r -> M) -> (v -> M) -> fld -> M)
    (s : AnnSelectG fld v) :
  ForallFields (fun x => phi (bf f g x) = bf' f' g' x) (_asnFields s) ->
  phi (bifoldMapAnnSelectG bf f g s) = bifoldMapAnnSelectG bf' f' g' s.
Proof using All.
  intros Hs. unfold bifoldMapAnnSelectG.
  now rewrite !phi_mappend, (hom_foldMapFields Hs), hom_foldMapSelectFromG,
    hom_foldMapTablePermG, hom_foldMapSelectArgsG.
Qed.

Lemma hom_bifoldMapAnnSelectStreamG {fld : Type}
    (bf : (r -> N) -> (v -> N) -> fld -> N) (bf' : (r -> M) -> (v -> M) -> fld -> M)
    (s : AnnSelectStreamG fld v) :
  ForallFields (fun x => phi (bf f g x) = bf' f' g' x) (_assnFields s) ->
  phi (bifoldMapAnnSelectStreamG bf f g s) = bifoldMapAnnSelectStreamG bf' f' g' s.
Proof using All.
  intros Hs. unfold bifoldMapAnnSelectStreamG.
  now rewrite !phi_mappend, (hom_foldMapFields Hs), hom_foldMapSelectFromG,
    hom_foldMapTablePermG, hom_foldMapSelectStreamArgsG.
Qed.

Lemma hom_bifoldMap_tree :
  (forall x, phi (bifoldMapAnnFieldG f g x) = bifoldMapAnnFieldG f' g' x)
  /\ (forall x, phi (bifoldMapAnnObjectSelectG f g x)
                = bifoldMapAnnObjectSelectG f' g' x)
  /\ (forall x, phi (bifoldMapArraySelectG f g x) = bifoldMapArraySelectG f' g' x)
  /\ (forall x, phi (bifoldMapComputedFieldSelect f g x)
                = bifoldMapComputedFieldSelect f' g' x)
  /\ (forall x, phi (bifoldMapTableAggregateFieldG f g x)
                = bifoldMapTableAggregateFieldG f' g' x)
  /\ (forall x, phi (bifoldMapConnectionSelect f g x)
                = bifoldMapConnectionSelect f' g' x)
  /\ (forall x, phi (bifoldMapConnectionField f g x)
                = bifoldMapConnectionField f' g' x)
  /\ (forall x, phi (bifoldMapEdgeField f g x) = bifoldMapEdgeField f' g' x).
Proof using All.
  apply field_tree_ind; intros; simpl; try assumption.
  - apply hom_foldMapAnnColumnField.
  - apply Hf.
  - rewrite phi_mappend, (hom_foldMapFields H).
    apply (f_equal (mappend _)). apply hom_foldMapAnnBoolExp.
  - now apply hom_bifoldMapAnnSelectG.
  - now apply hom_bifoldMapAnnSelectG.
  - rewrite phi_mappend. unfold foldMapComputedFieldScalarSelect.
    rewrite hom_foldMapFunctionArgsExp. apply (f_equal (mappend _)).
    apply hom_foldMapMaybe. intros e. apply hom_foldMapAnnColumnCaseBoolExp.
  - now apply hom_bifoldMapAnnSelectG.
  - now apply hom_foldMapFields.
  - rewrite phi_mappend, (hom_bifoldMapAnnSelectG (bf':=bifoldMapConnectionField) H).
    apply (f_equal (fun z => z <+> _)).
    apply hom_foldMapMaybe. intros ne. apply hom_foldMapNonEmpty.
    apply hom_foldMapConnectionSplit.
  - now apply hom_foldMapFields.
  - now apply hom_foldMapFields.
Qed.

Lemma hom_bifoldMapQueryDB (q : QueryDB r v) :
  phi (bifoldMapQueryDB f g q) = bifoldMapQueryDB f' g' q.
Proof using All.
  destruct hom_bifoldMap_tree as (HF & _ & _ & _ & HT & HS & _ & _).
  destruct q; simpl.
  - apply hom_bifoldMapAnnSelectG, ForallFields_all, HF.
  - apply hom_bifoldMapAnnSelectG, ForallFields_all, HF.
  - apply hom_bifoldMapAnnSelectG, ForallFields_all, HT.
  - apply HS.
  - apply hom_bifoldMapAnnSelectStreamG, ForallFields_all, HF.
Qed.
End MonoidHom.

Lemma lefts_app {A B : Type} (l1 l2 : list (A + B)) :
  lefts (l1 ++ l2) = lefts l1 ++ lefts l2.
Proof. apply flat_map_app. Qed.

Lemma rights_app {A B : Type} (l1 l2 : list (A + B)) :
  rights (l1 ++ l2) = rights l1 ++ rights l2.
Proof. apply flat_map_app. Qed.

(** * The properties of the specification *)

(** C1 — Bifold completeness.  For every [QueryDB] tree, over any backend,
    remote-marker type [r] and leaf type [v], the bifold with collecting
    functions visits every embedded [r]-occurrence and every embedded
    [v]-occurrence exactly once each: collecting the remote markers yields
    the list of the [r]-positions of the tree, and collecting the leaves
    yields the list the derived [Foldable] instance enumerates; a single pass
    that collects both sides visits exactly these remote markers and exactly
    these leaves.  No field's occurrences are dropped. *)
Theorem bifold_completeness {b : Backend} {ir : Imports b} (r v : Type)
    (q : QueryDB r v) :
  bifoldMapQueryDB (fun x : r => [x]) (fun _ : v => []) q = remotesQueryDB q
  /\ bifoldMapQueryDB (fun _ : r => []) (fun x : v => [x]) q = leavesQueryDB q
  /\ lefts (occurrencesQueryDB q) = remotesQueryDB q
  /\ rights (occurrencesQueryDB q) = leavesQueryDB q.
Proof.
  assert (Hr : bifoldMapQueryDB (fun x : r => [x]) (fun _ : v => []) q
               = remotesQueryDB q).
  { rewrite <- (foldMapList_singleton (remotesQueryDB q)).
    exact (bifoldMapQueryDB_remotes (M:=list r) (fun x : r => [x]) q). }
  assert (Hv : bifoldMapQueryDB (fun _ : r => []) (fun x : v => [x]) q
               = leavesQueryDB q).
  { exact (bifoldMapQueryDB_leaves (M:=list v) (fun x : v => [x]) q). }
  repeat split; try assumption.
  - rewrite <- Hr. unfold occurrencesQueryDB.
    apply (hom_bifoldMapQueryDB (phi:=@lefts r v)); try reflexivity.
    apply lefts_app.
  - rewrite <- Hv. unfold occurrencesQueryDB.
    apply (hom_bifoldMapQueryDB (phi:=@rights r v)); try reflexivity.
    apply rights_app.
Qed.

(** The synthetic tree with one field of each variant and one marker in each
    position: the bifold reports each marker once. *)
Example bifold_marked_select :
  occurrencesQueryDB Demo.markedSelect = [inr 42; inl 7%nat]
  /\ bifoldMapQueryDB (fun x : nat => [x]) (fun _ : Z => []) Demo.markedSelect
     = [7%nat]
  /\ bifoldMapQueryDB (fun _ : nat => []) (fun x : Z => [x]) Demo.markedSelect = [42]
  /\ bifoldMapQueryDB (M:=nat) (fun _ : nat => 1%nat) (fun _ : Z => 0%nat)
       Demo.markedSelect = 1%nat
  /\ bifoldMapQueryDB (M:=nat) (fun _ : nat => 0%nat) (fun _ : Z => 1%nat)
       Demo.markedSelect = 1%nat.
Proof. vm_compute. repeat split; reflexivity. Qed.

(** C2 — The bifold of a [ConnectionSelect].  In every monoid it is the
    combination of (a) the leaf function applied to every leaf of every
    cursor split of the optional non-empty split sequence (the split's bound
    value, then every value inside its order-by item) and (b) the generic
    select bifold [bifoldMapAnnSelectG] of the wrapped select.  Nothing else
    is visited: the remote markers it collects are those of the wrapped
    select, and the leaves it collects are those of the splits followed by
    those of the wrapped select. *)
Theorem ConnectionSelect_bifold {b : Backend} {ir : Imports b} (r v : Type)
    (cs : ConnectionSelect r v) :
  (forall (M : Type) (mon : Monoid M) (f : r -> M) (g : v -> M),
     bifoldMapConnectionSelect f g cs
     = foldMapMaybe
         (foldMapNonEmpty
            (fun s : ConnectionSplit v =>
               g (_csValue s)
               <+> foldMapC (F:=OrderByItemG) (foldMapAnnotatedOrderByElement g)
                     (_csOrderBy s)))
         (_csSplit cs)
       <+> bifoldMapAnnSelectG bifoldMapConnectionField f g (_csSelect cs))
  /\ bifoldMapConnectionSelect (fun x : r => [x]) (fun _ : v => []) cs
     = remotesAnnSelectG remotesConnectionField (_csSelect cs)
  /\ bifoldMapConnectionSelect (fun _ : r => []) (fun x : v => [x]) cs
     = flat_map leavesConnectionSplit (splitsOf cs)
       ++ foldMapAnnSelectG (foldMapConnectionField (fun x : v => [x]))
            (fun x : v => [x]) (_csSelect cs).
Proof.
  repeat split.
  - intros M mon f g. destruct cs; reflexivity.
  - destruct (bifoldMap_remotes_tree (M:=list r) (v:=v) (fun x : r => [x]))
      as (_ & _ & _ & _ & _ & HS & _ & _).
    etransitivity; [exact (HS cs)|].
    rewrite foldMapList_singleton. destruct cs; reflexivity.
  - destruct (bifoldMap_leaves_tree (M:=list v) (r:=r) (fun x : v => [x]))
      as (_ & _ & _ & _ & _ & HS & _ & _).
    etransitivity; [exact (HS cs)|].
    destruct cs as [x pk split slice sel]; simpl.
    unfold splitsOf; simpl. f_equal.
    rewrite (foldMapMaybe_NonEmpty_list (foldMapConnectionSplit (fun x : v => [x]))).
    reflexivity.
Qed.

(** C3 — The order of the generic select fold.  For every [AnnSelectG]
    value and every target monoid, [bifoldMapAnnSelectG] combines, in this
    order, the folds of the field entries in the order of the field list
    (a nested select is folded inside its field), then the from-clause, then
    the permission filter, then the arguments; the streaming variant does the
    same with its streaming arguments. *)
Theorem bifoldMapAnnSelectG_order {b : Backend} {ir : Imports b}
    (fld r v M : Type) (mon : Monoid M)
    (bifoldMapField : (r -> M) -> (v -> M) -> fld -> M)
    (f : r -> M) (g : v -> M)
    (s : AnnSelectG fld v) (ss : AnnSelectStreamG fld v) :
  bifoldMapAnnSelectG bifoldMapField f g s
  = foldMapList (fun entry => bifoldMapField f g (snd entry)) (_asnFields s)
    <+> (foldMapSelectFromG g (_asnFrom s)
         <+> (foldMapTablePermG g (_asnPerm s)
              <+> foldMapSelectArgsG g (_asnArgs s)))
  /\ bifoldMapAnnSelectStreamG bifoldMapField f g ss
     = foldMapList (fun entry => bifoldMapField f g (snd entry)) (_assnFields ss)
       <+> (foldMapSelectFromG g (_assnFrom ss)
            <+> (foldMapTablePermG g (_assnPerm ss)
                 <+> foldMapSelectStreamArgsG g (_assnArgs ss))).
Proof.
  assert (Hfields : forall l : Fields fld,
            foldMapList (foldMapPair (bifoldMapField f g)) l
            = foldMapList (fun entry => bifoldMapField f g (snd entry)) l).
  { intros l. apply foldMapList_ext_Forall.
    induction l as [|[k x] l IH]; constructor; auto. }
  split.
  - unfold bifoldMapAnnSelectG. now rewrite Hfields.
  - unfold bifoldMapAnnSelectStreamG. now rewrite Hfields.
Qed.

(** C4 — Object-relation order-by elements.  Folding a counting function
    over [AOCObjectRelation rel P E] counts the leaves inside the permission
    filter [P] as well as those inside the nested element [E]: the count is
    the number of leaves of [P] plus the number of leaves of [E], and more
    generally every weight is summed over both. *)
Theorem AOCObjectRelation_counts_filter_and_element {b : Backend} {ir : Imports b}
    (v : Type) (rel : RelInfo) (P : AnnBoolExp v) (E : AnnotatedOrderByElement v) :
  foldMapAnnotatedOrderByElement (fun _ : v => 1%nat) (AOCObjectRelation rel P E)
  = (length (foldMapAnnBoolExp (fun x : v => [x]) P)
     + length (foldMapAnnotatedOrderByElement (fun x : v => [x]) E))%nat
  /\ forall weight : v -> nat,
       foldMapAnnotatedOrderByElement weight (AOCObjectRelation rel P E)
       = (foldMapAnnBoolExp weight P + foldMapAnnotatedOrderByElement weight E)%nat.
Proof.
  split.
  - simpl.
    rewrite (foldMapAnnBoolExp_leaves (M:=nat) (fun _ : v => 1%nat) P).
    rewrite (foldMapAnnotatedOrderByElement_leaves (M:=nat) (fun _ : v => 1%nat) E).
    now rewrite !foldMapList_count.
  - intros weight. reflexivity.
Qed.

Lemma listContainer_laws : @ContainerLaws list Demo.listContainer.
Proof.
  split; simpl; intros.
  - now apply map_id_ext.
  - now apply map_comp_ext.
Qed.

Lemma idContainer_laws : @ContainerLaws Demo.Id Demo.idContainer.
Proof. split; simpl; intros; auto. Qed.

Lemma demo_imports_lawful : LawfulImports Demo.imports.
Proof.
  split; simpl;
    first [exact listContainer_laws | exact idContainer_laws].
Qed.

(** C5 — Functor laws for the IR.  Over a backend whose imported
    constructors are lawful functors, every node type of the tree ([QueryDB]
    and each constituent structure) satisfies both laws: mapping the identity
    substitution over the leaves returns the tree itself, and mapping [f] and
    then [g] equals one mapping of their composition. *)
Theorem functor_laws {b : Backend} {ir : Imports b} (laws : LawfulImports ir)
    (r : Type) :
  FunctorLaws (QueryDB r) (fun A B => fmapQueryDB (r:=r) (v:=A) (w:=B))
  /\ FunctorLaws (AnnSimpleSelectG r)
       (fun A B g => fmapAnnSelectG (fmapAnnFieldG (r:=r) g) g)
  /\ FunctorLaws (AnnAggregateSelectG r)
       (fun A B g => fmapAnnSelectG (fmapTableAggregateFieldG (r:=r) g) g)
  /\ FunctorLaws (AnnSimpleStreamSelectG r)
       (fun A B g => fmapAnnSelectStreamG (fmapAnnFieldG (r:=r) g) g)
  /\ FunctorLaws (AnnFieldG r) (fun A B => fmapAnnFieldG (r:=r) (v:=A) (w:=B))
  /\ FunctorLaws (AnnObjectSelectG r)
       (fun A B => fmapAnnObjectSelectG (r:=r) (v:=A) (w:=B))
  /\ FunctorLaws (ArraySelectG r) (fun A B => fmapArraySelectG (r:=r) (v:=A) (w:=B))
  /\ FunctorLaws (ComputedFieldSelect r)
       (fun A B => fmapComputedFieldSelect (r:=r) (v:=A) (w:=B))
  /\ FunctorLaws (TableAggregateFieldG r)
       (fun A B => fmapTableAggregateFieldG (r:=r) (v:=A) (w:=B))
  /\ FunctorLaws (ConnectionSelect r)
       (fun A B => fmapConnectionSelect (r:=r) (v:=A) (w:=B))
  /\ FunctorLaws (ConnectionField r)
       (fun A B => fmapConnectionField (r:=r) (v:=A) (w:=B))
  /\ FunctorLaws (EdgeField r) (fun A B => fmapEdgeField (r:=r) (v:=A) (w:=B))
  /\ FunctorLaws ConnectionSplit (fun A B => fmapConnectionSplit (v:=A) (w:=B))
  /\ FunctorLaws SelectFromG (fun A B => fmapSelectFromG (v:=A) (w:=B))
  /\ FunctorLaws TablePermG (fun A B => fmapTablePermG (v:=A) (w:=B))
  /\ FunctorLaws SelectArgsG (fun A B => fmapSelectArgsG (v:=A) (w:=B))
  /\ FunctorLaws SelectStreamArgsG (fun A B => fmapSelectStreamArgsG (v:=A) (w:=B))
  /\ FunctorLaws AnnotatedOrderByElement
       (fun A B => fmapAnnotatedOrderByElement (v:=A) (w:=B))
  /\ FunctorLaws AnnotatedOrderByItemG
       (fun A B => fmapAnnotatedOrderByItemG (v:=A) (w:=B))
  /\ FunctorLaws ComputedFieldOrderBy
       (fun A B => fmapComputedFieldOrderBy (v:=A) (w:=B))
  /\ FunctorLaws ComputedFieldOrderByElement
       (fun A B => fmapComputedFieldOrderByElement (v:=A) (w:=B))
  /\ FunctorLaws AnnColumnField (fun A B => fmapAnnColumnField (v:=A) (w:=B))
  /\ FunctorLaws ComputedFieldScalarSelect
       (fun A B => fmapComputedFieldScalarSelect (v:=A) (w:=B))
  /\ FunctorLaws FunctionArgsExpOf (fun A B => fmapFunctionArgsExp (v:=A) (w:=B)).
Proof.
  assert (Hid : forall A : Type, _) by
    exact (fun A : Type => fmap_id_tree (r:=r) (h:=fun a : A => a) (fun a => eq_refl)).
  assert (Hcomp : forall (A B C : Type) (f : A -> B) (g : B -> C), _) by
    exact (fun (A B C : Type) (f : A -> B) (g : B -> C) =>
             fmap_comp_tree (r:=r) (f:=f) (g:=g) (h:=fun a => g (f a))
               (fun a => eq_refl)).
  unfold FunctorLaws.
  repeat match goal with |- _ /\ _ => split end; intros.
  - now apply fmapQueryDB_id.
  - now apply fmapQueryDB_comp.
  - apply fmapAnnSelectG_id; [reflexivity|]. apply ForallFields_all, (Hid A).
  - apply fmapAnnSelectG_comp; [reflexivity|]. apply ForallFields_all, (Hcomp A B C f g).
  - apply fmapAnnSelectG_id; [reflexivity|]. apply ForallFields_all, (Hid A).
  - apply fmapAnnSelectG_comp; [reflexivity|]. apply ForallFields_all, (Hcomp A B C f g).
  - apply fmapAnnSelectStreamG_id; [reflexivity|]. apply ForallFields_all, (Hid A).
  - apply fmapAnnSelectStreamG_comp; [reflexivity|].
    apply ForallFields_all, (Hcomp A B C f g).
  - apply (Hid A).
  - apply (Hcomp A B C f g).
  - apply (Hid A).
  - apply (Hcomp A B C f g).
  - apply (Hid A).
  - apply (Hcomp A B C f g).
  - apply (Hid A).
  - apply (Hcomp A B C f g).
  - apply (Hid A).
  - apply (Hcomp A B C f g).
  - apply (Hid A).
  - apply (Hcomp A B C f g).
  - apply (Hid A).
  - apply (Hcomp A B C f g).
  - apply (Hid A).
  - apply (Hcomp A B C f g).
  - now apply fmapConnectionSplit_id.
  - now apply fmapConnectionSplit_comp.
  - now apply fmapSelectFromG_id.
  - now apply fmapSelectFromG_comp.
  - now apply fmapTablePermG_id.
  - now apply fmapTablePermG_comp.
  - now apply fmapSelectArgsG_id.
  - now apply fmapSelectArgsG_comp.
  - now apply fmapSelectStreamArgsG_id.
  - now apply fmapSelectStreamArgsG_comp.
  - now apply fmapAnnotatedOrderByElement_id.
  - now apply fmapAnnotatedOrderByElement_comp.
  - now apply fmapAnnotatedOrderByItemG_id.
  - now apply fmapAnnotatedOrderByItemG_comp.
  - now apply fmapComputedFieldOrderBy_id.
  - now apply fmapComputedFieldOrderBy_comp.
  - now apply fmapComputedFieldOrderByElement_id.
  - now apply fmapComputedFieldOrderByElement_comp.
  - now apply fmapAnnColumnField_id.
  - now apply fmapAnnColumnField_comp.
  - now apply fmapComputedFieldScalarSelect_id.
  - now apply fmapComputedFieldScalarSelect_comp.
  - now apply fmapFunctionArgsExp_id.
  - now apply fmapFunctionArgsExp_comp.
Qed.

(** The laws at the concrete backend: the simple select of the scenario is
    left unchanged by the identity substitution, and two substitutions over
    the marked select fuse. *)
Lemma functor_laws_witness :
  fmapQueryDB (fun x : Z => x) Demo.simpleSelect = Demo.simpleSelect
  /\ fmapQueryDB (fun x : Z => x + 1)
       (fmapQueryDB (fun x : Z => 2 * x) Demo.markedSelect)
     = fmapQueryDB (fun x : Z => 2 * x + 1) Demo.markedSelect.
Proof.
  destruct (functor_laws demo_imports_lawful nat) as [[Hid Hcomp] _].
  split.
  - exact (Hid Z Demo.simpleSelect).
  - exact (Hcomp Z Z Z (fun x : Z => 2 * x) (fun x : Z => x + 1) Demo.markedSelect).
Defined.

Lemma any_true_iff {A : Type} (p : A -> bool) (l : list A) :
  any p l = true <-> exists x, In x l /\ p x = true.
Proof. unfold any. apply existsb_exists. Qed.

Lemma any_false_iff {A : Type} (p : A -> bool) (l : list A) :
  any p l = false <-> forall x, In x l -> p x = false.
Proof.
  unfold any. split.
  - intros Hl x Hx. destruct (p x) eqn:Hp; [|reflexivity].
    rewrite <- Hl. symmetry. apply existsb_exists. eauto.
  - intros Hl. destruct (existsb p l) eqn:He; [|reflexivity].
    apply existsb_exists in He as (x & Hx & Hp).
    rewrite (Hl x Hx) in Hp. discriminate.
Qed.

Lemma demo_queryMonad_lawful :
  @QueryMonadLaws Demo.Outcome Demo.queryMonad.
Proof. split; reflexivity. Qed.

(** C6 — The schema assertion of concurrent bulks.  [queryModifiesSchema] of
    a [bulk] or a [concurrent_bulk] is [true] exactly when some query of the
    list modifies the schema.  Running a [concurrent_bulk] of which some
    query modifies the schema raises the error 500 "Only read-only queries
    are allowed in a concurrent_bulk" (inside the trace of the constructor);
    when none does, every query of the list is run by [mapConcurrently] and
    the list of the results is returned, encoded by [encJFromList]. *)
Theorem concurrent_bulk_schema_assertion {qt : QueryTypes} (m : Type -> Type)
    (qm : QueryMonad m) (rn : Runners m) (laws : QueryMonadLaws (m:=m))
    (env : Environment) (l : list RQLQuery) :
  (queryModifiesSchema (RQBulk l) = true
   <-> exists q, In q l /\ queryModifiesSchema q = true)
  /\ (queryModifiesSchema (RQConcurrentBulk l) = true
      <-> exists q, In q l /\ queryModifiesSchema q = true)
  /\ ((exists q, In q l /\ queryModifiesSchema q = true) ->
      runQueryM env (RQConcurrentBulk l)
      = trace "RQConcurrentBulk"
          (throw500 "Only read-only queries are allowed in a concurrent_bulk"))
  /\ ((forall q, In q l -> queryModifiesSchema q = false) ->
      runQueryM env (RQConcurrentBulk l)
      = trace "RQConcurrentBulk"
          (fmapM encJFromList (mapConcurrently (runQueryM env) l))).
Proof.
  repeat split.
  - apply any_true_iff.
  - apply any_true_iff.
  - apply any_true_iff.
  - apply any_true_iff.
  - intros Hq. apply any_true_iff in Hq.
    simpl. rewrite Hq. unfold when. now rewrite bind_throw500.
  - intros Hq. apply any_false_iff in Hq.
    simpl. rewrite Hq. unfold when. now rewrite bind_ret.
Qed.

(** In the concrete monad: a concurrent bulk with a schema-changing
    [run_sql] is refused, one of reads answers with all the results. *)
Lemma concurrent_bulk_schema_assertion_witness :
  runQueryM (qm:=Demo.queryMonad) (rn:=Demo.runners) tt
    (RQConcurrentBulk [RQSelect (qt:=Demo.queryTypes) 1%nat; RQRunSql (qt:=Demo.queryTypes) true])
  = Demo.Err500 "Only read-only queries are allowed in a concurrent_bulk"
  /\ runQueryM (qm:=Demo.queryMonad) (rn:=Demo.runners) tt
       (RQConcurrentBulk [RQSelect (qt:=Demo.queryTypes) 1%nat; RQCount (qt:=Demo.queryTypes) 2%nat])
     = Demo.Ok [1%nat; 2%nat].
Proof.
  split.
  - destruct (@concurrent_bulk_schema_assertion Demo.queryTypes Demo.Outcome
                Demo.queryMonad Demo.runners demo_queryMonad_lawful tt
                [RQSelect (qt:=Demo.queryTypes) 1%nat; RQRunSql (qt:=Demo.queryTypes) true])
      as (_ & _ & Hthrow & _).
    apply Hthrow. exists (RQRunSql (qt:=Demo.queryTypes) true).
    split; [right; left; reflexivity | reflexivity].
  - destruct (@concurrent_bulk_schema_assertion Demo.queryTypes Demo.Outcome
                Demo.queryMonad Demo.runners demo_queryMonad_lawful tt
                [RQSelect (qt:=Demo.queryTypes) 1%nat; RQCount (qt:=Demo.queryTypes) 2%nat])
      as (_ & _ & _ & Hrun).
    rewrite Hrun; [reflexivity|].
    intros q [<-|[<-|[]]]; reflexivity.
Defined.

(** C7 — The "no permission" constructor.  For every backend and leaf type,
    [noTablePermissions] is [TablePerm annBoolExpTrue Nothing]: its filter is
    the always-true boolean expression and its limit is absent. *)
Theorem noTablePermissions_is_true_filter_without_limit {b : Backend}
    {ir : Imports b} (v : Type) :
  noTablePermissions (v:=v) = TablePerm annBoolExpTrue None
  /\ _tpFilter (noTablePermissions (v:=v)) = annBoolExpTrue
  /\ _tpLimit (noTablePermissions (v:=v)) = None.
Proof. repeat split. Qed.

(** Refutes a hypothesis that equates two different constructors under
    existential quantifiers. *)
Ltac other_constructor H :=
  repeat match type of H with
         | exists _, _ => let w := fresh "w" in destruct H as [w H]
         end;
  discriminate H.

(** C8 — The field vocabulary is closed.  Every [AnnFieldG] value is of
    exactly one of the seven variants (column reference, object relation,
    array relation, computed field, remote relationship, Relay node id, raw
    expression), and every array relation is of exactly one of the three
    shapes simple, aggregate and connection: a case analysis over a field is
    exhaustive and its cases exclude each other. *)
Theorem field_vocabulary_closed {b : Backend} {ir : Imports b} (r v : Type) :
  (forall fld : AnnFieldG r v,
     exists t, isFieldVariant t fld /\ forall t', isFieldVariant t' fld -> t' = t)
  /\ (forall arr : ArraySelectG r v,
        exists t, isArrayShape t arr /\ forall t', isArrayShape t' arr -> t' = t).
Proof.
  split.
  - intros fld; destruct fld;
      [ exists ColumnReference | exists ObjectRelation | exists ArrayRelation
      | exists ComputedField | exists RemoteRelationship | exists RelayNodeId
      | exists RawExpression ];
      (split; [simpl; eauto 6|]);
      intros t' Ht'; destruct t'; simpl in Ht';
      try reflexivity; other_constructor Ht'.
  - intros arr; destruct arr;
      [ exists SimpleShape | exists AggregateShape | exists ConnectionShape ];
      (split; [simpl; eauto|]);
      intros t' Ht'; destruct t'; simpl in Ht';
      try reflexivity; other_constructor Ht'.
Qed.

(** C9 — A concurrent bulk never counts as a write.  For every list [l] of
    queries, [queryModifiesUserDB (RQConcurrentBulk l)] is [false] whatever
    [l] contains, so the read-only guard of [runQuery] lets every
    [concurrent_bulk] through, in either mode, and [runQuery] goes on with
    the rest of its block — also when [l] holds an insert, an update, a
    delete or a [run_sql], each of which counts as a write on its own. *)
Theorem concurrent_bulk_passes_read_only_guard {qt : QueryTypes}
    (m : Type -> Type) (qm : QueryMonad m) (l : list RQLQuery)
    (readOnlyMode : ReadOnlyMode) :
  queryModifiesUserDB (RQConcurrentBulk l) = false
  /\ readOnlyGuard readOnlyMode (RQConcurrentBulk l) = ret tt
  /\ (forall (R : Type) (body : RQLQuery -> m R),
        runQuery readOnlyMode body (RQConcurrentBulk l)
        = bind (ret tt) (fun _ => body (RQConcurrentBulk l)))
  /\ (forall (qi : InsertQuery) (qu : UpdateQuery) (qd : DeleteQuery)
        (qs : PostgresRunSQL),
        queryModifiesUserDB (RQInsert qi) = true
        /\ queryModifiesUserDB (RQUpdate qu) = true
        /\ queryModifiesUserDB (RQDelete qd) = true
        /\ queryModifiesUserDB (RQRunSql qs) = true).
Proof.
  assert (Hguard : readOnlyGuard readOnlyMode (RQConcurrentBulk l) = ret tt).
  { unfold readOnlyGuard, when. simpl. now rewrite andb_false_r. }
  repeat split.
  - exact Hguard.
  - intros R body. unfold runQuery. now rewrite Hguard.
Qed.

(** In read-only mode, a bulk with an insert is refused, the same list as a
    concurrent bulk is not. *)
Example read_only_guard_bulk_vs_concurrent_bulk :
  readOnlyGuard (qm:=Demo.queryMonad) ReadOnlyModeEnabled
    (RQBulk [RQInsert (qt:=Demo.queryTypes) 1%nat])
  = Demo.Err400 "not-supported"
      "Cannot run write queries when read-only mode is enabled"
  /\ readOnlyGuard (qm:=Demo.queryMonad) ReadOnlyModeEnabled
       (RQConcurrentBulk [RQInsert (qt:=Demo.queryTypes) 1%nat])
     = Demo.Ok tt.
Proof. split; reflexivity. Qed.

Lemma wrapInt_small (z : Z) : isInt z -> wrapInt z = z.
Proof.
  unfold isInt, intMin, intMax, wrapInt. intros Hz.
  rewrite Z.mod_small; lia.
Qed.

Lemma insertedAt_take_drop {A : Type} (i : nat) (x : A) (p : list A) :
  (i <= length p)%nat -> insertedAt i x p (take i p ++ x :: drop i p).
Proof.
  intros Hi. unfold insertedAt.
  assert (Hlen : length (take i p) = i) by (rewrite length_take; lia).
  repeat split.
  - rewrite length_app, Hlen. simpl. rewrite length_drop. lia.
  - intros j Hj. rewrite lookup_app_l by lia. now apply lookup_take_lt.
  - rewrite lookup_app_r by lia. now rewrite Hlen, Nat.sub_diag.
  - intros j Hj. rewrite lookup_app_r by lia. rewrite Hlen.
    replace (S j - i)%nat with (S (j - i)) by lia. simpl.
    rewrite lookup_drop. f_equal. lia.
Qed.

(** C10 — [insertFunctionArg], for an index below the largest [Int].  For
    every argument name, value, positional list [p], named map [n] and index
    [idx] with [0 <= idx < maxBound]: if [idx + 1 <= length p] the value is
    inserted into [p] at position [idx] (the elements at positions [>= idx]
    shifted right by one) and [n] is unchanged; otherwise [p] is unchanged
    and the value is inserted into [n] under the text of the argument name,
    replacing an entry of that name. *)
Theorem insertFunctionArg_below_maxBound {A : Type} (argName : FunctionArgName)
    (idx : Z) (value : A) (p : list A) (n : HashMapText A) :
  0 <= idx < intMax -> insertFunctionArg_spec argName idx value p n.
Proof.
  intros Hidx. unfold insertFunctionArg_spec, insertFunctionArg, intAdd, intLength.
  rewrite wrapInt_small by (unfold isInt, intMin, intMax in *; lia).
  split; intros Hle.
  - exists (take (Z.to_nat idx) p ++ value :: drop (Z.to_nat idx) p). split.
    + destruct (Z.leb_spec (idx + 1) (Z.of_nat (length p))) as [_|Hgt]; [|lia].
      unfold seqInsertAt, intLength.
      destruct (Z.leb_spec 0 idx) as [_|Hneg]; [|lia].
      destruct (Z.ltb_spec idx (Z.of_nat (length p))) as [_|Hge]; [|lia].
      reflexivity.
    + apply insertedAt_take_drop. lia.
  - destruct (Z.leb_spec (idx + 1) (Z.of_nat (length p))) as [Hle'|_]; [lia|].
    reflexivity.
Qed.

Lemma insertFunctionArg_below_maxBound_witness :
  0 <= 1 < intMax
  /\ insertFunctionArg_spec (mkFunctionArgName "x") 1 (9 : Z) [1; 2; 3] ∅.
Proof.
  split.
  - split; [lia | reflexivity].
  - apply insertFunctionArg_below_maxBound. split; [lia | reflexivity].
Defined.

Example insertFunctionArg_positional_and_named :
  insertFunctionArg (mkFunctionArgName "x") 1 9 (FunctionArgsExp [1; 2; 3] ∅)
  = FunctionArgsExp [1; 9; 2; 3] ∅
  /\ insertFunctionArg (mkFunctionArgName "x") 3 9 (FunctionArgsExp [1; 2; 3] ∅)
     = FunctionArgsExp [1; 2; 3] (<["x" := 9]> ∅).
Proof. split; reflexivity. Qed.

(** At the largest [Int] the sum [idx + 1] wraps around to the smallest one:
    the value goes to the end of the positional list although [idx + 1]
    exceeds its length, and the named map is left alone.  The value is then
    not at position [idx] either. *)
Lemma insertFunctionArg_maxBound_counterexample :
  isInt intMax /\ 0 <= intMax
  /\ insertFunctionArg (mkFunctionArgName "x") intMax 9 (FunctionArgsExp [] ∅)
     = FunctionArgsExp [9] ∅
  /\ ~ insertFunctionArg_spec (mkFunctionArgName "x") intMax 9 [] ∅
  /\ ~ insertedAt (Z.to_nat intMax) 9 [] [9].
Proof.
  split; [split; discriminate|].
  split; [discriminate|].
  split; [reflexivity|].
  split.
  - intros [_ Hnamed].
    assert (Hgt : ~ intMax + 1 <= Z.of_nat (length (@nil Z))) by (vm_compute; auto).
    specialize (Hnamed Hgt).
    apply (f_equal (@_faePositional Z)) in Hnamed. discriminate Hnamed.
  - intros (_ & _ & Hat & _).
    assert (Hbig : (1 <= Z.to_nat intMax)%nat).
    { change intMax with 9223372036854775807. lia. }
    rewrite lookup_ge_None_2 in Hat by (simpl; lia). discriminate Hat.
Qed.

(** * Further properties of the query API *)

(** Induction over a query, a bulk of either kind giving the property of
    the queries of its list. *)
Lemma RQLQuery_bulk_ind {qt : QueryTypes} (P : RQLQuery -> Prop) :
  (forall l, Forall P l -> P (RQBulk l)) ->
  (forall l, Forall P l -> P (RQConcurrentBulk l)) ->
  (forall rq,
     match rq with
     | RQBulk _ => False
     | RQConcurrentBulk _ => False
     | _ => True
     end -> P rq) ->
  forall rq, P rq.
Proof.
  intros Hbulk Hcbulk Hleaf.
  fix IH 1. intros rq.
  destruct rq as [q|q|q|q|q|q|q|q|q|q|q|t q|q|l|l];
    try (apply Hleaf; exact I).
  - apply Hbulk. induction l as [|x l IHl]; constructor; [apply IH | exact IHl].
  - apply Hcbulk. induction l as [|x l IHl]; constructor; [apply IH | exact IHl].
Qed.

Lemma existsb_flat_map {A B : Type} (p : B -> bool) (h : A -> list B) (l : list A) :
  existsb p (flat_map h l) = existsb (fun x => existsb p (h x)) l.
Proof.
  induction l as [|x l IH]; simpl; [reflexivity|].
  now rewrite existsb_app, IH.
Qed.

Lemma existsb_ext_Forall {A : Type} (p p' : A -> bool) (l : list A) :
  Forall (fun x => p x = p' x) l -> existsb p l = existsb p' l.
Proof.
  induction 1 as [|x l Hx _ IH]; simpl; [reflexivity|].
  now rewrite Hx, IH.
Qed.

Lemma queryModifiesSchema_leaves {qt : QueryTypes} (rq : RQLQuery) :
  queryModifiesSchema rq = existsb isSchemaStatement (bulkLeaves rq).
Proof.
  induction rq as [l IH|l IH|rq Hrq] using RQLQuery_bulk_ind.
  - simpl. unfold any. rewrite existsb_flat_map. now apply existsb_ext_Forall.
  - simpl. unfold any. rewrite existsb_flat_map. now apply existsb_ext_Forall.
  - destruct rq; try contradiction; simpl; now rewrite ?orb_false_r.
Qed.

Lemma queryModifiesUserDB_leaves {qt : QueryTypes} (rq : RQLQuery) :
  queryModifiesUserDB rq
  = existsb (fun q => negb (isRead q || isConcurrentBulk q)) (sequentialLeaves rq).
Proof.
  induction rq as [l IH|l IH|rq Hrq] using RQLQuery_bulk_ind.
  - simpl. unfold any. rewrite existsb_flat_map. now apply existsb_ext_Forall.
  - reflexivity.
  - destruct rq; try contradiction; reflexivity.
Qed.

Lemma sequentialLeaves_bulkLeaves {qt : QueryTypes} (rq : RQLQuery) :
  hasConcurrentBulk rq = false -> sequentialLeaves rq = bulkLeaves rq.
Proof.
  induction rq as [l IH|l IH|rq Hrq] using RQLQuery_bulk_ind; simpl.
  - intros Hl. induction IH as [|x l Hx _ IHl]; simpl in *; [reflexivity|].
    apply orb_false_iff in Hl as [Hx' Hl].
    now rewrite (Hx Hx'), (IHl Hl).
  - discriminate.
  - destruct rq; try contradiction; reflexivity.
Qed.

Lemma isSchemaStatement_is_write {qt : QueryTypes} (q : RQLQuery) :
  isSchemaStatement q = true -> negb (isRead q || isConcurrentBulk q) = true.
Proof. destruct q; simpl; try discriminate; reflexivity. Qed.

(** X1 — What makes a query schema-modifying.  [queryModifiesSchema] holds
    of a query exactly when one of the queries it is made of, below bulks and
    concurrent bulks at any depth, is a [run_sql] of the Postgres family
    (vanilla, Citus, Cockroach) or of MSSQL for which the backend requires a
    rebuild of the schema cache.  No other kind of query is ever
    schema-modifying. *)
Theorem queryModifiesSchema_iff_schema_statement {qt : QueryTypes} (rq : RQLQuery) :
  queryModifiesSchema rq = true
  <-> exists q, In q (bulkLeaves rq)
        /\ ((exists s, (q = RQRunSql s \/ q = RQCitusRunSql s \/ q = RQCockroachRunSql s)
                       /\ Postgres_isSchemaCacheBuildRequiredRunSQL s = true)
            \/ (exists s, q = RQMssqlRunSql s
                          /\ MSSQL_isSchemaCacheBuildRequiredRunSQL s = true)).
Proof.
  rewrite queryModifiesSchema_leaves, existsb_exists.
  split; intros (q & Hq & Hs); exists q; (split; [exact Hq|]).
  - destruct q; simpl in Hs; try discriminate; eauto 8.
  - destruct Hs as [(s & [-> | [-> | ->]] & Hs) | (s & -> & Hs)]; exact Hs.
Qed.

(** X2 — What makes a query count as a write.  [queryModifiesUserDB] holds
    of a query exactly when one of the queries it is made of, below bulks
    only, is neither a select, a count, a BigQuery database inspection nor a
    concurrent bulk: whatever is inside a concurrent bulk is not looked at. *)
Theorem queryModifiesUserDB_iff_write_leaf {qt : QueryTypes} (rq : RQLQuery) :
  queryModifiesUserDB rq = true
  <-> exists q, In q (sequentialLeaves rq)
        /\ isRead q = false /\ isConcurrentBulk q = false.
Proof.
  rewrite queryModifiesUserDB_leaves, existsb_exists.
  split; intros (q & Hq & Hw); exists q; (split; [exact Hq|]).
  - apply negb_true_iff, orb_false_iff in Hw. exact Hw.
  - destruct Hw as [-> ->]. reflexivity.
Qed.

(** X3 — Read-only mode and schema changes.  A schema-modifying query in
    which no concurrent bulk occurs counts as a write, so in read-only mode
    the guard of [runQuery] refuses it with the error 400 "Cannot run write
    queries when read-only mode is enabled". *)
Theorem schema_change_refused_in_read_only_mode {qt : QueryTypes}
    (m : Type -> Type) (qm : QueryMonad m) (rq : RQLQuery) :
  hasConcurrentBulk rq = false ->
  queryModifiesSchema rq = true ->
  queryModifiesUserDB rq = true
  /\ readOnlyGuard ReadOnlyModeEnabled rq
     = throw400 NotSupported
         "Cannot run write queries when read-only mode is enabled".
Proof.
  intros Hcb Hs.
  assert (Hw : queryModifiesUserDB rq = true).
  { rewrite queryModifiesUserDB_leaves, (sequentialLeaves_bulkLeaves Hcb).
    rewrite queryModifiesSchema_leaves in Hs.
    apply existsb_exists in Hs as (q & Hq & Hs). apply existsb_exists.
    exists q. split; [exact Hq | now apply isSchemaStatement_is_write]. }
  split; [exact Hw|].
  unfold readOnlyGuard, when. now rewrite Hw.
Qed.

Lemma schema_change_refused_in_read_only_mode_witness :
  readOnlyGuard (qm:=Demo.queryMonad) ReadOnlyModeEnabled
    (RQBulk [RQSelect (qt:=Demo.queryTypes) 1%nat;
             RQBulk [RQCitusRunSql (qt:=Demo.queryTypes) true]])
  = Demo.Err400 "not-supported"
      "Cannot run write queries when read-only mode is enabled".
Proof.
  apply (@schema_change_refused_in_read_only_mode Demo.queryTypes Demo.Outcome
           Demo.queryMonad
           (RQBulk [RQSelect (qt:=Demo.queryTypes) 1%nat;
                    RQBulk [RQCitusRunSql (qt:=Demo.queryTypes) true]]));
    reflexivity.
Defined.

(** X4 — A concurrent bulk never writes the metadata.  For every list [l],
    either running the concurrent bulk raises the error 500 of its schema
    assertion, or the reload step of [runQuery] for it stores nothing and
    notifies nobody: it returns the result and the updated cache as they
    are, in either maintenance mode. *)
Theorem concurrent_bulk_never_writes_metadata {qt : QueryTypes} (m : Type -> Type)
    (qm : QueryMonad m) (rn : Runners m) (ms : MetadataStorage)
    (laws : QueryMonadLaws (m:=m)) (env : Environment) (l : list RQLQuery) :
  runQueryM env (RQConcurrentBulk l)
  = trace "RQConcurrentBulk"
      (throw500 "Only read-only queries are allowed in a concurrent_bulk")
  \/ forall (maintenanceMode : MaintenanceMode) (instanceId : InstanceId)
       (version : MetadataResourceVersion) (result : EncJSON)
       (cache : RebuildableSchemaCache) (invalidations : CacheInvalidations)
       (metadata : Metadata),
       withReload maintenanceMode instanceId (RQConcurrentBulk l) version
         (result, cache, invalidations, metadata)
       = ret (result, cache).
Proof.
  destruct (queryModifiesSchema (RQConcurrentBulk l)) eqn:Hs.
  - left. simpl in *. rewrite Hs. unfold when. now rewrite bind_throw500.
  - right. intros. unfold withReload. rewrite Hs. unfold when.
    now rewrite bind_ret.
Qed.

Lemma concurrent_bulk_never_writes_metadata_witness :
  runQueryM (qm:=Demo.queryMonad) (rn:=Demo.runners) tt
    (RQConcurrentBulk [RQRunSql (qt:=Demo.queryTypes) true])
  = Demo.Err500 "Only read-only queries are allowed in a concurrent_bulk"
  \/ forall (maintenanceMode : MaintenanceMode) (version : nat) (result : list nat)
       (cache : nat) (metadata : nat),
       withReload (qm:=Demo.queryMonad) (ms:=demoStorage) maintenanceMode tt
         (RQConcurrentBulk [RQRunSql (qt:=Demo.queryTypes) true]) version
         (result, cache, tt, metadata)
       = Demo.Ok (result, cache).
Proof.
  destruct (@concurrent_bulk_never_writes_metadata Demo.queryTypes Demo.Outcome
              Demo.queryMonad Demo.runners demoStorage demo_queryMonad_lawful tt
              [RQRunSql (qt:=Demo.queryTypes) true]) as [Hthrow|Hquiet].
  - left. exact Hthrow.
  - right. intros. apply Hquiet.
Defined.

(** X5 — The reload step.  When none of the queries a query is made of is a
    schema statement, the reload step of [runQuery] stores nothing and
    returns the result and the updated cache, in either maintenance mode.
    When one is and maintenance mode is enabled, the step raises the error
    500 "metadata cannot be modified in maintenance mode" — after the query
    has been run, since the step is applied to the outcome of the run. *)
Theorem withReload_by_leaves {qt : QueryTypes} (m : Type -> Type)
    (qm : QueryMonad m) (rn : Runners m) (ms : MetadataStorage)
    (laws : QueryMonadLaws (m:=m)) (rq : RQLQuery)
    (instanceId : InstanceId) (version : MetadataResourceVersion)
    (result : EncJSON) (cache : RebuildableSchemaCache)
    (invalidations : CacheInvalidations) (metadata : Metadata) :
  ((forall q, In q (bulkLeaves rq) -> isSchemaStatement q = false) ->
   forall maintenanceMode : MaintenanceMode,
     withReload maintenanceMode instanceId rq version
       (result, cache, invalidations, metadata)
     = ret (result, cache))
  /\ ((exists q, In q (bulkLeaves rq) /\ isSchemaStatement q = true) ->
      forall u : unit,
        withReload (MaintenanceModeEnabled u) instanceId rq version
          (result, cache, invalidations, metadata)
        = throw500 "metadata cannot be modified in maintenance mode").
Proof.
  split.
  - intros Hq mode. unfold withReload.
    assert (Hs : queryModifiesSchema rq = false).
    { rewrite queryModifiesSchema_leaves.
      destruct (existsb isSchemaStatement (bulkLeaves rq)) eqn:He; [|reflexivity].
      apply existsb_exists in He as (q & Hin & Hq'). rewrite (Hq q Hin) in Hq'.
      discriminate. }
    rewrite Hs. unfold when. now rewrite bind_ret.
  - intros Hq u. unfold withReload.
    assert (Hs : queryModifiesSchema rq = true).
    { rewrite queryModifiesSchema_leaves. now apply existsb_exists. }
    rewrite Hs. unfold when. now rewrite bind_throw500.
Qed.

Lemma withReload_by_leaves_witness :
  withReload (qm:=Demo.queryMonad) (ms:=demoStorage) MaintenanceModeDisabled tt
    (RQBulk [RQSelect (qt:=Demo.queryTypes) 1%nat; RQInsert (qt:=Demo.queryTypes) 2%nat])
    0%nat ([1%nat; 2%nat], 0%nat, tt, 0%nat)
  = Demo.Ok ([1%nat; 2%nat], 0%nat)
  /\ withReload (qm:=Demo.queryMonad) (ms:=demoStorage) (MaintenanceModeEnabled tt) tt
       (RQBulk [RQSelect (qt:=Demo.queryTypes) 1%nat; RQRunSql (qt:=Demo.queryTypes) true])
       0%nat ([1%nat; 0%nat], 0%nat, tt, 0%nat)
     = Demo.Err500 "metadata cannot be modified in maintenance mode".
Proof.
  split.
  - destruct (@withReload_by_leaves Demo.queryTypes Demo.Outcome Demo.queryMonad
                Demo.runners demoStorage demo_queryMonad_lawful
                (RQBulk [RQSelect (qt:=Demo.queryTypes) 1%nat;
                         RQInsert (qt:=Demo.queryTypes) 2%nat])
                tt 0%nat [1%nat; 2%nat] 0%nat tt 0%nat) as [Hquiet _].
    apply Hquiet. intros q [<-|[<-|[]]]; reflexivity.
  - destruct (@withReload_by_leaves Demo.queryTypes Demo.Outcome Demo.queryMonad
                Demo.runners demoStorage demo_queryMonad_lawful
                (RQBulk [RQSelect (qt:=Demo.queryTypes) 1%nat;
                         RQRunSql (qt:=Demo.queryTypes) true])
                tt 0%nat [1%nat; 0%nat] 0%nat tt 0%nat) as [_ Hthrow].
    apply Hthrow. exists (RQRunSql (qt:=Demo.queryTypes) true).
    split; [right; left; reflexivity | reflexivity].
Defined.

Lemma string_length_app (s1 s2 : string) :
  String.length (s1 +:+ s2) = (String.length s1 + String.length s2)%nat.
Proof.
  induction s1 as [|c s1 IH]; [reflexivity|].
  change (S (String.length (s1 +:+ s2)) = S (String.length s1 + String.length s2)).
  now rewrite IH.
Qed.

Lemma string_app_cons (c : Ascii.ascii) (s1 s2 : string) :
  String c s1 +:+ s2 = String c (s1 +:+ s2).
Proof. reflexivity. Qed.

Lemma string_app_nil_l (s : string) : "" +:+ s = s.
Proof. reflexivity. Qed.

Lemma stripSuffix_unfold (p t : Text) :
  stripSuffix p t
  = if String.eqb t p then Some ""
    else match t with
         | EmptyString => None
         | String c t' => option_map (String c) (stripSuffix p t')
         end.
Proof. destruct t; reflexivity. Qed.

(** [stripSuffix] does what the library documents. *)
Lemma stripSuffix_Some (p t s : Text) :
  stripSuffix p t = Some s <-> t = s +:+ p.
Proof.
  revert s. induction t as [|c t IH]; intros s; rewrite stripSuffix_unfold.
  - destruct (String.eqb_spec "" p) as [<-|Hne]; cbv iota.
    + split.
      * intros [= <-]. reflexivity.
      * destruct s; [reflexivity | rewrite string_app_cons; discriminate].
    + split; [discriminate|].
      destruct s.
      * rewrite string_app_nil_l. intros <-. contradiction.
      * rewrite string_app_cons. discriminate.
  - destruct (String.eqb_spec (String c t) p) as [<-|Hne]; cbv iota.
    + split.
      * intros [= <-]. reflexivity.
      * intros Heq. apply (f_equal String.length) in Heq.
        rewrite string_length_app in Heq.
        destruct s; [reflexivity | simpl in Heq; lia].
    + destruct s as [|c' s].
      * rewrite string_app_nil_l. split.
        -- destruct (stripSuffix p t); discriminate.
        -- intros <-. contradiction.
      * rewrite string_app_cons. split.
        -- destruct (stripSuffix p t) as [s'|] eqn:Hs'; [|discriminate].
           simpl. intros [= <- <-]. f_equal. now apply IH.
        -- intros [= <- Ht]. apply IH in Ht. now rewrite Ht.
Qed.

Lemma fmapParser_inr {A B : Type} (f : A -> B) (x : Parser A) (b : B) :
  fmapParser f x = inr b <-> exists a, x = inr a /\ b = f a.
Proof.
  destruct x as [msg|a]; simpl; split.
  - discriminate.
  - intros (a & Ha & _). discriminate.
  - intros [= <-]. eauto.
  - intros (a' & [= <-] & ->). reflexivity.
Qed.

(** Splits [parseRQLQuery] into its alternatives. *)
Ltac parse_alternatives t :=
  unfold parseRQLQuery;
  repeat match goal with
         | |- context [String.eqb t ?lit] =>
             destruct (String.eqb_spec t lit) as [?Heq|?Hne]; cbv iota
         | |- context [dcNameFromRunSql t] =>
             destruct (dcNameFromRunSql t) as [?dc|] eqn:?Hdc; cbv iota
         end.

(** Picks the element of a literal list that the goal asks for. *)
Ltac in_literals :=
  simpl; repeat first [left; reflexivity | right]; fail.

Lemma dcNameFromRunSql_Some {qt : QueryTypes} {nv : NameValidators}
    (t : Text) (n : DataConnectorName) :
  dcNameFromRunSql t = Some n
  <-> exists prefix name,
        t = prefix +:+ "_run_sql" /\ mkName prefix = Some name
        /\ mkDataConnectorName name = inr n.
Proof.
  unfold dcNameFromRunSql. split.
  - destruct (stripSuffix "_run_sql" t) as [prefix|] eqn:Hp; [|discriminate].
    apply stripSuffix_Some in Hp.
    destruct (mkName prefix) as [name|] eqn:Hn; [|discriminate].
    destruct (mkDataConnectorName name) as [e|n'] eqn:Hd; simpl; [discriminate|].
    intros [= <-]. eauto.
  - intros (prefix & name & Ht & Hn & Hd).
    apply stripSuffix_Some in Ht. now rewrite Ht, Hn, Hd.
Qed.

(** X6 — The data-connector wildcard.  A request is parsed into a
    data-connector [run_sql] exactly when its type is none of the seven
    built-in [run_sql] types, is some prefix followed by ["_run_sql"], the
    prefix is accepted as a GraphQL name and as a data connector name, and
    the arguments parse; the query then carries that connector's name.  So
    no connector is reachable under the name of a built-in backend, and a
    type without the suffix is never delegated. *)
Theorem data_connector_wildcard {qt : QueryTypes} (nv : NameValidators)
    (t : Text) (args : Args) (n : DataConnectorName) (q : DataConnectorRunSQL) :
  parseRQLQuery t args = inr (RQDataConnectorRunSql n q)
  <-> ~ In t runSqlTypes
      /\ exists prefix name,
           t = prefix +:+ "_run_sql" /\ mkName prefix = Some name
           /\ mkDataConnectorName name = inr n
           /\ argsDataConnectorRunSQL args = inr q.
Proof.
  split.
  - parse_alternatives t; intros Hp;
      try (apply fmapParser_inr in Hp as (a & _ & [=]); fail);
      try discriminate Hp;
      apply fmapParser_inr in Hp as (a & Ha & [= <- <-]);
      apply dcNameFromRunSql_Some in Hdc as (prefix & name & Ht & Hn & Hd);
      (split; [|eauto 8]);
      unfold runSqlTypes; simpl; intuition congruence.
  - intros (Hnot & prefix & name & Ht & Hn & Hd & Ha).
    assert (Hdc : dcNameFromRunSql t = Some n)
      by (apply dcNameFromRunSql_Some; eauto).
    assert (Hsuffix : stripSuffix "_run_sql" t = Some prefix)
      by now apply stripSuffix_Some.
    unfold runSqlTypes in Hnot. simpl in Hnot.
    unfold parseRQLQuery.
    repeat match goal with
           | |- context [String.eqb t ?lit] =>
               destruct (String.eqb_spec t lit) as [Hlit|_]; cbv iota;
                 [ exfalso;
                   first [ rewrite Hlit in Hsuffix; vm_compute in Hsuffix;
                           discriminate Hsuffix
                         | apply Hnot; rewrite Hlit;
                           repeat first [left; reflexivity | right] ]
                 | ]
           end.
    rewrite Hdc, Ha. reflexivity.
Qed.

(** X7 — What a request type can do.  Of a successfully parsed request, if
    the query does not count as a write its type is one of [select],
    [count], [bigquery_database_inspection], [bulk] and [concurrent_bulk];
    if the query is schema-modifying its type is a [run_sql] of the Postgres
    family or of MSSQL, or one of the two bulks.  In particular a request
    delegated to a data connector always counts as a write and never as a
    schema change. *)
Theorem request_type_by_effect {qt : QueryTypes} (nv : NameValidators)
    (t : Text) (args : Args) (rq : RQLQuery) :
  parseRQLQuery t args = inr rq ->
  (queryModifiesUserDB rq = false ->
   In t ["select"; "count"; "bigquery_database_inspection"; "bulk";
         "concurrent_bulk"])
  /\ (queryModifiesSchema rq = true ->
      In t ["run_sql"; "pg_run_sql"; "mssql_run_sql"; "citus_run_sql";
            "cockroach_run_sql"; "bulk"; "concurrent_bulk"]).
Proof.
  parse_alternatives t; intros Hp; try discriminate Hp;
    apply fmapParser_inr in Hp as (a & _ & ->);
    (split; intros Heff; simpl in Heff; try discriminate Heff);
    subst t; in_literals.
Qed.

Lemma request_type_by_effect_witness :
  parseRQLQuery (nv:=demoValidators) "count" demoArgs
  = inr (RQCount (qt:=Demo.queryTypes) 5%nat)
  /\ In "count" ["select"; "count"; "bigquery_database_inspection"; "bulk";
                 "concurrent_bulk"].
Proof.
  split; [reflexivity|].
  apply (@request_type_by_effect Demo.queryTypes demoValidators "count" demoArgs
           (RQCount (qt:=Demo.queryTypes) 5%nat)); reflexivity.
Defined.

(** * Further properties of the select IR *)

Section FmapKeepsRemotes.
Context {b : Backend} {ir : Imports b} {r v w : Type} (h : v -> w).

Lemma remotesFields_fmap {A B : Type} (ff : A -> B) (rf : A -> list r)
    (rf' : B -> list r) (l : Fields A) :
  ForallFields (fun x => rf' (ff x) = rf x) l ->
  remotesFields rf' (fmapFields ff l) = remotesFields rf l.
Proof.
  unfold ForallFields, remotesFields, fmapFields.
  induction 1 as [|[k x] l Hx _ IH]; simpl in *; [reflexivity|].
  now rewrite Hx, IH.
Qed.

Lemma remotes_fmap_tree :
  (forall x : AnnFieldG r v, remotesAnnFieldG (fmapAnnFieldG h x) = remotesAnnFieldG x)
  /\ (forall x : AnnObjectSelectG r v,
        remotesAnnObjectSelectG (fmapAnnObjectSelectG h x) = remotesAnnObjectSelectG x)
  /\ (forall x : ArraySelectG r v,
        remotesArraySelectG (fmapArraySelectG h x) = remotesArraySelectG x)
  /\ (forall x : ComputedFieldSelect r v,
        remotesComputedFieldSelect (fmapComputedFieldSelect h x)
        = remotesComputedFieldSelect x)
  /\ (forall x : TableAggregateFieldG r v,
        remotesTableAggregateFieldG (fmapTableAggregateFieldG h x)
        = remotesTableAggregateFieldG x)
  /\ (forall x : ConnectionSelect r v,
        remotesConnectionSelect (fmapConnectionSelect h x) = remotesConnectionSelect x)
  /\ (forall x : ConnectionField r v,
        remotesConnectionField (fmapConnectionField h x) = remotesConnectionField x)
  /\ (forall x : EdgeField r v,
        remotesEdgeField (fmapEdgeField h x) = remotesEdgeField x).
Proof.
  apply field_tree_ind; intros; simpl; try reflexivity; try assumption;
    try (now apply remotesFields_fmap).
Qed.
End FmapKeepsRemotes.

(** X8 — Substituting leaves never touches the remote relationships.  For
    every tree and every leaf substitution, the remote markers of the mapped
    tree are those of the tree, in the same order. *)
Theorem fmap_keeps_remotes {b : Backend} {ir : Imports b} (r v w : Type)
    (h : v -> w) (q : QueryDB r v) :
  remotesQueryDB (fmapQueryDB h q) = remotesQueryDB q.
Proof.
  destruct (remotes_fmap_tree (r:=r) h) as (HF & _ & _ & _ & HT & HS & _ & _).
  destruct q; simpl.
  - apply remotesFields_fmap, ForallFields_all, HF.
  - apply remotesFields_fmap, ForallFields_all, HF.
  - apply remotesFields_fmap, ForallFields_all, HT.
  - apply HS.
  - apply remotesFields_fmap, ForallFields_all, HF.
Qed.

Section FoldAfterFmap.
Context {M : Type} {mon : Monoid M}.

Lemma foldMapList_map {A B : Type} (G : B -> M) (H : A -> B) (G' : A -> M)
    (l : list A) :
  (forall x, G (H x) = G' x) ->
  foldMapList G (List.map H l) = foldMapList G' l.
Proof.
  intros HG. induction l as [|x l IH]; simpl; [reflexivity|].
  now rewrite HG, IH.
Qed.

Lemma foldMapMaybe_fmapMaybe {A B : Type} (G : B -> M) (H : A -> B) (G' : A -> M)
    (o : option A) :
  (forall x, G (H x) = G' x) ->
  foldMapMaybe G (fmapMaybe H o) = foldMapMaybe G' o.
Proof. intros HG. destruct o; simpl; auto. Qed.

Lemma foldMapNonEmpty_fmapNonEmpty {A B : Type} (G : B -> M) (H : A -> B)
    (G' : A -> M) (ne : NonEmpty A) :
  (forall x, G (H x) = G' x) ->
  foldMapNonEmpty G (fmapNonEmpty H ne) = foldMapNonEmpty G' ne.
Proof.
  intros HG. destruct ne as [x l]. unfold foldMapNonEmpty, fmapNonEmpty; simpl.
  now rewrite HG, (foldMapList_map (G':=G')).
Qed.

Lemma foldMapC_cmap {F : Type -> Type} `{ContainerNatural F} {A B : Type}
    (G : B -> M) (H' : A -> B) (G' : A -> M) (t : F A) :
  (forall x, G (H' x) = G' x) ->
  foldMapC G (cmap H' t) = foldMapC G' t.
Proof.
  intros HG. unfold foldMapC. rewrite toList_cmap. now apply foldMapList_map.
Qed.

Lemma foldMapHashMap_fmap {A B : Type} (G : B -> M) (H : A -> B) (G' : A -> M)
    (m : HashMapText A) :
  (forall x, G (H x) = G' x) ->
  foldMapHashMap G (H <$> m) = foldMapHashMap G' m.
Proof.
  intros HG. unfold foldMapHashMap. rewrite map_to_list_fmap.
  induction (map_to_list m) as [|[k x] l IH]; [reflexivity|].
  change (G (H x) <+> foldMapList G (snd <$> (prod_map id H <$> l))
          = G' x <+> foldMapList G' (snd <$> l)).
  now rewrite HG, IH.
Qed.

Context {b : Backend} {ir : Imports b} {natural : NaturalImports ir}.
Context {v w : Type} (h : v -> w) (g : w -> M).

Local Abbreviation gh := (fun x : v => g (h x)).

Lemma foldMapAnnBoolExp_fmap (e : AnnBoolExp v) :
  foldMapAnnBoolExp g (fmapAnnBoolExp h e) = foldMapAnnBoolExp gh e.
Proof using All.
  unfold foldMapAnnBoolExp, fmapAnnBoolExp.
  apply (foldMapC_cmap (F:=GBoolExp)). intros x.
  now apply (foldMapC_cmap (F:=AnnBoolExpFld)).
Qed.

Lemma foldMapAnnColumnCaseBoolExp_fmap (e : AnnColumnCaseBoolExp v) :
  foldMapAnnColumnCaseBoolExp g (fmapAnnColumnCaseBoolExp h e)
  = foldMapAnnColumnCaseBoolExp gh e.
Proof using All.
  unfold foldMapAnnColumnCaseBoolExp, fmapAnnColumnCaseBoolExp.
  apply (foldMapC_cmap (F:=GBoolExp)). intros x.
  now apply (foldMapC_cmap (F:=AnnColumnCaseBoolExpField)).
Qed.

Lemma foldMapFunctionArgsExp_fmap (e : FunctionArgsExpOf v) :
  foldMapFunctionArgsExp g (fmapFunctionArgsExp h e) = foldMapFunctionArgsExp gh e.
Proof using All.
  destruct e as [p n].
  unfold foldMapFunctionArgsExp, fmapFunctionArgsExp, foldMapFunctionArgsExpG,
    fmapFunctionArgsExpG; simpl.
  rewrite (foldMapList_map (G':=foldMapC (F:=FunctionArgumentExp) gh))
    by (intros x; now apply (foldMapC_cmap (F:=FunctionArgumentExp))).
  now rewrite (foldMapHashMap_fmap (G':=foldMapC (F:=FunctionArgumentExp) gh))
    by (intros x; now apply (foldMapC_cmap (F:=FunctionArgumentExp))).
Qed.

Lemma foldMapAnnotatedOrderByElement_fmap (e : AnnotatedOrderByElement v) :
  foldMapAnnotatedOrderByElement g (fmapAnnotatedOrderByElement h e)
  = foldMapAnnotatedOrderByElement gh e.
Proof using All.
  induction e as [col|rel perm el IH|rel perm agg|cf]; simpl.
  - reflexivity.
  - now rewrite foldMapAnnBoolExp_fmap, IH.
  - apply foldMapAnnBoolExp_fmap.
  - destruct cf as [x n fn args el].
    unfold foldMapComputedFieldOrderBy, fmapComputedFieldOrderBy; simpl.
    rewrite foldMapFunctionArgsExp_fmap. apply (f_equal (mappend _)).
    destruct el; simpl; [reflexivity | apply foldMapAnnBoolExp_fmap].
Qed.

Lemma foldMapAnnotatedOrderByItemG_fmap (i : AnnotatedOrderByItemG v) :
  foldMapAnnotatedOrderByItemG g (fmapAnnotatedOrderByItemG h i)
  = foldMapAnnotatedOrderByItemG gh i.
Proof using All.
  apply (foldMapC_cmap (F:=OrderByItemG)).
  apply foldMapAnnotatedOrderByElement_fmap.
Qed.

Lemma foldMapTablePermG_fmap (p : TablePermG v) :
  foldMapTablePermG g (fmapTablePermG h p) = foldMapTablePermG gh p.
Proof using All. destruct p. apply foldMapAnnBoolExp_fmap. Qed.

Lemma foldMapSelectFromG_fmap (s : SelectFromG v) :
  foldMapSelectFromG g (fmapSelectFromG h s) = foldMapSelectFromG gh s.
Proof using All.
  destruct s; simpl; try reflexivity.
  - apply foldMapFunctionArgsExp_fmap.
  - now apply (foldMapC_cmap (F:=NativeQuery)).
Qed.

Lemma foldMapSelectArgsG_fmap (a : SelectArgsG v) :
  foldMapSelectArgsG g (fmapSelectArgsG h a) = foldMapSelectArgsG gh a.
Proof using All.
  destruct a. unfold foldMapSelectArgsG, fmapSelectArgsG; simpl.
  rewrite (foldMapMaybe_fmapMaybe (G':=foldMapAnnBoolExp gh))
    by apply foldMapAnnBoolExp_fmap.
  apply (f_equal (mappend _)).
  apply foldMapMaybe_fmapMaybe. intros ne. apply foldMapNonEmpty_fmapNonEmpty.
  apply foldMapAnnotatedOrderByItemG_fmap.
Qed.

Lemma foldMapSelectStreamArgsG_fmap (a : SelectStreamArgsG v) :
  foldMapSelectStreamArgsG g (fmapSelectStreamArgsG h a)
  = foldMapSelectStreamArgsG gh a.
Proof using All.
  destruct a. unfold foldMapSelectStreamArgsG, fmapSelectStreamArgsG; simpl.
  apply foldMapMaybe_fmapMaybe, foldMapAnnBoolExp_fmap.
Qed.

Lemma foldMapConnectionSplit_fmap (s : ConnectionSplit v) :
  foldMapConnectionSplit g (fmapConnectionSplit h s) = foldMapConnectionSplit gh s.
Proof using All.
  destruct s. unfold foldMapConnectionSplit, fmapConnectionSplit; simpl.
  now rewrite foldMapAnnotatedOrderByItemG_fmap.
Qed.

Lemma foldMapAnnColumnField_fmap (c : AnnColumnField v) :
  foldMapAnnColumnField g (fmapAnnColumnField h c) = foldMapAnnColumnField gh c.
Proof using All.
  destruct c. unfold foldMapAnnColumnField, fmapAnnColumnField; simpl.
  apply foldMapMaybe_fmapMaybe, foldMapAnnColumnCaseBoolExp_fmap.
Qed.

Context {r : Type} (f : r -> M).

Lemma foldMapFields_fmapFields {A B : Type} (bf : B -> M) (ff : A -> B)
    (bf' : A -> M) (l : Fields A) :
  ForallFields (fun x => bf (ff x) = bf' x) l ->
  foldMapList (foldMapPair bf) (fmapFields ff l) = foldMapList (foldMapPair bf') l.
Proof.
  unfold ForallFields, fmapFields.
  induction 1 as [|[k x] l Hx _ IH]; simpl in *; [reflexivity|].
  now rewrite Hx, IH.
Qed.

Lemma bifoldMapAnnSelectG_fmap {fld fld' : Type}
    (bf : (r -> M) -> (w -> M) -> fld' -> M) (bf' : (r -> M) -> (v -> M) -> fld -> M)
    (ff : fld -> fld') (s : AnnSelectG fld v) :
  ForallFields (fun x => bf f g (ff x) = bf' f gh x) (_asnFields s) ->
  bifoldMapAnnSelectG bf f g (fmapAnnSelectG ff h s) = bifoldMapAnnSelectG bf' f gh s.
Proof using All.
  intros Hs. destruct s. unfold bifoldMapAnnSelectG, fmapAnnSelectG; simpl in *.
  now rewrite (foldMapFields_fmapFields Hs), foldMapSelectFromG_fmap,
    foldMapTablePermG_fmap, foldMapSelectArgsG_fmap.
Qed.

Lemma bifoldMapAnnSelectStreamG_fmap {fld fld' : Type}
    (bf : (r -> M) -> (w -> M) -> fld' -> M) (bf' : (r -> M) -> (v -> M) -> fld -> M)
    (ff : fld -> fld') (s : AnnSelectStreamG fld v) :
  ForallFields (fun x => bf f g (ff x) = bf' f gh x) (_assnFields s) ->
  bifoldMapAnnSelectStreamG bf f g (fmapAnnSelectStreamG ff h s)
  = bifoldMapAnnSelectStreamG bf' f gh s.
Proof using All.
  intros Hs. destruct s.
  unfold bifoldMapAnnSelectStreamG, fmapAnnSelectStreamG; simpl in *.
  now rewrite (foldMapFields_fmapFields Hs), foldMapSelectFromG_fmap,
    foldMapTablePermG_fmap, foldMapSelectStreamArgsG_fmap.
Qed.

Lemma bifoldMap_fmap_tree :
  (forall x, bifoldMapAnnFieldG f g (fmapAnnFieldG h x) = bifoldMapAnnFieldG f gh x)
  /\ (forall x, bifoldMapAnnObjectSelectG f g (fmapAnnObjectSelectG h x)
                = bifoldMapAnnObjectSelectG f gh x)
  /\ (forall x, bifoldMapArraySelectG f g (fmapArraySelectG h x)
                = bifoldMapArraySelectG f gh x)
  /\ (forall x, bifoldMapComputedFieldSelect f g (fmapComputedFieldSelect h x)
                = bifoldMapComputedFieldSelect f gh x)
  /\ (forall x, bifoldMapTableAggregateFieldG f g (fmapTableAggregateFieldG h x)
                = bifoldMapTableAggregateFieldG f gh x)
  /\ (forall x, bifoldMapConnectionSelect f g (fmapConnectionSelect h x)
                = bifoldMapConnectionSelect f gh x)
  /\ (forall x, bifoldMapConnectionField f g (fmapConnectionField h x)
                = bifoldMapConnectionField f gh x)
  /\ (forall x, bifoldMapEdgeField f g (fmapEdgeField h x) = bifoldMapEdgeField f gh x).
Proof using All.
  apply field_tree_ind; intros; simpl; try reflexivity; try assumption.
  - apply foldMapAnnColumnField_fmap.
  - rewrite (foldMapFields_fmapFields H). apply (f_equal (mappend _)).
    apply foldMapAnnBoolExp_fmap.
  - now apply bifoldMapAnnSelectG_fmap.
  - now apply bifoldMapAnnSelectG_fmap.
  - destruct sel. unfold foldMapComputedFieldScalarSelect; simpl.
    rewrite foldMapFunctionArgsExp_fmap. apply (f_equal (mappend _)).
    apply foldMapMaybe_fmapMaybe. intros e. apply foldMapAnnColumnCaseBoolExp_fmap.
  - now apply bifoldMapAnnSelectG_fmap.
  - now apply foldMapFields_fmapFields.
  - rewrite (bifoldMapAnnSelectG_fmap (bf':=bifoldMapConnectionField) H).
    apply (f_equal (fun z => z <+> _)).
    apply foldMapMaybe_fmapMaybe. intros ne. apply foldMapNonEmpty_fmapNonEmpty.
    apply foldMapConnectionSplit_fmap.
  - now apply foldMapFields_fmapFields.
  - now apply foldMapFields_fmapFields.
Qed.

Lemma bifoldMapQueryDB_fmap (q : QueryDB r v) :
  bifoldMapQueryDB f g (fmapQueryDB h q) = bifoldMapQueryDB f gh q.
Proof using All.
  destruct bifoldMap_fmap_tree as (HF & _ & _ & _ & HT & HS & _ & _).
  destruct q; simpl.
  - apply bifoldMapAnnSelectG_fmap, ForallFields_all, HF.
  - apply bifoldMapAnnSelectG_fmap, ForallFields_all, HF.
  - apply bifoldMapAnnSelectG_fmap, ForallFields_all, HT.
  - apply HS.
  - apply bifoldMapAnnSelectStreamG_fmap, ForallFields_all, HF.
Qed.
End FoldAfterFmap.

Lemma listContainer_natural : @ContainerNatural list Demo.listContainer.
Proof. split; reflexivity. Qed.

Lemma idContainer_natural : @ContainerNatural Demo.Id Demo.idContainer.
Proof. split; reflexivity. Qed.

Lemma demo_imports_natural : NaturalImports Demo.imports.
Proof.
  split; simpl;
    first [exact listContainer_natural | exact idContainer_natural].
Qed.

(** X9 — Folding after a substitution.  Over a backend whose imported
    constructors enumerate, after a map, the mapped elements: the bifold of
    a tree whose leaves were substituted by [h] is the bifold of the
    original tree with [h] applied before the leaf function, the same holds
    for the derived fold, and the leaves of the substituted tree are the
    images of the leaves of the original one, in the same order. *)
Theorem fold_after_fmap {b : Backend} {ir : Imports b} (natural : NaturalImports ir)
    (M : Type) (mon : Monoid M) (r v w : Type) (h : v -> w) (f : r -> M)
    (g : w -> M) (q : QueryDB r v) :
  bifoldMapQueryDB f g (fmapQueryDB h q) = bifoldMapQueryDB f (fun x => g (h x)) q
  /\ foldMapQueryDB g (fmapQueryDB h q) = foldMapQueryDB (fun x => g (h x)) q
  /\ leavesQueryDB (fmapQueryDB h q) = List.map h (leavesQueryDB q).
Proof.
  assert (Hfold : forall (N : Type) (monN : Monoid N) (k : w -> N),
             foldMapQueryDB k (fmapQueryDB h q) = foldMapQueryDB (fun x => k (h x)) q).
  { intros N monN k.
    rewrite <- !(bifoldMapQueryDB_leaves (r:=r)).
    apply bifoldMapQueryDB_fmap. }
  split; [apply bifoldMapQueryDB_fmap|].
  split; [apply Hfold|].
  unfold leavesQueryDB. rewrite Hfold.
  rewrite <- !(bifoldMapQueryDB_leaves (r:=r)). symmetry.
  apply (hom_bifoldMapQueryDB (phi:=List.map h)); try reflexivity.
  intros x y. apply map_app.
Qed.

Lemma fold_after_fmap_witness :
  leavesQueryDB (fmapQueryDB (fun x : Z => 2 * x) Demo.markedSelect) = [84]
  /\ bifoldMapQueryDB (fun n : nat => [Z.of_nat n]) (fun x : Z => [x + 1])
       (fmapQueryDB (fun x : Z => 2 * x) Demo.markedSelect)
     = bifoldMapQueryDB (fun n : nat => [Z.of_nat n]) (fun x : Z => [2 * x + 1])
         Demo.markedSelect.
Proof.
  split.
  - exact (proj2 (proj2 (fold_after_fmap demo_imports_natural (listMonoid Z)
             (fun x : Z => 2 * x) (fun n : nat => [Z.of_nat n])
             (fun x : Z => [x]) Demo.markedSelect))).
  - exact (proj1 (fold_after_fmap demo_imports_natural (listMonoid Z)
             (fun x : Z => 2 * x) (fun n : nat => [Z.of_nat n])
             (fun x : Z => [x + 1]) Demo.markedSelect)).
Defined.

Lemma bifoldMapQueryDB_ext {b : Backend} {ir : Imports b} {M : Type}
    {mon : Monoid M} {r v : Type} (f f' : r -> M) (g g' : v -> M)
    (q : QueryDB r v) :
  (forall x, f x = f' x) -> (forall x, g x = g' x) ->
  bifoldMapQueryDB f g q = bifoldMapQueryDB f' g' q.
Proof.
  intros Hf Hg.
  exact (hom_bifoldMapQueryDB (phi:=fun x : M => x) eq_refl
           (fun x y => eq_refl) Hg Hf q).
Qed.

(** X10 — Selects without remote relationships.  At the remote-marker type
    [Void], the instantiation of [AnnSimpleSelect], [AnnAggregateSelect] and
    the other unparameterised synonyms, a tree holds no remote marker, and
    the bifold is the derived fold of the leaves whatever function is given
    for the markers. *)
Theorem bifold_without_remotes {b : Backend} {ir : Imports b} (M : Type)
    (mon : Monoid M) (v : Type) (f : Empty_set -> M) (g : v -> M)
    (q : QueryDB Empty_set v) :
  remotesQueryDB q = [] /\ bifoldMapQueryDB f g q = foldMapQueryDB g q.
Proof.
  split.
  - destruct (remotesQueryDB q) as [|[] ?]. reflexivity.
  - rewrite <- (bifoldMapQueryDB_leaves (r:=Empty_set)).
    apply bifoldMapQueryDB_ext; [intros [] | reflexivity].
Qed.

Section ThroughOccurrences.
Context {b : Backend} {ir : Imports b} {M : Type} `{MonoidLaws M}.
Context {r v : Type}.

Lemma foldMapList_either_singleton (f : r -> M) (g : v -> M) (s : r + v) :
  foldMapList (either f g) [s] = either f g s.
Proof using All. simpl. apply mappend_mempty_r. Qed.

Lemma bifoldMapQueryDB_occurrences (f : r -> M) (g : v -> M) (q : QueryDB r v) :
  bifoldMapQueryDB f g q = foldMapList (either f g) (occurrencesQueryDB q).
Proof using All.
  unfold occurrencesQueryDB. symmetry.
  apply (hom_bifoldMapQueryDB (phi:=foldMapList (either f g))).
  - reflexivity.
  - apply foldMapList_app.
  - intros x. apply (foldMapList_either_singleton f g (inr x)).
  - intros x. apply (foldMapList_either_singleton f g (inl x)).
Qed.

Lemma foldMapQueryDB_leavesQueryDB (g : v -> M) (q : QueryDB r v) :
  foldMapQueryDB g q = foldMapList g (leavesQueryDB q).
Proof using All.
  unfold leavesQueryDB. rewrite <- !(bifoldMapQueryDB_leaves (r:=r)). symmetry.
  apply (hom_bifoldMapQueryDB (phi:=foldMapList g)).
  - reflexivity.
  - apply foldMapList_app.
  - intros x. simpl. apply mappend_mempty_r.
  - reflexivity.
Qed.

Lemma lefts_occurrencesQueryDB (q : QueryDB r v) :
  lefts (occurrencesQueryDB q) = remotesQueryDB q.
Proof.
  rewrite <- (foldMapList_singleton (remotesQueryDB q)).
  rewrite <- (bifoldMapQueryDB_remotes (M:=list r) (v:=v) (fun x : r => [x]) q).
  unfold occurrencesQueryDB.
  apply (hom_bifoldMapQueryDB (phi:=@lefts r v)); try reflexivity.
  apply lefts_app.
Qed.

Lemma rights_occurrencesQueryDB (q : QueryDB r v) :
  rights (occurrencesQueryDB q) = leavesQueryDB q.
Proof.
  unfold leavesQueryDB.
  rewrite <- (bifoldMapQueryDB_leaves (r:=r) (M:=list v) (fun x : v => [x]) q).
  unfold occurrencesQueryDB.
  apply (hom_bifoldMapQueryDB (phi:=@rights r v)); try reflexivity.
  apply rights_app.
Qed.

Lemma foldMapList_either_split {comm : MonoidCommutative M} (f : r -> M)
    (g : v -> M) (l : list (r + v)) :
  foldMapList (either f g) l
  = foldMapList f (lefts l) <+> foldMapList g (rights l).
Proof using All.
  induction l as [|s l IH].
  - simpl. symmetry. apply mappend_mempty_l.
  - destruct s as [x|y].
    + change (f x <+> foldMapList (either f g) l
              = (f x <+> foldMapList f (lefts l)) <+> foldMapList g (rights l)).
      rewrite IH. apply mappend_assoc.
    + change (g y <+> foldMapList (either f g) l
              = foldMapList f (lefts l) <+> (g y <+> foldMapList g (rights l))).
      rewrite IH, !mappend_assoc.
      apply (f_equal (fun z => z <+> foldMapList g (rights l))).
      apply mappend_comm.
Qed.
End ThroughOccurrences.

Lemma sumMonoid_commutative : MonoidCommutative nat.
Proof. split; simpl; intros; lia. Qed.

(** X11 — A fold is determined by what it visits.  In every monoid that
    satisfies the monoid laws, the bifold of a tree with [f] and [g] is the
    fold of [either f g] over the list of its occurrences, and the derived
    fold with [g] is the fold of [g] over the list of its leaves: two trees
    with the same occurrences cannot be told apart by any fold. *)
Theorem folds_factor_through_occurrences {b : Backend} {ir : Imports b}
    (M : Type) (mon : Monoid M) (laws : MonoidLaws M) (r v : Type)
    (f : r -> M) (g : v -> M) (q : QueryDB r v) :
  bifoldMapQueryDB f g q = foldMapList (either f g) (occurrencesQueryDB q)
  /\ foldMapQueryDB g q = foldMapList g (leavesQueryDB q).
Proof.
  split.
  - apply bifoldMapQueryDB_occurrences.
  - apply foldMapQueryDB_leavesQueryDB.
Qed.

Lemma folds_factor_through_occurrences_witness :
  bifoldMapQueryDB (fun n : nat => (2 * n)%nat) (fun x : Z => Z.to_nat x)
    Demo.markedSelect
  = foldMapList (either (fun n : nat => (2 * n)%nat) (fun x : Z => Z.to_nat x))
      (occurrencesQueryDB Demo.markedSelect)
  /\ foldMapQueryDB (r:=nat) (fun x : Z => Z.to_nat x) Demo.markedSelect
     = foldMapList (fun x : Z => Z.to_nat x) (leavesQueryDB Demo.markedSelect).
Proof.
  exact (folds_factor_through_occurrences sumMonoidLaws
           (fun n : nat => (2 * n)%nat) (fun x : Z => Z.to_nat x)
           Demo.markedSelect).
Defined.

(** X12 — In a commutative monoid the two sides separate.  When the monoid
    is lawful and commutative (a count, a sum, a set), the bifold of a tree
    is the fold of [f] over its remote markers combined with the fold of
    [g] over its leaves, although the traversal meets them interleaved. *)
Theorem bifold_splits_when_commutative {b : Backend} {ir : Imports b}
    (M : Type) (mon : Monoid M) (laws : MonoidLaws M)
    (comm : MonoidCommutative M) (r v : Type) (f : r -> M) (g : v -> M)
    (q : QueryDB r v) :
  bifoldMapQueryDB f g q
  = foldMapList f (remotesQueryDB q) <+> foldMapList g (leavesQueryDB q).
Proof.
  rewrite bifoldMapQueryDB_occurrences, foldMapList_either_split.
  now rewrite lefts_occurrencesQueryDB, rights_occurrencesQueryDB.
Qed.

Lemma bifold_splits_when_commutative_witness :
  bifoldMapQueryDB (fun n : nat => (2 * n)%nat) (fun x : Z => Z.to_nat x)
    Demo.markedSelect
  = (foldMapList (fun n : nat => (2 * n)%nat) (remotesQueryDB Demo.markedSelect)
     + foldMapList (fun x : Z => Z.to_nat x) (leavesQueryDB Demo.markedSelect))%nat.
Proof.
  exact (bifold_splits_when_commutative sumMonoidLaws sumMonoid_commutative
           (fun n : nat => (2 * n)%nat) (fun x : Z => Z.to_nat x)
           Demo.markedSelect).
Defined.

(** The commutativity is needed: in the list monoid the marked select gives
    its leaf before its remote marker. *)
Example bifold_interleaves_in_list_monoid :
  bifoldMapQueryDB (fun _ : nat => ["remote"]) (fun _ : Z => ["leaf"])
    Demo.markedSelect
  = ["leaf"; "remote"]
  /\ foldMapList (fun _ : nat => ["remote"]) (remotesQueryDB Demo.markedSelect)
     <+> foldMapList (fun _ : Z => ["leaf"]) (leavesQueryDB Demo.markedSelect)
     = ["remote"; "leaf"].
Proof. split; reflexivity. Qed.

(** * Further properties of [insertFunctionArg] *)

Lemma intLength_map {A B : Type} (f : A -> B) (l : list A) :
  intLength (List.map f l) = intLength l.
Proof. unfold intLength. now rewrite length_map. Qed.

Lemma seqInsertAt_map {A B : Type} (f : A -> B) (i : Z) (a : A) (s : list A) :
  seqInsertAt i (f a) (List.map f s) = List.map f (seqInsertAt i a s).
Proof.
  unfold seqInsertAt. rewrite intLength_map.
  destruct ((0 <=? i) && (i <? intLength s)).
  - rewrite map_app. simpl. now rewrite firstn_map, skipn_map.
  - destruct (i <=? 0); [reflexivity|]. now rewrite map_app.
Qed.

Lemma seqInsertAt_length {A : Type} (i : Z) (a : A) (s : list A) :
  length (seqInsertAt i a s) = S (length s).
Proof.
  unfold seqInsertAt.
  destruct ((0 <=? i) && (i <? intLength s)) eqn:Hin.
  - rewrite length_app. simpl. rewrite length_take, length_drop.
    apply andb_true_iff in Hin as [_ Hlt]. apply Z.ltb_lt in Hlt.
    unfold intLength in Hlt. lia.
  - destruct (i <=? 0); simpl; [reflexivity|].
    rewrite length_app. simpl. lia.
Qed.

Lemma seqInsertAt_sublist {A : Type} (i : Z) (a : A) (s : list A) :
  s `sublist_of` seqInsertAt i a s.
Proof.
  unfold seqInsertAt.
  destruct ((0 <=? i) && (i <? intLength s)).
  - rewrite <- (take_drop (Z.to_nat i) s) at 1.
    apply sublist_app; [reflexivity|]. now apply sublist_cons.
  - destruct (i <=? 0); [now apply sublist_cons|].
    now apply sublist_inserts_r.
Qed.

(** X13 — A negative index.  For a negative index (an [Int], so not below
    [minBound]) the value becomes the first positional argument, the other
    positional arguments follow it unchanged, and the named arguments are
    left alone. *)
Theorem insertFunctionArg_negative_index {A : Type} (argName : FunctionArgName)
    (idx : Z) (value : A) (p : list A) (n : HashMapText A) :
  intMin <= idx < 0 ->
  insertFunctionArg argName idx value (FunctionArgsExp p n)
  = FunctionArgsExp (value :: p) n.
Proof.
  intros Hidx. unfold insertFunctionArg, intAdd.
  rewrite wrapInt_small by (unfold isInt, intMin, intMax in *; lia).
  unfold intLength at 1.
  destruct (Z.leb_spec (idx + 1) (Z.of_nat (length p))) as [_|Hgt]; [|lia].
  unfold seqInsertAt.
  destruct (Z.leb_spec 0 idx) as [Hpos|_]; [lia|]. simpl.
  destruct (Z.leb_spec idx 0) as [_|Hpos]; [reflexivity | lia].
Qed.

Lemma insertFunctionArg_negative_index_witness :
  intMin <= -5 < 0
  /\ insertFunctionArg (mkFunctionArgName "x") (-5) (9 : Z)
       (FunctionArgsExp [1; 2; 3] ∅)
     = FunctionArgsExp [9; 1; 2; 3] ∅.
Proof.
  split.
  - split; [discriminate | reflexivity].
  - apply insertFunctionArg_negative_index. split; [discriminate | reflexivity].
Defined.

(** X14 — Inserting commutes with substitution.  For every index, mapping
    a function over the arguments after the insertion of a value gives the
    same arguments as inserting the mapped value into the mapped arguments:
    the place an argument goes to depends on the index and on the number of
    positional arguments only, never on the values. *)
Theorem insertFunctionArg_fmap {A B : Type} (f : A -> B) (argName : FunctionArgName)
    (idx : Z) (value : A) (args : FunctionArgsExpG A) :
  fmapFunctionArgsExpG f (insertFunctionArg argName idx value args)
  = insertFunctionArg argName idx (f value) (fmapFunctionArgsExpG f args).
Proof.
  destruct args as [p n]. unfold insertFunctionArg, fmapFunctionArgsExpG. simpl.
  rewrite intLength_map.
  destruct (intAdd idx 1 <=? intLength p); simpl.
  - now rewrite seqInsertAt_map.
  - now rewrite fmap_insert.
Qed.

(** X15 — The number of arguments.  For every index, the insertion adds
    exactly one argument, except when the value goes to the named arguments
    and an argument of that name is there already: then the old argument is
    replaced and the number stays. *)
Theorem insertFunctionArg_argCount {A : Type} (argName : FunctionArgName)
    (idx : Z) (value : A) (args : FunctionArgsExpG A) :
  argCount (insertFunctionArg argName idx value args)
  = if negb (intAdd idx 1 <=? intLength (_faePositional args))
       && bool_decide (is_Some (_faeNamed args !! getFuncArgNameTxt argName))
    then argCount args
    else S (argCount args).
Proof.
  destruct args as [p n]. unfold insertFunctionArg, argCount. simpl.
  destruct (intAdd idx 1 <=? intLength p); simpl.
  - now rewrite seqInsertAt_length.
  - destruct (n !! getFuncArgNameTxt argName) as [old|] eqn:Hold.
    + rewrite bool_decide_eq_true_2 by eauto.
      now rewrite map_size_insert_Some by eauto.
    + rewrite bool_decide_eq_false_2 by (intros [? ?]; discriminate).
      rewrite map_size_insert_None by assumption. lia.
Qed.

(** X16 — No argument is lost.  For every index, the positional arguments
    of before are all among the positional arguments of after, in their
    order, and every named argument of another name is what it was. *)
Theorem insertFunctionArg_keeps_arguments {A : Type} (argName : FunctionArgName)
    (idx : Z) (value : A) (args : FunctionArgsExpG A) :
  _faePositional args
    `sublist_of` _faePositional (insertFunctionArg argName idx value args)
  /\ forall k : Text, k <> getFuncArgNameTxt argName ->
       _faeNamed (insertFunctionArg argName idx value args) !! k
       = _faeNamed args !! k.
Proof.
  destruct args as [p n]. unfold insertFunctionArg.
  destruct (intAdd idx 1 <=? intLength p); simpl.
  - split; [apply seqInsertAt_sublist | reflexivity].
  - split; [reflexivity|]. intros k Hk. now apply lookup_insert_ne.
Qed.

Lemma insertFunctionArg_keeps_arguments_witness :
  "y" <> "x"
  /\ _faeNamed (insertFunctionArg (mkFunctionArgName "x") 7 (9 : Z)
                  (FunctionArgsExp [1; 2; 3] (<["y" := 4]> ∅))) !! "y"
     = Some 4.
Proof.
  split; [discriminate|].
  rewrite (proj2 (insertFunctionArg_keeps_arguments (mkFunctionArgName "x") 7 9
                    (FunctionArgsExp [1; 2; 3] (<["y" := 4]> ∅))) "y")
    by discriminate.
  reflexivity.
Defined.
